(** * Boruvka minimum spanning tree (gunrock/algorithms/mst.hxx)

    A shallow embedding of [gunrock::mst]: the problem state
    ([problem_t]), its initialisation ([init]), the five device lambdas
    of [enactor_t::loop] ([get_min_weights], [get_min_neighbors],
    [remove_ties], [remove_dups], [add_to_mst]), pointer jumping
    ([jump_pointers_parallel]), the round ([loop]) and the driver
    ([is_converged], [enact]).

    Conventions.
    - [vertex_t] is [int] in the source; vertex ids only index arrays, so
      they are [nat] here.  [edge_t] is [int] and carries the sentinel
      [-1], so edge ids are [Z].  The two [int] counters are [Z]; they
      move by one per commit and their 32-bit wrap-around is left out.
    - [weight_t] is [float].  The lambdas use its order, its equality,
      its addition and [std::numeric_limits<weight_t>::max()].  A weight
      is the integer it denotes: the model covers the values of [float]
      that are integers ([is_float]) and the two infinities, compared as
      integers; [weight_max] is the value of [FLT_MAX].  The addition is
      the single-precision one, [weight_add]: it rounds to the nearest
      float, ties to even.
    - Device arrays are lists read with [!!!] and written with [<[i:=x]>].
      An out-of-bounds access is undefined in the source; here a read
      gives the default element and a write does nothing, and the
      theorems that depend on an access carry its bound.
    - Threads of one bulk operator touch shared cells through one atomic
      read-modify-write each, so a phase is a fold of its lambda over the
      frontier in an execution order; a [schedule] picks that order and
      is [fair] when it only permutes. *)

From stdpp Require Import base list.
From Stdlib Require Import ZArith Lia.

Abbreviation vertex_t := nat (only parsing).
Abbreviation edge_t := Z (only parsing).
Abbreviation weight_t := Z (only parsing).

(** [std::numeric_limits<float>::max()], that is (2^24 - 1) * 2^104. *)
Definition weight_max : weight_t := ((2 ^ 24 - 1) * 2 ^ 104)%Z.

(** ** Single-precision values *)

(** The two infinities are [weight_inf] and [- weight_inf]: rounding
    with an unbounded exponent gives 2^128 where [float] overflows. *)
Definition weight_inf : weight_t := (2 ^ 128)%Z.

(** The gap between neighbouring floats at [z]: 1 below 2^24, and
    2^(k - 23) from 2^k to 2^(k + 1) (24 bits of significand). *)
Definition ulp (z : Z) : Z := (2 ^ Z.max 0 (Z.log2 (Z.abs z) - 23))%Z.

(** The integers that are finite values of [float]. *)
Definition is_float (z : Z) : bool :=
  bool_decide ((Z.abs z <= weight_max)%Z /\ (z mod ulp z)%Z = 0%Z).

Definition is_inf (z : Z) : bool := bool_decide (Z.abs z = weight_inf).

(** Every other integer stands for a NaN; [weight_nan] is the one an
    operation makes. *)
Definition is_nan (z : Z) : bool := negb (is_float z || is_inf z).

Definition weight_nan : weight_t := (2 ^ 129)%Z.

(** Rounding to nearest, ties to even, among the multiples of the gap
    at [z]. *)
Definition nearest (z : Z) : Z :=
  let u := ulp z in
  let q := (z / u)%Z in
  let r := (z mod u)%Z in
  if bool_decide (2 * r < u)%Z then (q * u)%Z
  else if bool_decide (u < 2 * r)%Z then ((q + 1) * u)%Z
  else if Z.even q then (q * u)%Z else ((q + 1) * u)%Z.

(** The conversion of an exact result to [float]: the nearest float, an
    infinity beyond [weight_max]. *)
Definition round_float (z : Z) : Z :=
  if bool_decide (weight_max < nearest z)%Z then weight_inf
  else if bool_decide (nearest z < - weight_max)%Z then (- weight_inf)%Z
  else nearest z.

(** [a + b] on two [float]s (IEEE 754 binary32, round to nearest even):
    a NaN operand gives a NaN (the first operand when it is one), the
    two opposite infinities give a NaN, an infinity absorbs the rest, and
    two finite values give their exact sum rounded. *)
Definition weight_add (a b : weight_t) : weight_t :=
  if is_nan a then a
  else if is_nan b then weight_nan
  else if is_inf a then
    if is_inf b && bool_decide (a ≠ b) then weight_nan else a
  else if is_inf b then b
  else round_float (a + b).

(** ** The graph collaborator *)

(** Modelled from the spec: the graph container lives in [gunrock/graph],
    outside [mst.hxx]; section 6 lists the five accessors the algorithm
    uses, and a graph is taken to be those five, whatever they return. *)
Record graph_t := {
  get_number_of_vertices : nat;
  get_number_of_edges : nat;
  get_source_vertex : edge_t -> vertex_t;
  get_destination_vertex : edge_t -> vertex_t;
  get_edge_weight : edge_t -> weight_t
}.

(** A concrete graph given by its edge list (source, destination,
    weight); edge [e] is the [e]-th triple. *)
Definition edge_at (es : list (nat * nat * Z)) (e : edge_t) : nat * nat * Z :=
  if bool_decide (e < 0)%Z then (0, 0, 0%Z)
  else nth (Z.to_nat e) es (0, 0, 0%Z).

Definition graph_of_edges (n : nat) (es : list (nat * nat * Z)) : graph_t :=
  {| get_number_of_vertices := n;
     get_number_of_edges := length es;
     get_source_vertex := fun e => (edge_at es e).1.1;
     get_destination_vertex := fun e => (edge_at es e).1.2;
     get_edge_weight := fun e => (edge_at es e).2 |}.

(** ** Thrust and atomics *)

(** [thrust::device_vector::resize(n)] keeps the first [n] elements and
    value-initialises the new ones. *)
Definition resize {A} (d : A) (n : nat) (v : list A) : list A :=
  take n v ++ replicate (n - length v) d.

(** [thrust::fill(first, last, x)] over a whole vector. *)
Definition fill {A} (v : list A) (x : A) : list A := replicate (length v) x.

(** [thrust::fill_n(first, n, x)]. *)
Definition fill_n {A} (v : list A) (n : nat) (x : A) : list A :=
  replicate (n `min` length v) x ++ drop n v.

(** [thrust::sequence(first, last, init)] over a whole vector. *)
Definition sequence (v : list nat) (init : nat) : list nat :=
  seq init (length v).

Definition sequenceZ (v : list Z) (init : Z) : list Z :=
  seqZ init (Z.of_nat (length v)).

(** [thrust::copy_n(src, n, dst)]. *)
Definition copy_n {A} (src : list A) (n : nat) (dst : list A) : list A :=
  take n src ++ drop n dst.

(** Modelled from the spec: [math::atomic::min(&a[i], v)] of
    [gunrock/util/math.hxx] stores the smaller of the cell and [v] and
    returns the value the cell held before. *)
Definition atomic_min (a : list weight_t) (i : nat) (v : weight_t)
  : weight_t * list weight_t :=
  let old := a !!! i in (old, <[i := Z.min old v]> a).

(** Modelled from the spec: [math::atomic::max(&a[i], v)], likewise. *)
Definition atomic_max (a : list Z) (i : nat) (v : Z) : Z * list Z :=
  let old := a !!! i in (old, <[i := Z.max old v]> a).

(** Modelled from the spec: [math::atomic::add(&a[i], v)], likewise, on
    an [int] cell. *)
Definition atomic_add (a : list Z) (i : nat) (v : Z) : Z * list Z :=
  let old := a !!! i in (old, <[i := (old + v)%Z]> a).

(** Modelled from the spec: [math::atomic::add(&a[i], v)] on a [float]
    cell, CUDA's [atomicAdd(float*, float)]: the sum is the
    single-precision one. *)
Definition atomic_add_float (a : list weight_t) (i : nat) (v : weight_t)
  : weight_t * list weight_t :=
  let old := a !!! i in (old, <[i := weight_add old v]> a).

(** CUDA's [atomicExch(&a[i], v)]. *)
Definition atomicExch (a : list nat) (i : nat) (v : nat) : nat * list nat :=
  let old := a !!! i in (old, <[i := v]> a).

(** ** problem_t *)

Record problem_t := {
  g : graph_t;
  n_vertices : nat;
  mst_weight : list weight_t;   (* result.mst_weight, one cell *)
  roots : list vertex_t;
  new_roots : list vertex_t;
  min_weights : list weight_t;
  mst_edges : list Z;
  super_vertices : list Z;
  min_neighbors : list Z
}.

(** The constructor: the vectors are empty, [n_vertices] is read from
    the graph, [result.mst_weight] points at the caller's cell. *)
Definition problem_new (G : graph_t) (w : weight_t) : problem_t :=
  {| g := G;
     n_vertices := get_number_of_vertices G;
     mst_weight := [w];
     roots := [];
     new_roots := [];
     min_weights := [];
     mst_edges := [];
     super_vertices := [];
     min_neighbors := [] |}.

(** [problem_t::init]. *)
Definition init (P : problem_t) : problem_t :=
  let n := n_vertices P in
  let roots := resize 0 n (roots P) in
  let new_roots := resize 0 n (new_roots P) in
  let min_weights := resize 0%Z n (min_weights P) in
  let min_neighbors := resize 0%Z n (min_neighbors P) in
  let mst_edges := resize 0%Z 1 (mst_edges P) in
  let super_vertices := resize 0%Z 1 (super_vertices P) in
  {| g := g P;
     n_vertices := n;
     mst_weight := fill_n (mst_weight P) 1 0%Z;
     roots := sequence roots 0;
     new_roots := sequence new_roots 0;
     min_weights := fill min_weights weight_max;
     mst_edges := mst_edges;
     super_vertices := sequenceZ super_vertices (Z.of_nat n);
     min_neighbors := fill min_neighbors (-1)%Z |}.

(** ** The lambdas of [enactor_t::loop] *)

Section lambdas.
Variable G : graph_t.
Variable roots : list vertex_t.

(** [get_min_weights]: the state threaded is [min_weights]. *)
Definition get_min_weights (min_weights : list weight_t) (e : edge_t)
  : bool * list weight_t :=
  let source := get_source_vertex G e in
  let neighbor := get_destination_vertex G e in
  let weight := get_edge_weight G e in
  if bool_decide (roots !!! source ≠ roots !!! neighbor) then
    let '(old_weight, min_weights') :=
      atomic_min min_weights (roots !!! source) weight in
    (bool_decide (weight < old_weight)%Z, min_weights')
  else (false, min_weights).

(** [get_min_neighbors]: reads [min_weights], threads [min_neighbors]. *)
Definition get_min_neighbors (min_weights : list weight_t)
    (min_neighbors : list Z) (e : edge_t) : bool * list Z :=
  let source := get_source_vertex G e in
  let weight := get_edge_weight G e in
  if bool_decide (weight = min_weights !!! (roots !!! source)) then
    let '(old_val, min_neighbors') :=
      atomic_max min_neighbors (roots !!! source) e in
    if bool_decide (old_val < e)%Z then (true, min_neighbors')
    else (false, min_neighbors')
  else (false, min_neighbors).

(** [remove_ties]. *)
Definition remove_ties (min_neighbors : list Z) (e : edge_t) : bool :=
  let source := get_source_vertex G e in
  if bool_decide (e = min_neighbors !!! (roots !!! source)) then true
  else false.

(** The condition shared by [remove_dups] and [add_to_mst]:
    [source < dest || dst(mn[roots[dest]]) != source
                   || src(mn[roots[dest]]) != dest]. *)
Definition reciprocity (min_neighbors : list Z) (source dest : vertex_t)
  : bool :=
  bool_decide (source < dest)
  || bool_decide
       (get_destination_vertex G (min_neighbors !!! (roots !!! dest)) ≠ source)
  || bool_decide
       (get_source_vertex G (min_neighbors !!! (roots !!! dest)) ≠ dest).

(** [remove_dups]. *)
Definition remove_dups (min_neighbors : list Z) (e : edge_t) : bool :=
  let source := get_source_vertex G e in
  let dest := get_destination_vertex G e in
  if reciprocity min_neighbors source dest then true else false.
End lambdas.

(** [add_to_mst], run once per vertex [v]; it reads [roots],
    [min_weights] and [min_neighbors] and updates the three scalars and
    [new_roots]. *)
Definition add_to_mst (P : problem_t) (v : vertex_t) : problem_t :=
  let G := g P in
  if bool_decide (min_weights P !!! v ≠ weight_max) then
    let source := get_source_vertex G (min_neighbors P !!! v) in
    let dest := get_destination_vertex G (min_neighbors P !!! v) in
    let weight := min_weights P !!! v in
    if reciprocity G (roots P) (min_neighbors P) source dest then
      let '(_, mst_weight') := atomic_add_float (mst_weight P) 0 weight in
      let '(_, mst_edges') := atomic_add (mst_edges P) 0 1%Z in
      let '(_, super_vertices') := atomic_add (super_vertices P) 0 (-1)%Z in
      let '(_, new_roots') :=
        atomicExch (new_roots P) v (new_roots P !!! dest) in
      {| g := G;
         n_vertices := n_vertices P;
         mst_weight := mst_weight';
         roots := roots P;
         new_roots := new_roots';
         min_weights := min_weights P;
         mst_edges := mst_edges';
         super_vertices := super_vertices';
         min_neighbors := min_neighbors P |}
    else P
  else P.

(** The [while (roots[u] != u) u = roots[u];] loop of
    [jump_pointers_parallel], with fuel: [None] when the fuel runs out. *)
Fixpoint chase (roots : list vertex_t) (fuel : nat) (u : vertex_t)
  : option vertex_t :=
  match fuel with
  | O => None
  | S fuel' =>
      if bool_decide (roots !!! u ≠ u) then chase roots fuel' (roots !!! u)
      else Some u
  end.

(** [jump_pointers_parallel]: reads [roots], writes [new_roots]. *)
Definition jump_pointers_parallel (roots : list vertex_t) (fuel : nat)
    (new_roots : list vertex_t) (v : vertex_t) : option (list vertex_t) :=
  u ← chase roots fuel (roots !!! v);
  Some (<[v := u]> new_roots).

(** ** The bulk operators *)

(** Modelled from the spec: [operators::filter::execute] of the operator
    runtime calls the predicate once on every element of the input
    frontier and keeps the element when the predicate returns [true]
    (section 6: keep-if-true).  [input] lists the frontier in the order
    in which the calls take effect. *)
Fixpoint filter_execute {S} (op : S -> edge_t -> bool * S) (st : S)
    (input : list edge_t) : list edge_t * S :=
  match input with
  | [] => ([], st)
  | e :: rest =>
      let '(keep, st1) := op st e in
      let '(out, st2) := filter_execute op st1 rest in
      (if keep then e :: out else out, st2)
  end.

(** A predicate that writes nothing. *)
Definition pure_op (p : edge_t -> bool) (st : unit) (e : edge_t) : bool * unit :=
  (p e, st).

(** Modelled from the spec: [operators::parallel_for::execute] over the
    vertices applies the function to every vertex, here in the order
    [vs]. *)
Definition parallel_for {S} (f : S -> vertex_t -> S) (st : S)
    (vs : list vertex_t) : S :=
  foldl f st vs.

Fixpoint parallel_for_opt {S} (f : S -> vertex_t -> option S) (st : S)
    (vs : list vertex_t) : option S :=
  match vs with
  | [] => Some st
  | v :: rest => st1 ← f st v; parallel_for_opt f st1 rest
  end.

(** The order in which the threads of each bulk operator of one round
    take effect. *)
Record schedule := {
  relax_order : list edge_t -> list edge_t;
  select_order : list edge_t -> list edge_t;
  ties_order : list edge_t -> list edge_t;
  dups_order : list edge_t -> list edge_t;
  commit_order : list vertex_t -> list vertex_t;
  jump_order : list vertex_t -> list vertex_t
}.

Definition fair (s : schedule) : Prop :=
  (forall l, relax_order s l ≡ₚ l) /\
  (forall l, select_order s l ≡ₚ l) /\
  (forall l, ties_order s l ≡ₚ l) /\
  (forall l, dups_order s l ≡ₚ l) /\
  (forall l, commit_order s l ≡ₚ l) /\
  (forall l, jump_order s l ≡ₚ l).

(** Every operator runs its threads in the order of the frontier. *)
Definition sequential : schedule :=
  {| relax_order := id; select_order := id; ties_order := id;
     dups_order := id; commit_order := id; jump_order := id |}.

(** ** enactor_t *)

Record enactor_t := {
  problem : problem_t;
  frontier0 : list edge_t;        (* frontiers[0] *)
  frontier1 : list edge_t;        (* frontiers[1] *)
  iteration : nat
}.

(** The edge ids of a graph, [0 .. n_edges - 1]. *)
Definition all_edges (G : graph_t) : list edge_t :=
  seqZ 0 (Z.of_nat (get_number_of_edges G)).

(** [prepare_frontier]: [frontiers[0]] is the sequence of all edge ids. *)
Definition prepare_frontier (P : problem_t) : enactor_t :=
  {| problem := P;
     frontier0 := all_edges (g P);
     frontier1 := [];
     iteration := 0 |}.

(** The four filters of a round, from the reset [min_weights] and
    [min_neighbors]: the output frontier and the two arrays. *)
Definition edge_phases (s : schedule) (G : graph_t) (roots : list vertex_t)
    (min_weights0 : list weight_t) (min_neighbors0 : list Z)
    (in_frontier : list edge_t) : list edge_t * list weight_t * list Z :=
  let '(out1, min_weights) :=
    filter_execute (get_min_weights G roots) min_weights0
      (relax_order s in_frontier) in
  let '(out2, min_neighbors) :=
    filter_execute (get_min_neighbors G roots min_weights) min_neighbors0
      (select_order s out1) in
  let '(out3, _) :=
    filter_execute (pure_op (remove_ties G roots min_neighbors)) ()
      (ties_order s out2) in
  let '(out4, _) :=
    filter_execute (pure_op (remove_dups G roots min_neighbors)) ()
      (dups_order s out3) in
  (out4, min_weights, min_neighbors).

(** The first filter of a round and the second one, by themselves. *)
Definition relaxed (s : schedule) (G : graph_t) (roots : list vertex_t)
    (min_weights0 : list weight_t) (in_frontier : list edge_t)
  : list edge_t * list weight_t :=
  filter_execute (get_min_weights G roots) min_weights0
    (relax_order s in_frontier).

Definition selected (s : schedule) (G : graph_t) (roots : list vertex_t)
    (min_weights0 : list weight_t) (min_neighbors0 : list Z)
    (in_frontier : list edge_t) : list edge_t * list Z :=
  filter_execute
    (get_min_neighbors G roots (relaxed s G roots min_weights0 in_frontier).2)
    min_neighbors0
    (select_order s (relaxed s G roots min_weights0 in_frontier).1).

Definition set_scratch (P : problem_t) (mw : list weight_t) (mn : list Z)
  : problem_t :=
  {| g := g P; n_vertices := n_vertices P; mst_weight := mst_weight P;
     roots := roots P; new_roots := new_roots P; min_weights := mw;
     mst_edges := mst_edges P; super_vertices := super_vertices P;
     min_neighbors := mn |}.

Definition set_roots (P : problem_t) (r nr : list vertex_t) : problem_t :=
  {| g := g P; n_vertices := n_vertices P; mst_weight := mst_weight P;
     roots := r; new_roots := nr; min_weights := min_weights P;
     mst_edges := mst_edges P; super_vertices := super_vertices P;
     min_neighbors := min_neighbors P |}.

(** The round up to and including the commit: reset of the scratch
    arrays, the four filters, [add_to_mst] on every vertex. *)
Definition loop_commit (s : schedule) (E : enactor_t)
  : list edge_t * problem_t :=
  let P := problem E in
  let G := g P in
  let min_weights0 := fill_n (min_weights P) (n_vertices P) weight_max in
  let min_neighbors0 := fill_n (min_neighbors P) (n_vertices P) (-1)%Z in
  let '(out, min_weights, min_neighbors) :=
    edge_phases s G (roots P) min_weights0 min_neighbors0 (frontier0 E) in
  (out,
   parallel_for add_to_mst (set_scratch P min_weights min_neighbors)
     (commit_order s (seq 0 (get_number_of_vertices G)))).

(** Pointer jumping on every vertex of the graph followed by the copy of
    [new_roots] into [roots]: the last two statements of [loop]. *)
Definition contract (fuel : nat) (s : schedule) (nG n : nat)
    (roots new_roots : list vertex_t)
  : option (list vertex_t * list vertex_t) :=
  new_roots' ← parallel_for_opt (jump_pointers_parallel roots fuel)
                 new_roots (jump_order s (seq 0 nG));
  Some (copy_n new_roots' n roots, new_roots').

(** The end of the round: [copy_n], pointer jumping on every vertex,
    [copy_n]. *)
Definition loop_contract (fuel : nat) (s : schedule) (P : problem_t)
  : option problem_t :=
  let roots1 := copy_n (new_roots P) (n_vertices P) (roots P) in
  r ← contract fuel s (get_number_of_vertices (g P)) (n_vertices P)
        roots1 (new_roots P);
  Some (set_roots P r.1 r.2).

(** [enactor_t::loop]. *)
Definition loop (fuel : nat) (s : schedule) (E : enactor_t)
  : option enactor_t :=
  let '(out, P) := loop_commit s E in
  P' ← loop_contract fuel s P;
  Some {| problem := P'; frontier0 := frontier0 E; frontier1 := out;
          iteration := iteration E |}.

(** [enactor_t::is_converged]. *)
Definition is_converged (E : enactor_t) : bool :=
  bool_decide (super_vertices (problem E) !!! 0 = 1%Z).

Definition next_iteration (E : enactor_t) : enactor_t :=
  {| problem := problem E; frontier0 := frontier0 E;
     frontier1 := frontier1 E; iteration := S (iteration E) |}.

(** Modelled from the spec: the round controller
    [gunrock::enactor_t::enact] belongs to the framework, outside
    [mst.hxx]; section 4.7 describes it: rounds repeat until
    [is_converged], and there is no iteration cap.  It is the loop
    [while (!is_converged()) { loop(); ++iteration; }]; [rounds] bounds the
    number of rounds the model follows, [None] when they run out. *)
Fixpoint enact (rounds fuel : nat) (s : nat -> schedule) (E : enactor_t)
  : option enactor_t :=
  if is_converged E then Some E
  else
    match rounds with
    | O => None
    | S rounds' =>
        E' ← loop fuel (s (iteration E)) E;
        enact rounds' fuel s (next_iteration E')
    end.

(** [run]: construct the problem, [init], [prepare_frontier], [enact]. *)
Definition run (rounds fuel : nat) (s : nat -> schedule) (G : graph_t)
    (w : weight_t) : option enactor_t :=
  enact rounds fuel s (prepare_frontier (init (problem_new G w))).

(** ** Sample inputs *)

(** A star with two equal edges out of vertex 0, stored in both
    directions: edges 0 and 1 leave vertex 0 with weight 5. *)
Definition tie_graph : graph_t :=
  graph_of_edges 3 [(0, 1, 5%Z); (0, 2, 5%Z); (1, 0, 5%Z); (2, 0, 5%Z)].

(** One undirected edge of weight -1. *)
Definition negative_graph : graph_t :=
  graph_of_edges 2 [(0, 1, (-1)%Z); (1, 0, (-1)%Z)].

(** Two disjoint triangles 0-1-2 and 3-4-5. *)
Definition two_triangles : graph_t :=
  graph_of_edges 6
    [(0, 1, 1%Z); (0, 2, 2%Z); (1, 0, 1%Z); (1, 2, 3%Z); (2, 0, 2%Z);
     (2, 1, 3%Z); (3, 4, 1%Z); (3, 5, 2%Z); (4, 3, 1%Z); (4, 5, 3%Z);
     (5, 3, 2%Z); (5, 4, 3%Z)].

(** The relaxation runs its threads in reverse order of the frontier. *)
Definition relax_reversed : schedule :=
  {| relax_order := reverse; select_order := id; ties_order := id;
     dups_order := id; commit_order := id; jump_order := id |}.

(** The enactor as [run] hands it to [enact]. *)
Definition start (G : graph_t) : enactor_t :=
  prepare_frontier (init (problem_new G 0%Z)).

(** The two triangles after their first round under [sequential]. *)
Definition two_triangles_merged : enactor_t :=
  {| problem :=
       {| g := two_triangles; n_vertices := 6; mst_weight := [6%Z];
          roots := [1; 1; 1; 4; 4; 4]; new_roots := [1; 1; 1; 4; 4; 4];
          min_weights := [1%Z; 1%Z; 2%Z; 1%Z; 1%Z; 2%Z];
          mst_edges := [4%Z]; super_vertices := [2%Z];
          min_neighbors := [0%Z; 2%Z; 4%Z; 6%Z; 8%Z; 10%Z] |};
     frontier0 := all_edges two_triangles;
     frontier1 := [0%Z; 4%Z; 6%Z; 10%Z];
     iteration := 0 |}.

(** The 4-cycle 0-1-2-3 with weights 1, 2, 3, 4. *)
Definition cycle4 : graph_t :=
  graph_of_edges 4
    [(0, 1, 1%Z); (0, 3, 4%Z); (1, 0, 1%Z); (1, 2, 2%Z); (2, 1, 2%Z);
     (2, 3, 3%Z); (3, 0, 4%Z); (3, 2, 3%Z)].

(** A triangle whose three edges all weigh 1. *)
Definition equal_triangle : graph_t :=
  graph_of_edges 3
    [(0, 1, 1%Z); (0, 2, 1%Z); (1, 0, 1%Z); (1, 2, 1%Z); (2, 0, 1%Z);
     (2, 1, 1%Z)].

(** The relaxation runs the fourth thread before the third. *)
Definition swap34 (l : list edge_t) : list edge_t :=
  match l with
  | a :: b :: c :: d :: rest => a :: b :: d :: c :: rest
  | _ => l
  end.

Definition relax_swapped : schedule :=
  {| relax_order := swap34; select_order := id; ties_order := id;
     dups_order := id; commit_order := id; jump_order := id |}.


(** One undirected edge that weighs the sentinel. *)
Definition heavy_graph : graph_t :=
  graph_of_edges 2 [(0, 1, weight_max); (1, 0, weight_max)].

(** Two vertices and one self-loop on the first. *)
Definition self_loop_graph : graph_t := graph_of_edges 2 [(0, 0, 1%Z)].

(** The path 0-1-2 with weights 2^24 and 1. *)
Definition rounding_path : graph_t :=
  graph_of_edges 3
    [(0, 1, 16777216%Z); (1, 0, 16777216%Z); (1, 2, 1%Z); (2, 1, 1%Z)].

(** One edge, from vertex 1 to vertex 0, stored in that direction only. *)
Definition one_way_graph : graph_t := graph_of_edges 2 [(1, 0, 3%Z)].

(** * Kernel launch helpers (gunrock/cuda/detail/launch_box.hxx) *)

(** The conversions of C++ between the integer types of the kernels:
    [int], [unsigned int] and [std::size_t] (32, 32 and 64 bits). *)
Definition to_int (z : Z) : Z := ((z + 2 ^ 31) mod 2 ^ 32 - 2 ^ 31)%Z.
Definition to_uint (z : Z) : Z := (z mod 2 ^ 32)%Z.
Definition to_size_t (z : Z) : Z := (z mod 2 ^ 64)%Z.

(** What the accessors of [gunrock/cuda] return in one thread; they are
    defined outside [launch_box.hxx] and are taken as they come. *)
Record thread_t := {
  global_id : Z;    (* cuda::thread::global::id::x() *)
  block_id : Z;     (* cuda::block::id::x() *)
  block_size : Z;   (* cuda::block::size::x() *)
  grid_size : Z     (* cuda::grid::size::x() *)
}.

(** The calls [f(i, block, args...)] a thread makes, in order: the pairs
    of the first two arguments. *)
Abbreviation calls_t := (list (Z * Z)) (only parsing).

(** The [for] loop of [strided_kernel], from [int i]. *)
Fixpoint strided_loop (fuel : nat) (t : thread_t) (stride bound i : Z)
  : option calls_t :=
  match fuel with
  | O => None
  | S fuel' =>
      if bool_decide (to_size_t i < bound)%Z then
        rest ← strided_loop fuel' t stride bound (to_int (i + stride));
        Some ((i, block_id t) :: rest)
      else Some []
  end.

(** [strided_kernel] in one thread. *)
Definition strided_kernel (fuel : nat) (bound : Z) (t : thread_t)
  : option calls_t :=
  let stride := to_int (block_size t * grid_size t) in
  strided_loop fuel t stride bound (to_int (global_id t)).

(** The unrolled inner loop of [blocked_strided_kernel]:
    [f(i + (stride * j), block)] for [j = 0 .. items_per_thread - 1]. *)
Definition blocked_items (t : thread_t) (stride : Z) (items_per_thread : nat)
    (i : Z) : calls_t :=
  (fun j => (to_int (i + to_int (stride * Z.of_nat j)), block_id t))
    <$> seq 0 items_per_thread.

(** The outer [for] loop of [blocked_strided_kernel]; the step
    [i += (stride * items_per_thread)] multiplies an [int] by an
    [unsigned int] and adds the [unsigned int] product to an [int]. *)
Fixpoint blocked_loop (fuel : nat) (t : thread_t) (stride : Z)
    (items_per_thread : nat) (bound i : Z) : option calls_t :=
  match fuel with
  | O => None
  | S fuel' =>
      if bool_decide (to_size_t i < bound)%Z then
        rest ← blocked_loop fuel' t stride items_per_thread bound
                 (to_int (to_uint
                    (i + to_uint (stride * Z.of_nat items_per_thread))));
        Some (blocked_items t stride items_per_thread i ++ rest)
      else Some []
  end.

(** [blocked_strided_kernel] in one thread. *)
Definition blocked_strided_kernel (fuel : nat) (items_per_thread : nat)
    (bound : Z) (t : thread_t) : option calls_t :=
  let stride := to_int (block_size t * grid_size t) in
  blocked_loop fuel t stride items_per_thread bound (to_int (global_id t)).

(** A kernel run by the threads [ts]: the calls of all of them, thread
    after thread (any interleaving has the same calls). *)
Fixpoint launch (kernel : thread_t -> option calls_t) (ts : list thread_t)
  : option calls_t :=
  match ts with
  | [] => Some []
  | t :: ts' =>
      c ← kernel t;
      rest ← launch kernel ts';
      Some (c ++ rest)
  end.

(** The threads of a one-dimensional launch of [G] blocks of [B]
    threads: each thread sees the sizes [B] and [G], and the global ids are
    [0 .. B * G - 1], each once. *)
Definition one_dim_launch (B G : Z) (ts : list thread_t) : Prop :=
  Forall (fun t => block_size t = B /\ grid_size t = G) ts /\
  global_id <$> ts ≡ₚ seqZ 0 (B * G).

(** The threads of such a launch, block after block. *)
Definition threads (B G : Z) : list thread_t :=
  (fun i => {| global_id := i; block_id := (i / B)%Z;
               block_size := B; grid_size := G |})
    <$> seqZ 0 (B * G).

(** The second thread of the first of two blocks of two threads. *)
Definition sample_thread : thread_t :=
  {| global_id := 1; block_id := 0; block_size := 2; grid_size := 2 |}.

(** A set of launch parameters, [launch_params_base_t]. *)
Record launch_params_t := {
  sm_flags : Z;
  items_per_thread : Z;
  shared_memory_bytes : Z
}.

(** [match_launch_params_t]: the [tuple_cat] of, for every element of the
    pack, the one-element tuple when [(bool)(lp::sm_flags & SM_TARGET_FLAG)]
    and the empty tuple otherwise.  [target] is [SM_TARGET_FLAG]. *)
Definition match_launch_params_t (target : Z) (lp_v : list launch_params_t)
  : list launch_params_t :=
  concat (map (fun lp =>
                 if bool_decide (Z.land (sm_flags lp) target ≠ 0%Z)
                 then [lp] else [])
            lp_v).

(** ** Input contract *)

(** Every edge id of the graph names two vertices of the graph. *)
Definition wf_graph (G : graph_t) : Prop :=
  Forall (fun e => get_source_vertex G e < get_number_of_vertices G /\
                   get_destination_vertex G e < get_number_of_vertices G)
    (all_edges G).

(** The graph is undirected: every edge is stored in both directions
    with the same weight. *)
Definition undirected (G : graph_t) : Prop :=
  Forall (fun e =>
            Exists (fun e' => get_source_vertex G e' = get_destination_vertex G e /\
                              get_destination_vertex G e' = get_source_vertex G e /\
                              get_edge_weight G e' = get_edge_weight G e)
              (all_edges G))
    (all_edges G).

(** [roots] has one entry per vertex and every entry is a vertex. *)
Definition roots_in_range (n : nat) (roots : list vertex_t) : Prop :=
  length roots = n /\ Forall (fun r => r < n) roots.

(** The guard of [add_to_mst] on vertex [v]. *)
Definition acts (P : problem_t) (v : vertex_t) : bool :=
  bool_decide (min_weights P !!! v ≠ weight_max)
  && reciprocity (g P) (roots P) (min_neighbors P)
       (get_source_vertex (g P) (min_neighbors P !!! v))
       (get_destination_vertex (g P) (min_neighbors P !!! v)).

(** The shape of the state that [init] and [prepare_frontier] set up and
    that the rounds keep: arrays of one cell per vertex, scalars of one
    cell, roots that are vertices, all edges in [frontiers[0]]. *)
Definition wf_enactor (E : enactor_t) : Prop :=
  let P := problem E in
  let n := get_number_of_vertices (g P) in
  n_vertices P = n /\
  length (min_weights P) = n /\ length (min_neighbors P) = n /\
  roots_in_range n (new_roots P) /\
  0 < length (mst_weight P) /\ 0 < length (mst_edges P) /\
  0 < length (super_vertices P) /\
  roots_in_range n (roots P) /\
  frontier0 E = all_edges (g P) /\
  wf_graph (g P).

(** A state in which no round can make progress: no edge of the frontier
    joins two components, [roots] is flat and equal to [new_roots], and
    more or fewer than one component is counted. *)
Definition stuck (E : enactor_t) : Prop :=
  let P := problem E in
  wf_enactor E /\
  Forall (fun e => roots P !!! get_source_vertex (g P) e
                   = roots P !!! get_destination_vertex (g P) e)
    (frontier0 E) /\
  new_roots P = roots P /\
  Forall (fun r => roots P !!! r = r) (roots P) /\
  super_vertices P !!! 0 ≠ 1%Z.

(** * Properties *)

(** ** Single-precision addition *)

Lemma weight_max_lt_inf : (weight_max < weight_inf)%Z.
Proof. unfold weight_max, weight_inf. lia. Qed.

Lemma ulp_pos z : (0 < ulp z)%Z.
Proof. unfold ulp. apply Z.pow_pos_nonneg; lia. Qed.

Lemma ulp_opp z : ulp (- z) = ulp z.
Proof. unfold ulp. by rewrite Z.abs_opp. Qed.

Lemma pow2_divide (a b : Z) : (0 <= a <= b)%Z -> (2 ^ a | 2 ^ b)%Z.
Proof.
  intros H. exists (2 ^ (b - a))%Z.
  rewrite <- Z.pow_add_r by lia. f_equal. lia.
Qed.

Lemma abs_lt_pow2 z : (Z.abs z < 2 ^ (Z.log2 (Z.abs z) + 1))%Z.
Proof.
  destruct (decide (Z.abs z = 0%Z)) as [-> | Hz]; [done|].
  pose proof (Z.log2_spec (Z.abs z) ltac:(lia)). lia.
Qed.

Lemma pow2_le_abs z : z ≠ 0%Z -> (2 ^ Z.log2 (Z.abs z) <= Z.abs z)%Z.
Proof. intros Hz. pose proof (Z.log2_spec (Z.abs z) ltac:(lia)). lia. Qed.

Lemma is_float_spec z :
  is_float z = true <-> (Z.abs z <= weight_max)%Z /\ (ulp z | z)%Z.
Proof.
  unfold is_float. rewrite bool_decide_eq_true.
  pose proof (ulp_pos z). by rewrite Z.mod_divide by lia.
Qed.

Lemma is_float_opp z : is_float (- z) = is_float z.
Proof.
  apply eq_true_iff_eq. rewrite !is_float_spec, ulp_opp, Z.abs_opp.
  by rewrite Z.divide_opp_r.
Qed.

Lemma multiple_le_down u m z :
  (0 < u)%Z -> (u | m)%Z -> (m <= z)%Z -> (m <= z / u * u)%Z.
Proof.
  intros Hu [k ->] Hle.
  assert (k <= z / u)%Z by (apply Z.div_le_lower_bound; lia).
  nia.
Qed.

Lemma multiple_ge_up u m z :
  (0 < u)%Z -> (u | m)%Z -> (z <= m)%Z -> (z mod u)%Z ≠ 0%Z ->
  ((z / u + 1) * u <= m)%Z.
Proof.
  intros Hu [k ->] Hle Hr.
  pose proof (Z.div_mod z u ltac:(lia)) as Hd.
  pose proof (Z.mod_pos_bound z u Hu) as Hb.
  assert (z ≠ k * u)%Z as Hne.
  { intros ->. by rewrite Z.mod_mul in Hr by lia. }
  assert (z / u < k)%Z by (apply Z.div_lt_upper_bound; lia).
  nia.
Qed.

(** Between a float and a larger number lies a multiple of the gap at
    that number. *)
Lemma float_below f z :
  is_float f = true -> (f <= z)%Z ->
  exists m, (ulp z | m)%Z /\ (f <= m <= z)%Z.
Proof.
  intros [_ Hdiv]%is_float_spec Hle.
  destruct (decide (0 <= z)%Z) as [Hz|Hz].
  - destruct (decide (f <= 0)%Z) as [Hf|Hf].
    { exists 0%Z. split; [apply Z.divide_0_r|lia]. }
    assert (Z.log2 (Z.abs f) <= Z.log2 (Z.abs z))%Z as Hlog
      by (apply Z.log2_le_mono; lia).
    destruct (decide (Z.log2 (Z.abs f) = Z.log2 (Z.abs z))) as [Heq|Hne].
    { exists f. unfold ulp in *. rewrite <- Heq. split; [done|lia]. }
    exists (2 ^ Z.log2 (Z.abs z))%Z. split.
    + unfold ulp. apply pow2_divide.
      pose proof (Z.log2_nonneg (Z.abs z)). lia.
    + pose proof (abs_lt_pow2 f). pose proof (pow2_le_abs z ltac:(lia)).
      assert (2 ^ (Z.log2 (Z.abs f) + 1) <= 2 ^ Z.log2 (Z.abs z))%Z
        by (apply Z.pow_le_mono_r; lia).
      lia.
  - assert (Z.log2 (Z.abs z) <= Z.log2 (Z.abs f))%Z as Hlog
      by (apply Z.log2_le_mono; lia).
    destruct (decide (Z.log2 (Z.abs f) = Z.log2 (Z.abs z))) as [Heq|Hne].
    { exists f. unfold ulp in *. rewrite <- Heq. split; [done|lia]. }
    exists (- 2 ^ (Z.log2 (Z.abs z) + 1))%Z. split.
    + apply Z.divide_opp_r. unfold ulp. apply pow2_divide.
      pose proof (Z.log2_nonneg (Z.abs z)). lia.
    + pose proof (abs_lt_pow2 z). pose proof (pow2_le_abs f ltac:(lia)).
      assert (2 ^ (Z.log2 (Z.abs z) + 1) <= 2 ^ Z.log2 (Z.abs f))%Z
        by (apply Z.pow_le_mono_r; lia).
      lia.
Qed.

Lemma float_above f z :
  is_float f = true -> (z <= f)%Z ->
  exists m, (ulp z | m)%Z /\ (z <= m <= f)%Z.
Proof.
  intros Hf Hle.
  destruct (float_below (- f) (- z)) as (m & Hdiv & Hm).
  { by rewrite is_float_opp. }
  { lia. }
  exists (- m)%Z. rewrite ulp_opp in Hdiv.
  split; [by apply Z.divide_opp_r|lia].
Qed.

Lemma round_float_unfold z :
  round_float z =
  if bool_decide (weight_max < nearest z)%Z then weight_inf
  else if bool_decide (nearest z < - weight_max)%Z then (- weight_inf)%Z
  else nearest z.
Proof. reflexivity. Qed.

Lemma nearest_cases z :
  let u := ulp z in
  (nearest z = (z / u * u)%Z /\ (2 * (z mod u) <= u)%Z) \/
  (nearest z = ((z / u + 1) * u)%Z /\ (u <= 2 * (z mod u))%Z).
Proof.
  simpl. unfold nearest.
  repeat case_bool_decide; try destruct (Z.even _); lia.
Qed.

Lemma nearest_is_nearest z f :
  is_float f = true ->
  (Z.abs (nearest z - z) <= Z.abs (f - z))%Z.
Proof.
  intros Hf. pose proof (ulp_pos z) as Hu.
  pose proof (Z.div_mod z (ulp z) ltac:(lia)) as Hd.
  pose proof (Z.mod_pos_bound z (ulp z) Hu) as Hr.
  destruct (decide ((z mod ulp z)%Z = 0%Z)) as [H0|H0].
  { destruct (nearest_cases z) as [[-> _]|[_ ?]]; lia. }
  assert (f <= z -> f <= z / ulp z * ulp z)%Z as Hdown.
  { intros Hle. destruct (float_below f z Hf Hle) as (m & Hdiv & Hm).
    pose proof (multiple_le_down (ulp z) m z Hu Hdiv ltac:(lia)). lia. }
  assert (z <= f -> (z / ulp z + 1) * ulp z <= f)%Z as Hup.
  { intros Hle. destruct (float_above f z Hf Hle) as (m & Hdiv & Hm).
    pose proof (multiple_ge_up (ulp z) m z Hu Hdiv ltac:(lia) H0). lia. }
  destruct (nearest_cases z) as [[-> ?]|[-> ?]];
    destruct (decide (f <= z)%Z); lia.
Qed.

Lemma nearest_ge_float z f :
  is_float f = true -> (f <= z)%Z -> (f <= nearest z)%Z.
Proof.
  intros Hf Hle. pose proof (ulp_pos z) as Hu.
  destruct (float_below f z Hf Hle) as (m & Hdiv & Hm).
  pose proof (multiple_le_down (ulp z) m z Hu Hdiv ltac:(lia)).
  destruct (nearest_cases z) as [[-> _]|[-> _]]; lia.
Qed.

Lemma nearest_float z : is_float z = true -> nearest z = z.
Proof.
  intros [_ Hdiv]%is_float_spec. pose proof (ulp_pos z) as Hu.
  apply Z.mod_divide in Hdiv; [|lia].
  pose proof (Z.div_mod z (ulp z) ltac:(lia)) as Hd.
  unfold nearest. rewrite Hdiv, bool_decide_true by lia. lia.
Qed.

(** A multiple of the gap at [z] that is no farther from zero than the
    end of the binade of [z] is a float, unless it is beyond
    [weight_max]. *)
Lemma multiple_is_float z m :
  (ulp z | m)%Z -> (Z.abs m <= 2 ^ (Z.log2 (Z.abs z) + 1))%Z ->
  (ulp m | m)%Z.
Proof.
  intros Hdiv Hm. pose proof (Z.log2_nonneg (Z.abs z)) as HL.
  destruct (decide (m = 0%Z)) as [-> | Hm0]; [apply Z.divide_0_r|].
  destruct (decide (Z.abs m = 2 ^ (Z.log2 (Z.abs z) + 1))%Z) as [Heq|Hne].
  - apply Z.divide_abs_r. rewrite Heq. unfold ulp. rewrite Heq.
    rewrite Z.log2_pow2 by lia. apply pow2_divide. lia.
  - assert (Z.log2 (Z.abs m) <= Z.log2 (Z.abs z))%Z.
    { assert (Z.log2 (Z.abs m) < Z.log2 (Z.abs z) + 1)%Z; [|lia].
      apply Z.log2_lt_pow2; lia. }
    etrans; [|exact Hdiv]. unfold ulp.
    pose proof (Z.log2_nonneg (Z.abs m)). apply pow2_divide. lia.
Qed.

Lemma nearest_bound z :
  (ulp z | nearest z)%Z /\
  (Z.abs (nearest z) <= 2 ^ (Z.log2 (Z.abs z) + 1))%Z.
Proof.
  pose proof (ulp_pos z) as Hu.
  pose proof (Z.div_mod z (ulp z) ltac:(lia)) as Hd.
  pose proof (Z.mod_pos_bound z (ulp z) Hu) as Hr.
  pose proof (abs_lt_pow2 z) as Hlt.
  pose proof (Z.log2_nonneg (Z.abs z)) as HL.
  assert (ulp z | 2 ^ (Z.log2 (Z.abs z) + 1))%Z as Hp.
  { unfold ulp. apply pow2_divide. lia. }
  assert (- 2 ^ (Z.log2 (Z.abs z) + 1) <= z / ulp z * ulp z)%Z as Hlo.
  { apply multiple_le_down; [done|by apply Z.divide_opp_r|lia]. }
  assert (z / ulp z * ulp z <= z)%Z as Hdz by lia.
  destruct (nearest_cases z) as [[-> _]|[-> Hhalf]].
  - split; [apply Z.divide_factor_r|lia].
  - split; [apply Z.divide_factor_r|].
    assert ((z mod ulp z)%Z ≠ 0%Z) as H0 by lia.
    pose proof (multiple_ge_up (ulp z) _ z Hu Hp ltac:(lia) H0). lia.
Qed.

(** [round_float z] is a float or an infinity; when it is a float, no
    float is nearer to [z]; a float is its own rounding. *)
Lemma round_float_spec z :
  (is_float (round_float z) = true \/ Z.abs (round_float z) = weight_inf) /\
  (is_float (round_float z) = true ->
   forall f, is_float f = true ->
     (Z.abs (round_float z - z) <= Z.abs (f - z))%Z) /\
  (is_float z = true -> round_float z = z).
Proof.
  pose proof weight_max_lt_inf as Hinf.
  assert (0 < weight_inf)%Z as Hpos by (unfold weight_inf; lia).
  rewrite round_float_unfold. split; [|split].
  - repeat case_bool_decide; [right; lia|right; lia|left].
    destruct (nearest_bound z) as [Hdiv Hb].
    apply is_float_spec. split; [lia|]. by apply (multiple_is_float z).
  - repeat case_bool_decide.
    + intros [Habs _]%is_float_spec. lia.
    + intros [Habs _]%is_float_spec. lia.
    + intros _ f Hf. by apply nearest_is_nearest.
  - intros Hz. rewrite (nearest_float z Hz).
    apply is_float_spec in Hz as [Habs _].
    rewrite !bool_decide_false by lia. done.
Qed.

Lemma is_nan_false z :
  is_nan z = false -> (Z.abs z <= weight_inf)%Z.
Proof.
  unfold is_nan, is_inf. pose proof weight_max_lt_inf.
  intros [Hf|Hi%bool_decide_eq_true]%negb_false_iff%orb_true_iff.
  - apply is_float_spec in Hf. lia.
  - lia.
Qed.

Lemma weight_add_floats a b :
  is_float a = true -> is_float b = true ->
  weight_add a b = round_float (a + b).
Proof.
  intros Ha Hb. pose proof weight_max_lt_inf.
  pose proof Ha as [Ha' _]%is_float_spec.
  pose proof Hb as [Hb' _]%is_float_spec.
  unfold weight_add, is_nan, is_inf. rewrite Ha, Hb. simpl.
  by rewrite !bool_decide_false by lia.
Qed.

(** Adding a float that is not negative never lowers the sum. *)
Lemma weight_add_le a b : (0 <= b)%Z -> (a <= weight_add a b)%Z.
Proof.
  intros Hb. pose proof weight_max_lt_inf as Hinf.
  assert (weight_inf < weight_nan)%Z as Hnan
    by (unfold weight_inf, weight_nan; lia).
  unfold weight_add.
  destruct (is_nan a) eqn:Hna; [lia|].
  pose proof (is_nan_false a Hna) as Ha.
  destruct (is_nan b) eqn:Hnb; [lia|].
  destruct (is_inf a) eqn:Hia.
  { destruct (is_inf b && bool_decide (a ≠ b)); lia. }
  destruct (is_inf b) eqn:Hib.
  { apply bool_decide_eq_true in Hib. lia. }
  assert (is_float a = true) as Hfa.
  { unfold is_nan in Hna. rewrite Hia, orb_false_r in Hna.
    by apply negb_false_iff in Hna. }
  pose proof Hfa as [Habs _]%is_float_spec.
  pose proof (nearest_ge_float (a + b) a Hfa ltac:(lia)) as Hge.
  rewrite round_float_unfold. repeat case_bool_decide; lia.
Qed.

(** The sum is exact when it is a float. *)
Lemma weight_add_exact a b :
  is_float a = true -> is_float b = true -> is_float (a + b) = true ->
  weight_add a b = (a + b)%Z.
Proof.
  intros Ha Hb Hab. rewrite weight_add_floats by done.
  by apply round_float_spec.
Qed.

(** ** Thrust helpers *)

Lemma resize_length {A} (d : A) n v : length (resize d n v) = n.
Proof.
  unfold resize. rewrite length_app, length_take, length_replicate. lia.
Qed.

Lemma fill_n_all {A} (v : list A) n x :
  length v = n -> fill_n v n x = replicate n x.
Proof.
  intros <-. unfold fill_n. rewrite Nat.min_id, drop_all. apply app_nil_r.
Qed.

Lemma copy_n_all {A} (src dst : list A) n :
  length src = n -> length dst = n -> copy_n src n dst = src.
Proof.
  intros <- Hd. unfold copy_n.
  rewrite firstn_all, drop_ge by lia. apply app_nil_r.
Qed.

(** ** The filter operator *)

Lemma filter_execute_app {S} (op : S -> edge_t -> bool * S) st l1 l2 :
  filter_execute op st (l1 ++ l2) =
  ((filter_execute op st l1).1
     ++ (filter_execute op (filter_execute op st l1).2 l2).1,
   (filter_execute op (filter_execute op st l1).2 l2).2).
Proof.
  revert st. induction l1 as [|e l1 IH]; intros st; simpl.
  - by destruct (filter_execute op st l2).
  - destruct (op st e) as [keep st1]. rewrite IH.
    destruct (filter_execute op st1 l1) as [o1 s1]; simpl.
    destruct (filter_execute op s1 l2) as [o2 s2]; simpl.
    by destruct keep.
Qed.

Lemma filter_execute_split {S} (op : S -> edge_t -> bool * S) st pre e post :
  filter_execute op st (pre ++ e :: post) =
  let st1 := (filter_execute op st pre).2 in
  let keep := (op st1 e).1 in
  let st2 := (op st1 e).2 in
  ((filter_execute op st pre).1 ++ (if keep then [e] else [])
     ++ (filter_execute op st2 post).1,
   (filter_execute op st2 post).2).
Proof.
  rewrite filter_execute_app. simpl.
  destruct (op (filter_execute op st pre).2 e) as [keep st2]; simpl.
  destruct (filter_execute op st2 post) as [o3 s3]; simpl.
  by destruct keep.
Qed.

Lemma filter_execute_pure (p : edge_t -> bool) l :
  filter_execute (pure_op p) () l = (List.filter p l, ()).
Proof.
  induction l as [|e l IH]; simpl; [done|].
  rewrite IH. by destruct (p e).
Qed.

Lemma filter_execute_sub {S} (op : S -> edge_t -> bool * S) st l e :
  e ∈ (filter_execute op st l).1 -> e ∈ l.
Proof.
  revert st. induction l as [|x l IH]; intros st; simpl.
  - done.
  - destruct (op st x) as [keep st1].
    specialize (IH st1). destruct (filter_execute op st1 l) as [o s]; simpl in *.
    destruct keep.
    + intros [->|Hin]%elem_of_cons; apply elem_of_cons; [by left | right; auto].
    + intros Hin. apply elem_of_cons. right; auto.
Qed.

(** ** Lengths are preserved by the lambdas *)

Lemma get_min_weights_length G roots mw e :
  length (get_min_weights G roots mw e).2 = length mw.
Proof.
  unfold get_min_weights, atomic_min.
  case_bool_decide; simpl; [apply length_insert | done].
Qed.

Lemma get_min_neighbors_length G roots mw mn e :
  length (get_min_neighbors G roots mw mn e).2 = length mn.
Proof.
  unfold get_min_neighbors, atomic_max.
  repeat case_bool_decide; simpl; try apply length_insert; done.
Qed.

Lemma relax_length G roots mw l :
  length (filter_execute (get_min_weights G roots) mw l).2 = length mw.
Proof.
  revert mw. induction l as [|e l IH]; intros mw; simpl; [done|].
  pose proof (get_min_weights_length G roots mw e) as Hl.
  destruct (get_min_weights G roots mw e) as [keep mw1]; simpl in *.
  specialize (IH mw1).
  destruct (filter_execute (get_min_weights G roots) mw1 l); simpl in *.
  congruence.
Qed.

Lemma select_length G roots mw mn l :
  length (filter_execute (get_min_neighbors G roots mw) mn l).2 = length mn.
Proof.
  revert mn. induction l as [|e l IH]; intros mn; simpl; [done|].
  pose proof (get_min_neighbors_length G roots mw mn e) as Hl.
  destruct (get_min_neighbors G roots mw mn e) as [keep mn1]; simpl in *.
  specialize (IH mn1).
  destruct (filter_execute (get_min_neighbors G roots mw) mn1 l); simpl in *.
  congruence.
Qed.

(** ** One call of each lambda *)

Lemma get_min_weights_same G roots mw e :
  roots !!! get_source_vertex G e = roots !!! get_destination_vertex G e ->
  get_min_weights G roots mw e = (false, mw).
Proof. intros H. unfold get_min_weights. by rewrite bool_decide_false by naive_solver. Qed.

Lemma get_min_weights_diff G roots mw e :
  roots !!! get_source_vertex G e ≠ roots !!! get_destination_vertex G e ->
  get_min_weights G roots mw e =
  (bool_decide (get_edge_weight G e < mw !!! (roots !!! get_source_vertex G e))%Z,
   <[roots !!! get_source_vertex G e :=
       Z.min (mw !!! (roots !!! get_source_vertex G e)) (get_edge_weight G e)]> mw).
Proof. intros H. unfold get_min_weights, atomic_min. by rewrite bool_decide_true. Qed.

Lemma get_min_neighbors_eq G roots mw mn e :
  get_edge_weight G e = mw !!! (roots !!! get_source_vertex G e) ->
  get_min_neighbors G roots mw mn e =
  (bool_decide (mn !!! (roots !!! get_source_vertex G e) < e)%Z,
   <[roots !!! get_source_vertex G e :=
       Z.max (mn !!! (roots !!! get_source_vertex G e)) e]> mn).
Proof.
  intros H. unfold get_min_neighbors, atomic_max.
  rewrite bool_decide_true by done. by case_bool_decide.
Qed.

Lemma get_min_neighbors_ne G roots mw mn e :
  get_edge_weight G e ≠ mw !!! (roots !!! get_source_vertex G e) ->
  get_min_neighbors G roots mw mn e = (false, mn).
Proof. intros H. unfold get_min_neighbors. by rewrite bool_decide_false. Qed.

(** ** Initialisation *)

(** C7: after [init] on the freshly constructed problem, [roots] and
    [new_roots] are the identity on the vertices ([roots[v] == v],
    [new_roots[v] == v]), every [min_weights] cell holds the sentinel
    [weight_max], every [min_neighbors] cell holds [-1], and the three
    scalars are [mst_weight == 0], [mst_edges == 0] and
    [super_vertices == n_vertices]. *)
Theorem init_state (G : graph_t) (w : weight_t) :
  let P := init (problem_new G w) in
  let n := get_number_of_vertices G in
  n_vertices P = n /\
  length (roots P) = n /\ length (new_roots P) = n /\
  length (min_weights P) = n /\ length (min_neighbors P) = n /\
  (forall v, v < n ->
     roots P !!! v = v /\ new_roots P !!! v = v /\
     min_weights P !!! v = weight_max /\ min_neighbors P !!! v = (-1)%Z) /\
  mst_weight P = [0%Z] /\ mst_edges P = [0%Z] /\
  super_vertices P = [Z.of_nat n].
Proof.
  intros P n. subst P n. unfold init, problem_new; simpl.
  unfold sequence, sequenceZ, fill. rewrite !resize_length.
  rewrite !length_seq, !length_replicate.
  repeat split; try done.
  - by apply lookup_total_seq_lt.
  - by apply lookup_total_seq_lt.
  - by apply lookup_total_replicate_2.
  - by apply lookup_total_replicate_2.
Qed.

(** ** Edge relaxation *)

(** C1: in the relaxation phase, an edge [e] of the frontier whose
    endpoints have the same root is dropped and writes nothing;
    otherwise [min_weights[roots[src e]]] becomes the minimum of the value
    it held immediately before [e]'s update and [weight e], no other cell
    changes, and [e] is kept exactly when [weight e] is strictly below
    that earlier value. *)
Theorem relaxation_phase (G : graph_t) (roots : list vertex_t)
    (mw0 : list weight_t) (pre post : list edge_t) (e : edge_t) :
  let op := get_min_weights G roots in
  let c := roots !!! get_source_vertex G e in
  let d := roots !!! get_destination_vertex G e in
  let w := get_edge_weight G e in
  let mw1 := (filter_execute op mw0 pre).2 in
  c < length mw0 ->
  exists keep mw2,
    op mw1 e = (keep, mw2) /\
    filter_execute op mw0 (pre ++ e :: post) =
      ((filter_execute op mw0 pre).1 ++ (if keep then [e] else [])
         ++ (filter_execute op mw2 post).1,
       (filter_execute op mw2 post).2) /\
    (c = d -> keep = false /\ mw2 = mw1) /\
    (c ≠ d ->
       mw2 !!! c = Z.min (mw1 !!! c) w /\
       (forall j, j ≠ c -> mw2 !!! j = mw1 !!! j) /\
       (keep = true <-> (w < mw1 !!! c)%Z)).
Proof.
  intros op c d w mw1 Hc.
  exists (op mw1 e).1, (op mw1 e).2. split; [by destruct (op mw1 e)|].
  split; [apply filter_execute_split|]. split.
  - intros Hcd. subst op. rewrite get_min_weights_same by done. done.
  - intros Hcd. subst op. rewrite get_min_weights_diff by done. simpl.
    fold c w. split; [|split].
    + apply list_lookup_total_insert_eq. subst mw1.
      by rewrite relax_length.
    + intros j Hj. by apply list_lookup_total_insert_ne.
    + by rewrite bool_decide_eq_true.
Qed.

(** ** Neighbour selection *)

(** C2: in the selection phase, run on the survivors [out1] of the
    relaxation with the relaxed [min_weights], an edge [e] whose weight
    equals [min_weights[roots[src e]]] raises [min_neighbors[roots[src e]]]
    to the maximum of its value and [e] and is kept exactly when that
    strictly increased the cell; an edge of another weight is dropped and
    writes nothing. *)
Theorem selection_phase (s : schedule) (G : graph_t) (roots : list vertex_t)
    (mw0 : list weight_t) (mn0 : list Z) (frontier pre post : list edge_t)
    (e : edge_t) :
  let out1 := (relaxed s G roots mw0 frontier).1 in
  let mw := (relaxed s G roots mw0 frontier).2 in
  let op := get_min_neighbors G roots mw in
  let c := roots !!! get_source_vertex G e in
  let w := get_edge_weight G e in
  let mn1 := (filter_execute op mn0 pre).2 in
  select_order s out1 = pre ++ e :: post ->
  c < length mn0 ->
  exists keep mn2,
    op mn1 e = (keep, mn2) /\
    filter_execute op mn0 (select_order s out1) =
      ((filter_execute op mn0 pre).1 ++ (if keep then [e] else [])
         ++ (filter_execute op mn2 post).1,
       (filter_execute op mn2 post).2) /\
    (w = mw !!! c ->
       mn2 !!! c = Z.max (mn1 !!! c) e /\
       (forall j, j ≠ c -> mn2 !!! j = mn1 !!! j) /\
       (keep = true <-> (mn1 !!! c < mn2 !!! c)%Z)) /\
    (w ≠ mw !!! c -> keep = false /\ mn2 = mn1).
Proof.
  intros out1 mw op c w mn1 Hsel Hc.
  exists (op mn1 e).1, (op mn1 e).2. split; [by destruct (op mn1 e)|].
  split; [rewrite Hsel; apply filter_execute_split|].
  assert (c < length mn1) as Hc1 by (subst mn1 op; by rewrite select_length).
  split.
  - intros Hw. subst op. rewrite get_min_neighbors_eq by done. simpl.
    fold c. rewrite list_lookup_total_insert_eq by done. split; [done|split].
    + intros j Hj. by apply list_lookup_total_insert_ne.
    + rewrite bool_decide_eq_true. lia.
  - intros Hw. subst op. by rewrite get_min_neighbors_ne.
Qed.

(** ** Symmetry breaking *)

Lemma remove_ties_true G roots mn e :
  remove_ties G roots mn e = true <->
  e = mn !!! (roots !!! get_source_vertex G e).
Proof. unfold remove_ties. case_bool_decide; naive_solver. Qed.

Lemma reciprocity_true G roots mn source dest :
  reciprocity G roots mn source dest = true <->
  source < dest \/
  get_destination_vertex G (mn !!! (roots !!! dest)) ≠ source \/
  get_source_vertex G (mn !!! (roots !!! dest)) ≠ dest.
Proof.
  unfold reciprocity. rewrite !orb_true_iff, !bool_decide_eq_true. tauto.
Qed.

Lemma remove_dups_true G roots mn e :
  remove_dups G roots mn e = true <->
  get_source_vertex G e < get_destination_vertex G e \/
  get_destination_vertex G
    (mn !!! (roots !!! get_destination_vertex G e)) ≠ get_source_vertex G e \/
  get_source_vertex G
    (mn !!! (roots !!! get_destination_vertex G e)) ≠ get_destination_vertex G e.
Proof.
  unfold remove_dups. rewrite <- reciprocity_true.
  by destruct (reciprocity _ _ _ _ _).
Qed.

Lemma elem_of_filter_bool (p : edge_t -> bool) l e :
  e ∈ List.filter p l <-> e ∈ l /\ p e = true.
Proof. rewrite !list_elem_of_In. apply filter_In. Qed.

Lemma edge_phases_unfold s G roots mw0 mn0 frontier :
  let r1 := relaxed s G roots mw0 frontier in
  let r2 := selected s G roots mw0 mn0 frontier in
  edge_phases s G roots mw0 mn0 frontier =
  (List.filter (remove_dups G roots r2.2)
     (dups_order s
        (List.filter (remove_ties G roots r2.2) (ties_order s r2.1))),
   r1.2, r2.2).
Proof.
  intros r1 r2. subst r1 r2. unfold edge_phases, selected, relaxed.
  destruct (filter_execute (get_min_weights G roots) mw0 _)
    as [out1 mw]; simpl.
  destruct (filter_execute (get_min_neighbors G roots mw) mn0 _)
    as [out2 mn]; simpl.
  by rewrite !filter_execute_pure.
Qed.

(** C3: after relaxation and selection the round applies two filters in
    sequence to the selected frontier [out2]: the first keeps [e] exactly
    when [e == min_neighbors[roots[src e]]], the second keeps an edge
    [e = (s, d)] exactly when [s < d], or the destination of
    [min_neighbors[roots[d]]] is not [s], or its source is not [d]; the
    output frontier holds the edges of [out2] that pass both. *)
Theorem symmetry_breaking (s : schedule) (G : graph_t)
    (roots : list vertex_t) (mw0 : list weight_t) (mn0 : list Z)
    (frontier : list edge_t) :
  let out2 := (selected s G roots mw0 mn0 frontier).1 in
  let mn := (selected s G roots mw0 mn0 frontier).2 in
  let out4 := (edge_phases s G roots mw0 mn0 frontier).1.1 in
  fair s ->
  out4 = List.filter (remove_dups G roots mn)
           (dups_order s
              (List.filter (remove_ties G roots mn) (ties_order s out2))) /\
  (forall e, remove_ties G roots mn e = true <->
             e = mn !!! (roots !!! get_source_vertex G e)) /\
  (forall e, remove_dups G roots mn e = true <->
     get_source_vertex G e < get_destination_vertex G e \/
     get_destination_vertex G
       (mn !!! (roots !!! get_destination_vertex G e))
       ≠ get_source_vertex G e \/
     get_source_vertex G
       (mn !!! (roots !!! get_destination_vertex G e))
       ≠ get_destination_vertex G e) /\
  (forall e, e ∈ out4 <->
     e ∈ out2 /\ remove_ties G roots mn e = true /\
     remove_dups G roots mn e = true).
Proof.
  intros out2 mn out4 (_ & _ & Hties & Hdups & _).
  assert (out4 = List.filter (remove_dups G roots mn)
           (dups_order s
              (List.filter (remove_ties G roots mn) (ties_order s out2))))
    as Hout by (subst out4; by rewrite edge_phases_unfold).
  split; [done|]. split; [apply remove_ties_true|].
  split; [apply remove_dups_true|].
  intros e. rewrite Hout, elem_of_filter_bool, Hdups, elem_of_filter_bool, Hties.
  tauto.
Qed.

(** ** Commit *)


(** ** Union-find contraction *)

Lemma chase_mono roots k k' u r :
  chase roots k u = Some r -> k <= k' -> chase roots k' u = Some r.
Proof.
  revert k' u. induction k as [|k IH]; intros k' u; simpl; [done|].
  intros Hc Hk. destruct k' as [|k']; [lia|]. simpl.
  case_bool_decide; [|done]. apply IH; [done|lia].
Qed.

Lemma chase_fixed roots k u r :
  chase roots k u = Some r -> roots !!! r = r.
Proof.
  revert u. induction k as [|k IH]; intros u; simpl; [done|].
  case_bool_decide as Hu; [apply IH|].
  by intros [= <-].
Qed.

Lemma chase_at_fixed roots k u :
  roots !!! u = u -> chase roots (S k) u = Some u.
Proof. intros Hu. simpl. by rewrite bool_decide_false by naive_solver. Qed.

Lemma chase_range roots n k u r :
  (forall v, v < n -> roots !!! v < n) -> u < n ->
  chase roots k u = Some r -> r < n.
Proof.
  intros Hr. revert u. induction k as [|k IH]; intros u Hu; simpl; [done|].
  case_bool_decide; [apply IH; auto|]. by intros [= <-].
Qed.

Lemma uniform_fuel roots n :
  (forall v, v < n -> exists k, is_Some (chase roots k (roots !!! v))) ->
  exists k0, 0 < k0 /\
    forall v, v < n -> is_Some (chase roots k0 (roots !!! v)).
Proof.
  induction n as [|n IH]; intros H.
  - exists 1. split; [lia|]. intros v Hv. lia.
  - destruct IH as (k1 & Hk1 & IH); [intros v Hv; apply H; lia|].
    destruct (H n) as (k2 & r & Hc); [lia|].
    exists (k1 `max` k2). split; [lia|].
    intros v Hv. destruct (decide (v = n)) as [->|Hne].
    + exists r. eapply chase_mono; [done|lia].
    + destruct (IH v) as [r' Hr']; [lia|].
      exists r'. eapply chase_mono; [done|lia].
Qed.

Lemma jump_pointers_parallel_some roots k nr v u :
  chase roots k (roots !!! v) = Some u ->
  jump_pointers_parallel roots k nr v = Some (<[v:=u]> nr).
Proof. intros Hu. unfold jump_pointers_parallel. by rewrite Hu. Qed.

Lemma jump_all_spec roots k vs nr :
  (forall v, v ∈ vs -> is_Some (chase roots k (roots !!! v))) ->
  exists nr',
    parallel_for_opt (jump_pointers_parallel roots k) nr vs = Some nr' /\
    length nr' = length nr /\
    forall v, v < length nr ->
      nr' !! v = if decide (v ∈ vs) then chase roots k (roots !!! v)
                 else nr !! v.
Proof.
  revert nr. induction vs as [|v0 vs IH]; intros nr Hall; simpl.
  - exists nr. split; [done|]. split; [done|]. intros v Hv.
    destruct (decide (v ∈ [])) as [Hin|_]; [by apply elem_of_nil in Hin|done].
  - destruct (Hall v0) as [u Hu]; [apply elem_of_cons; by left|].
    rewrite (jump_pointers_parallel_some _ _ _ _ _ Hu). simpl.
    destruct (IH (<[v0:=u]> nr)) as (nr' & Hrun & Hlen & Hget).
    { intros v Hv. apply Hall, elem_of_cons. by right. }
    exists nr'. split; [done|]. rewrite length_insert in Hlen, Hget.
    split; [done|]. intros v Hv. rewrite (Hget v Hv).
    destruct (decide (v ∈ vs)) as [Hin|Hnin].
    + rewrite decide_True; [done|]. apply elem_of_cons. by right.
    + destruct (decide (v = v0)) as [->|Hne].
      * rewrite decide_True by (apply elem_of_cons; by left).
        by rewrite list_lookup_insert_eq.
      * rewrite decide_False.
        -- by rewrite list_lookup_insert_ne.
        -- intros [?|?]%elem_of_cons; done.
Qed.

Lemma list_eq_total `{!Inhabited A} (l1 l2 : list A) n :
  length l1 = n -> length l2 = n ->
  (forall i, i < n -> l1 !!! i = l2 !!! i) -> l1 = l2.
Proof.
  intros H1 H2 Heq. apply (list_eq_same_length _ _ n); [done..|].
  intros i x y Hi Hx Hy.
  apply list_lookup_total_correct in Hx, Hy. rewrite <- Hx, <- Hy. auto.
Qed.

Lemma roots_lt n roots v : roots_in_range n roots -> v < n -> roots !!! v < n.
Proof.
  intros [Hlen Hall] Hv.
  apply (Forall_lookup_1 _ _ v (roots !!! v)) in Hall; [done|].
  apply list_lookup_lookup_total_lt. lia.
Qed.

Lemma elem_of_perm {A} (x : A) l l' : l ≡ₚ l' -> x ∈ l -> x ∈ l'.
Proof. intros H. by rewrite H. Qed.

Lemma elem_of_seq_0 n v : v ∈ seq 0 n <-> v < n.
Proof. rewrite elem_of_seq. lia. Qed.

Lemma contract_spec k s n roots nr :
  (forall l, jump_order s l ≡ₚ l) ->
  length roots = n -> length nr = n ->
  (forall v, v < n -> is_Some (chase roots k (roots !!! v))) ->
  exists r1,
    contract k s n n roots nr = Some (r1, r1) /\
    length r1 = n /\
    forall v, v < n -> chase roots k (roots !!! v) = Some (r1 !!! v).
Proof.
  intros Hperm Hr Hnr Hall.
  destruct (jump_all_spec roots k (jump_order s (seq 0 n)) nr)
    as (r1 & Hrun & Hlen & Hget).
  { intros v Hv. apply Hall. rewrite Hperm in Hv. by apply elem_of_seq_0. }
  exists r1. unfold contract. rewrite Hrun. simpl.
  rewrite copy_n_all by congruence.
  split; [done|]. split; [congruence|].
  intros v Hv. specialize (Hget v ltac:(lia)).
  rewrite decide_True in Hget by (rewrite Hperm; by apply elem_of_seq_0).
  rewrite <- Hget. apply list_lookup_lookup_total_lt. lia.
Qed.

(** Once every vertex has its fixed point in [r1], more fuel changes
    nothing, a second contraction returns [r1] again, and [r1] is flat. *)
Lemma contract_fixed k0 s s' n roots nr r1 :
  (forall l, jump_order s l ≡ₚ l) -> (forall l, jump_order s' l ≡ₚ l) ->
  length roots = n -> length nr = n -> length r1 = n ->
  (forall v, v < n -> roots !!! v < n) ->
  (forall v, v < n -> chase roots k0 (roots !!! v) = Some (r1 !!! v)) ->
  forall k, k0 <= k ->
    contract k s n n roots nr = Some (r1, r1) /\
    contract k s' n n r1 r1 = Some (r1, r1) /\
    (forall v, v < n ->
       chase roots k (roots !!! v) = Some (r1 !!! v) /\
       roots !!! (r1 !!! v) = r1 !!! v /\
       r1 !!! (r1 !!! v) = r1 !!! v).
Proof.
  intros Hs Hs' Hr Hnr Hl1 Hin Hc1 k Hk.
  assert (forall v, v < n -> roots !!! (r1 !!! v) = r1 !!! v) as Hfix.
  { intros v Hv. eapply chase_fixed. by apply Hc1. }
  assert (forall v, v < n -> r1 !!! v < n) as Hrange.
  { intros v Hv.
    eapply chase_range; [exact Hin | apply Hin, Hv | by apply Hc1]. }
  assert (forall v, v < n -> chase roots k (roots !!! v) = Some (r1 !!! v))
    as Hck.
  { intros v Hv. eapply chase_mono; [by apply Hc1 | done]. }
  assert (0 < n -> 0 < k) as Hpos.
  { intros Hn. specialize (Hck 0 Hn). destruct k; [done|lia]. }
  assert (forall v, v < n -> r1 !!! (r1 !!! v) = r1 !!! v) as Hflat.
  { intros v Hv. pose proof (Hck (r1 !!! v) (Hrange v Hv)) as Hc.
    rewrite (Hfix v Hv) in Hc. destruct k as [|k]; [done|].
    rewrite chase_at_fixed in Hc by auto. congruence. }
  split; [|split].
  - destruct (contract_spec k s n roots nr Hs Hr Hnr)
      as (r & Hrun & Hl & Hc).
    { intros v Hv. rewrite Hck by done. eauto. }
    assert (r = r1) as ->; [|done].
    apply (list_eq_total _ _ n); [done..|].
    intros v Hv. specialize (Hc v Hv). rewrite Hck in Hc by done. congruence.
  - assert (forall v, v < n -> chase r1 k (r1 !!! v) = Some (r1 !!! v)) as Hc2.
    { intros v Hv. destruct k as [|k]; [lia|]. apply chase_at_fixed. auto. }
    destruct (contract_spec k s' n r1 r1 Hs' Hl1 Hl1) as (r & Hrun & Hl & Hc).
    { intros v Hv. rewrite Hc2 by done. eauto. }
    assert (r = r1) as ->; [|done].
    apply (list_eq_total _ _ n); [done..|].
    intros v Hv. specialize (Hc v Hv). rewrite Hc2 in Hc by done. congruence.
  - intros v Hv. auto.
Qed.

(** C5: when pointer chasing terminates from every vertex of [roots],
    contraction (pointer jumping that writes to [new_roots[v]] the fixed
    point reached from [roots[v]], then the copy of [new_roots] into
    [roots]) returns, with enough fuel, arrays [r1] in which every entry is
    that fixed point; run again on its own result, under any other
    schedule, it returns the same arrays, and [r1[r1[v]] == r1[v]] for
    every vertex. *)
Theorem contraction_idempotent (s s' : schedule) (n : nat)
    (roots new_roots : list vertex_t) :
  fair s -> fair s' ->
  length roots = n -> length new_roots = n ->
  (forall v, v < n -> roots !!! v < n) ->
  (forall v, v < n -> exists k, is_Some (chase roots k (roots !!! v))) ->
  exists k0 r1, forall k, k0 <= k ->
    contract k s n n roots new_roots = Some (r1, r1) /\
    contract k s' n n r1 r1 = Some (r1, r1) /\
    (forall v, v < n ->
       chase roots k (roots !!! v) = Some (r1 !!! v) /\
       roots !!! (r1 !!! v) = r1 !!! v /\
       r1 !!! (r1 !!! v) = r1 !!! v).
Proof.
  intros (_ & _ & _ & _ & _ & Hs) (_ & _ & _ & _ & _ & Hs') Hr Hnr Hin Hterm.
  destruct (uniform_fuel roots n Hterm) as (k0 & Hpos & Hk0).
  destruct (contract_spec k0 s n roots new_roots Hs Hr Hnr Hk0)
    as (r1 & _ & Hl1 & Hc1).
  exists k0, r1. intros k Hk.
  by apply (contract_fixed k0 s s' n roots new_roots r1).
Qed.

(** The same for the whole end of a round, [copy_n], pointer jumping,
    [copy_n]: run twice in a row it returns the same state both times. *)
Lemma loop_contract_idempotent (s s' : schedule) (P : problem_t) :
  let n := get_number_of_vertices (g P) in
  fair s -> fair s' ->
  n_vertices P = n -> length (roots P) = n ->
  roots_in_range n (new_roots P) ->
  (forall v, v < n ->
     exists k, is_Some (chase (new_roots P) k (new_roots P !!! v))) ->
  exists k0 P1, forall k, k0 <= k ->
    loop_contract k s P = Some P1 /\
    loop_contract k s' P1 = Some P1 /\
    roots P1 = new_roots P1 /\
    (forall v, v < n -> roots P1 !!! (roots P1 !!! v) = roots P1 !!! v).
Proof.
  intros n (_ & _ & _ & _ & _ & Hs) (_ & _ & _ & _ & _ & Hs') Hn Hr Hnr Hterm.
  pose proof Hnr as [Hlnr _].
  destruct (uniform_fuel _ n Hterm) as (k0 & Hpos & Hk0).
  destruct (contract_spec k0 s n _ (new_roots P) Hs Hlnr Hlnr Hk0)
    as (r1 & _ & Hl1 & Hc1).
  exists k0, (set_roots P r1 r1). intros k Hk.
  destruct (contract_fixed k0 s s' n (new_roots P) (new_roots P) r1
              Hs Hs' Hlnr Hlnr Hl1) with (k := k) as (H1 & H2 & H3);
    [intros v Hv; by apply roots_lt|done..|].
  unfold loop_contract. simpl. fold n. rewrite Hn.
  rewrite !copy_n_all by done. rewrite H1, H2. simpl.
  repeat split; try done. intros v Hv. by apply H3.
Qed.

(** ** The elected edge *)

(** After the selection phase over [L], the cell of component [c] is at
    least its initial value, at least every candidate of [c] in [L] (an
    edge of [L] with source root [c] and weight [mw[c]]), and is either
    the initial value or one of these candidates. *)
Lemma select_spec G roots mw L mn0 :
  let mn := (filter_execute (get_min_neighbors G roots mw) mn0 L).2 in
  forall c, c < length mn0 ->
    (mn0 !!! c <= mn !!! c)%Z /\
    (forall e, e ∈ L -> roots !!! get_source_vertex G e = c ->
               get_edge_weight G e = mw !!! c -> (e <= mn !!! c)%Z) /\
    (mn !!! c = mn0 !!! c \/
     (mn !!! c ∈ L /\ roots !!! get_source_vertex G (mn !!! c) = c /\
      get_edge_weight G (mn !!! c) = mw !!! c)).
Proof.
  revert mn0. induction L as [|e L IH]; intros mn0 mn c Hc.
  - subst mn; simpl. split; [lia|]. split; [|by left].
    intros e He. by apply elem_of_nil in He.
  - subst mn. simpl.
    pose proof (get_min_neighbors_length G roots mw mn0 e) as Hlen.
    destruct (decide (get_edge_weight G e
                      = mw !!! (roots !!! get_source_vertex G e))) as [Hw|Hw].
    + rewrite get_min_neighbors_eq in Hlen |- * by done. simpl in Hlen.
      set (ce := roots !!! get_source_vertex G e) in *.
      set (mn1 := <[ce:=Z.max (mn0 !!! ce) e]> mn0) in *.
      destruct (IH mn1 c ltac:(lia)) as (Hge & Hub & Hmem).
      destruct (filter_execute (get_min_neighbors G roots mw) mn1 L)
        as [out mn] eqn:Hrun; simpl in *.
      destruct (decide (c = ce)) as [->|Hne].
      * assert (mn1 !!! ce = Z.max (mn0 !!! ce) e) as H1.
        { subst mn1. by apply list_lookup_total_insert_eq. }
        rewrite H1 in Hge, Hmem. split; [lia|]. split.
        -- intros e' [->|Hin]%elem_of_cons Hr Hwe; [lia|]. by apply Hub.
        -- destruct Hmem as [Heq|(Hin & Hr & Hwe)].
           ++ destruct (Z.max_spec (mn0 !!! ce) e) as [[_ Hm]|[_ Hm]].
              ** right. assert (mn !!! ce = e) as -> by lia.
                 split; [apply elem_of_cons; by left|]. by split.
              ** left. lia.
           ++ right. split; [apply elem_of_cons; by right|]. by split.
      * assert (mn1 !!! c = mn0 !!! c) as H1.
        { subst mn1. by apply list_lookup_total_insert_ne. }
        rewrite H1 in Hge, Hmem. split; [done|]. split.
        -- intros e' [->|Hin]%elem_of_cons Hr Hwe; [by destruct Hne|].
           by apply Hub.
        -- destruct Hmem as [Heq|(Hin & Hr & Hwe)]; [by left|].
           right. split; [apply elem_of_cons; by right|]. by split.
    + rewrite get_min_neighbors_ne by done.
      destruct (IH mn0 c Hc) as (Hge & Hub & Hmem).
      destruct (filter_execute (get_min_neighbors G roots mw) mn0 L)
        as [out mn] eqn:Hrun; simpl in *.
      split; [done|]. split.
      * intros e' [->|Hin]%elem_of_cons Hr Hwe; [|by apply Hub].
        subst c. by destruct Hw.
      * destruct Hmem as [Heq|(Hin & Hr & Hwe)]; [by left|].
        right. split; [apply elem_of_cons; by right|]. by split.
Qed.

(** C6 (amended): for a fixed input frontier and fixed [min_weights], any
    two execution orders of the selection phase leave the same
    [min_neighbors]: for every component it is the larger of the cell's
    initial value and the highest edge id among the component's candidates
    in that frontier (edges of the frontier with that source root whose
    weight equals the component's [min_weights]); of two such candidates
    the lower one is never the elected edge and [remove_ties] drops it. *)
Theorem selection_deterministic (G : graph_t) (roots : list vertex_t)
    (mw : list weight_t) (mn0 : list Z) (L L' : list edge_t) :
  let mn := (filter_execute (get_min_neighbors G roots mw) mn0 L).2 in
  let mn' := (filter_execute (get_min_neighbors G roots mw) mn0 L').2 in
  L ≡ₚ L' ->
  mn = mn' /\
  (forall c, c < length mn0 ->
     (mn0 !!! c <= mn !!! c)%Z /\
     (forall e, e ∈ L -> roots !!! get_source_vertex G e = c ->
                get_edge_weight G e = mw !!! c -> (e <= mn !!! c)%Z) /\
     (mn !!! c = mn0 !!! c \/
      (mn !!! c ∈ L /\ roots !!! get_source_vertex G (mn !!! c) = c /\
       get_edge_weight G (mn !!! c) = mw !!! c))) /\
  (forall e1 e2, e1 ∈ L -> e2 ∈ L -> (e1 < e2)%Z ->
     roots !!! get_source_vertex G e1 < length mn0 ->
     roots !!! get_source_vertex G e2 = roots !!! get_source_vertex G e1 ->
     get_edge_weight G e1 = mw !!! (roots !!! get_source_vertex G e1) ->
     get_edge_weight G e2 = mw !!! (roots !!! get_source_vertex G e1) ->
     remove_ties G roots mn e1 = false).
Proof.
  intros mn mn' Hperm.
  pose proof (select_spec G roots mw L mn0) as HL.
  pose proof (select_spec G roots mw L' mn0) as HL'.
  fold mn in HL. fold mn' in HL'. simpl in HL, HL'.
  split; [|split].
  - apply (list_eq_total _ _ (length mn0)).
    + subst mn. apply select_length.
    + subst mn'. apply select_length.
    + intros c Hc.
      destruct (HL c Hc) as (Hge & Hub & Hmem).
      destruct (HL' c Hc) as (Hge' & Hub' & Hmem').
      assert (mn !!! c <= mn' !!! c)%Z.
      { destruct Hmem as [->|(Hin & Hr & Hw)]; [done|].
        apply Hub'; [by rewrite <- Hperm|done..]. }
      assert (mn' !!! c <= mn !!! c)%Z.
      { destruct Hmem' as [->|(Hin & Hr & Hw)]; [done|].
        apply Hub; [by rewrite Hperm|done..]. }
      lia.
  - exact HL.
  - intros e1 e2 H1 H2 Hlt Hc Hr2 Hw1 Hw2.
    destruct (HL _ Hc) as (_ & Hub & _).
    specialize (Hub e2 H2 Hr2 Hw2).
    destruct (remove_ties G roots mn e1) eqn:Hties; [|done].
    apply remove_ties_true in Hties. lia.
Qed.

(** ** The relaxed minimum *)

Lemma insert_lookup_cases (l : list Z) i j x :
  (i = j /\ i < length l /\ <[i:=x]> l !!! j = x) \/
  ((i ≠ j \/ length l <= i) /\ <[i:=x]> l !!! j = l !!! j).
Proof.
  destruct (decide (i = j)) as [->|Hne].
  - destruct (decide (j < length l)) as [Hlt|Hge].
    + left. by rewrite list_lookup_total_insert_eq.
    + right. split; [right; lia|]. by rewrite list_insert_ge by lia.
  - right. split; [by left|]. by apply list_lookup_total_insert_ne.
Qed.

Lemma relax_le G roots L mw0 c :
  ((filter_execute (get_min_weights G roots) mw0 L).2 !!! c <= mw0 !!! c)%Z.
Proof.
  revert mw0. induction L as [|e L IH]; intros mw0; simpl; [lia|].
  destruct (decide (roots !!! get_source_vertex G e
                    = roots !!! get_destination_vertex G e)) as [Hs|Hd].
  - rewrite get_min_weights_same by done. specialize (IH mw0).
    by destruct (filter_execute (get_min_weights G roots) mw0 L).
  - rewrite get_min_weights_diff by done.
    set (ce := roots !!! get_source_vertex G e).
    set (mw1 := <[ce:=Z.min (mw0 !!! ce) (get_edge_weight G e)]> mw0).
    specialize (IH mw1).
    destruct (filter_execute (get_min_weights G roots) mw1 L); simpl in *.
    subst mw1.
    destruct (insert_lookup_cases mw0 ce c
                (Z.min (mw0 !!! ce) (get_edge_weight G e)))
      as [(-> & _ & Hx)|(_ & Hx)]; rewrite Hx in IH; lia.
Qed.

Lemma relax_lb G roots L mw0 c e :
  c < length mw0 -> e ∈ L ->
  roots !!! get_source_vertex G e = c ->
  roots !!! get_source_vertex G e ≠ roots !!! get_destination_vertex G e ->
  ((filter_execute (get_min_weights G roots) mw0 L).2 !!! c
   <= get_edge_weight G e)%Z.
Proof.
  revert mw0. induction L as [|x L IH]; intros mw0 Hc Hin Hr Hcross.
  - by apply elem_of_nil in Hin.
  - simpl. pose proof (get_min_weights_length G roots mw0 x) as Hlen.
    destruct (get_min_weights G roots mw0 x) as [keep mw1] eqn:Hop;
      simpl in Hlen.
    apply elem_of_cons in Hin as [->|Hin].
    + rewrite get_min_weights_diff in Hop by done. injection Hop as _ <-.
      pose proof (relax_le G roots L
        (<[roots !!! get_source_vertex G x :=
             Z.min (mw0 !!! (roots !!! get_source_vertex G x))
               (get_edge_weight G x)]> mw0) c) as Hle.
      destruct (filter_execute _ _ L); simpl in *.
      rewrite Hr in Hle. rewrite list_lookup_total_insert_eq in Hle by done.
      lia.
    + specialize (IH mw1 ltac:(lia) Hin Hr Hcross).
      by destruct (filter_execute _ mw1 L).
Qed.

Lemma relax_survivor G roots L mw0 c :
  let r := filter_execute (get_min_weights G roots) mw0 L in
  r.2 !!! c = mw0 !!! c \/
  exists e, e ∈ r.1 /\ roots !!! get_source_vertex G e = c /\
            get_edge_weight G e = r.2 !!! c.
Proof.
  revert mw0. induction L as [|x L IH]; intros mw0; simpl; [by left|].
  destruct (decide (roots !!! get_source_vertex G x
                    = roots !!! get_destination_vertex G x)) as [Hs|Hd].
  - rewrite get_min_weights_same by done. specialize (IH mw0). simpl in IH.
    by destruct (filter_execute (get_min_weights G roots) mw0 L).
  - rewrite get_min_weights_diff by done.
    set (cx := roots !!! get_source_vertex G x).
    set (w := get_edge_weight G x).
    set (mw1 := <[cx:=Z.min (mw0 !!! cx) w]> mw0).
    specialize (IH mw1). simpl in IH.
    destruct (filter_execute (get_min_weights G roots) mw1 L) as [out mw];
      simpl in *.
    assert (forall e, e ∈ out ->
              e ∈ (if bool_decide (w < mw0 !!! cx)%Z then x :: out else out))
      as Hsub.
    { intros e He. case_bool_decide; [apply elem_of_cons; by right|done]. }
    destruct IH as [Heq|(e & Hin & Hr & Hw)];
      [|right; exists e; by auto].
    subst mw1.
    destruct (insert_lookup_cases mw0 cx c (Z.min (mw0 !!! cx) w))
      as [(<- & _ & Hx)|(_ & Hx)]; rewrite Hx in Heq; [|by left].
    destruct (decide (w < mw0 !!! cx)%Z) as [Hlt|Hge].
    + right. exists x. rewrite bool_decide_true by done.
      split; [apply elem_of_cons; by left|]. split; [done|]. fold w. lia.
    + left. lia.
Qed.

Lemma relax_out G roots L mw0 e :
  e ∈ (filter_execute (get_min_weights G roots) mw0 L).1 ->
  roots !!! get_source_vertex G e ≠ roots !!! get_destination_vertex G e /\
  (get_edge_weight G e < mw0 !!! (roots !!! get_source_vertex G e))%Z.
Proof.
  revert mw0. induction L as [|x L IH]; intros mw0; simpl.
  - intros Hin. by apply elem_of_nil in Hin.
  - destruct (decide (roots !!! get_source_vertex G x
                      = roots !!! get_destination_vertex G x)) as [Hs|Hd].
    + rewrite get_min_weights_same by done. specialize (IH mw0).
      by destruct (filter_execute (get_min_weights G roots) mw0 L).
    + rewrite get_min_weights_diff by done.
      set (cx := roots !!! get_source_vertex G x).
      set (w := get_edge_weight G x).
      set (mw1 := <[cx:=Z.min (mw0 !!! cx) w]> mw0).
      specialize (IH mw1).
      destruct (filter_execute (get_min_weights G roots) mw1 L) as [out mw];
        simpl in *.
      assert (e ∈ out ->
              roots !!! get_source_vertex G e
                ≠ roots !!! get_destination_vertex G e /\
              (get_edge_weight G e
               < mw0 !!! (roots !!! get_source_vertex G e))%Z) as Hrest.
      { intros Hin. destruct (IH Hin) as [Hc Hlt]. split; [done|].
        subst mw1.
        destruct (insert_lookup_cases mw0 cx
                    (roots !!! get_source_vertex G e) (Z.min (mw0 !!! cx) w))
          as [(Heq & _ & Hx)|(_ & Hx)]; rewrite Hx in Hlt; [|done].
        rewrite <- Heq. lia. }
      case_bool_decide as Hlt; [|done].
      intros [->|Hin]%elem_of_cons; [by split|auto].
Qed.

(** ** Every component with an outgoing edge elects an edge *)

Section round.
Variable s : schedule.
Variable G : graph_t.
Variable roots : list vertex_t.
Variable n : nat.
Variable frontier : list edge_t.
Hypothesis Hfair : fair s.
Hypothesis Hnonneg : forall e, e ∈ frontier -> (0 <= e)%Z.
Hypothesis Hsrc :
  forall e, e ∈ frontier -> roots !!! get_source_vertex G e < n.

Let mw0 := replicate n weight_max.
Let mn0 := replicate n (-1)%Z.
Let out1 := (relaxed s G roots mw0 frontier).1.
Let mw := (relaxed s G roots mw0 frontier).2.
Let out2 := (selected s G roots mw0 mn0 frontier).1.
Let mn := (selected s G roots mw0 mn0 frontier).2.

Lemma out1_frontier e : e ∈ out1 -> e ∈ frontier.
Proof.
  intros Hin. apply filter_execute_sub in Hin.
  destruct Hfair as (Hr & _). by rewrite Hr in Hin.
Qed.

Lemma out2_out1 e : e ∈ out2 -> e ∈ out1.
Proof.
  intros Hin. apply filter_execute_sub in Hin.
  destruct Hfair as (_ & Hs & _). by rewrite Hs in Hin.
Qed.

Lemma out1_crossing e :
  e ∈ out1 ->
  roots !!! get_source_vertex G e ≠ roots !!! get_destination_vertex G e /\
  (get_edge_weight G e < weight_max)%Z.
Proof.
  intros Hin. pose proof (Hsrc e (out1_frontier e Hin)) as Hr.
  apply relax_out in Hin as [Hc Hlt]. split; [done|].
  subst mw0. by rewrite lookup_total_replicate_2 in Hlt.
Qed.

Lemma relaxed_below c e0 :
  c < n -> e0 ∈ frontier ->
  roots !!! get_source_vertex G e0 = c ->
  roots !!! get_source_vertex G e0 ≠ roots !!! get_destination_vertex G e0 ->
  (get_edge_weight G e0 < weight_max)%Z ->
  mw !!! c ≠ weight_max.
Proof.
  intros Hc Hin Hr Hcross Hw.
  pose proof (relax_lb G roots (relax_order s frontier) mw0 c e0) as Hlb.
  fold (relaxed s G roots mw0 frontier) in Hlb. fold mw in Hlb.
  destruct Hfair as (Hperm & _).
  specialize (Hlb ltac:(subst mw0; by rewrite length_replicate)
                  ltac:(by rewrite Hperm) Hr Hcross).
  lia.
Qed.

(** The elected edge of a component whose relaxed minimum is below the
    sentinel: a survivor of the relaxation, of that component, of that
    weight. *)
Lemma elected c :
  c < n -> mw !!! c ≠ weight_max ->
  mn !!! c ∈ out1 /\
  roots !!! get_source_vertex G (mn !!! c) = c /\
  get_edge_weight G (mn !!! c) = mw !!! c.
Proof.
  intros Hc Hmw.
  destruct (relax_survivor G roots (relax_order s frontier) mw0 c)
    as [Heq|(e & Hin & Hr & Hw)].
  { fold (relaxed s G roots mw0 frontier) in Heq. fold mw in Heq.
    subst mw0. by rewrite lookup_total_replicate_2 in Heq. }
  fold (relaxed s G roots mw0 frontier) in Hin, Hw. fold out1 in Hin.
  fold mw in Hw.
  destruct Hfair as (_ & Hsel & _).
  destruct (select_spec G roots mw (select_order s out1) mn0 c)
    as (Hge & Hub & Hmem); [subst mn0; by rewrite length_replicate|].
  fold (selected s G roots mw0 mn0 frontier) in Hge, Hub, Hmem.
  fold mn in Hge, Hub, Hmem.
  specialize (Hub e ltac:(by rewrite Hsel) Hr Hw).
  pose proof (Hnonneg e (out1_frontier e Hin)) as H0.
  destruct Hmem as [Heq|(Hm & Hrm & Hwm)].
  - subst mn0. rewrite lookup_total_replicate_2 in Heq by done. lia.
  - split; [|by split].
    eapply elem_of_perm; [apply Hsel | exact Hm].
Qed.

End round.

(** ** Reads of the elected edge of the destination's component *)

Lemma elem_of_all_edges G e :
  e ∈ all_edges G <-> (0 <= e < Z.of_nat (get_number_of_edges G))%Z.
Proof. unfold all_edges. rewrite elem_of_seqZ. lia. Qed.

Lemma wf_graph_ends G e :
  wf_graph G -> e ∈ all_edges G ->
  get_source_vertex G e < get_number_of_vertices G /\
  get_destination_vertex G e < get_number_of_vertices G.
Proof. intros Hwf Hin. unfold wf_graph in Hwf. by rewrite Forall_forall in Hwf; apply Hwf. Qed.

Lemma undirected_back G e :
  undirected G -> e ∈ all_edges G ->
  exists e', e' ∈ all_edges G /\
    get_source_vertex G e' = get_destination_vertex G e /\
    get_destination_vertex G e' = get_source_vertex G e /\
    get_edge_weight G e' = get_edge_weight G e.
Proof.
  intros Hu Hin. unfold undirected in Hu. rewrite Forall_forall in Hu.
  specialize (Hu e Hin). by apply Exists_exists in Hu.
Qed.

Section elected_back.
Variable s : schedule.
Variable G : graph_t.
Variable roots : list vertex_t.
Hypothesis Hfair : fair s.
Hypothesis Hwf : wf_graph G.
Hypothesis Hund : undirected G.
Hypothesis Hroots : roots_in_range (get_number_of_vertices G) roots.

Let n := get_number_of_vertices G.
Let mw0 := replicate n weight_max.
Let mn0 := replicate n (-1)%Z.
Let out1 := (relaxed s G roots mw0 (all_edges G)).1.
Let mw := (relaxed s G roots mw0 (all_edges G)).2.
Let mn := (selected s G roots mw0 mn0 (all_edges G)).2.

Lemma all_edges_nonneg e : e ∈ all_edges G -> (0 <= e)%Z.
Proof. rewrite elem_of_all_edges. lia. Qed.

Lemma all_edges_src e :
  e ∈ all_edges G -> roots !!! get_source_vertex G e < n.
Proof.
  intros Hin. apply roots_lt; [done|]. by apply wf_graph_ends.
Qed.

Lemma all_edges_dst e :
  e ∈ all_edges G -> roots !!! get_destination_vertex G e < n.
Proof.
  intros Hin. apply roots_lt; [done|]. by apply wf_graph_ends.
Qed.

(** The component of the destination of a crossing edge of weight below
    the sentinel has an elected edge. *)
Lemma back_elected e :
  e ∈ all_edges G ->
  roots !!! get_source_vertex G e ≠ roots !!! get_destination_vertex G e ->
  (get_edge_weight G e < weight_max)%Z ->
  let c' := roots !!! get_destination_vertex G e in
  mw !!! c' ≠ weight_max /\ mn !!! c' ∈ all_edges G /\
  roots !!! get_source_vertex G (mn !!! c') = c' /\
  get_edge_weight G (mn !!! c') = mw !!! c'.
Proof.
  intros Hin Hcross Hw c'.
  destruct (undirected_back G e Hund Hin) as (e' & Hin' & Hs' & Hd' & Hw').
  assert (mw !!! c' ≠ weight_max) as Hmw.
  { apply (relaxed_below s G roots n (all_edges G) Hfair c' e').
    - by apply all_edges_dst.
    - done.
    - by rewrite Hs'.
    - rewrite Hs', Hd'. congruence.
    - lia. }
  split; [done|].
  destruct (elected s G roots n (all_edges G) Hfair all_edges_nonneg c')
    as (Hel & Hr & Hwe).
  - by apply all_edges_dst.
  - done.
  - split; [|by split].
    by apply (out1_frontier s G roots n (all_edges G) Hfair).
Qed.

Lemma own_elected v :
  v < n -> mw !!! v ≠ weight_max ->
  mn !!! v ∈ all_edges G /\
  roots !!! get_source_vertex G (mn !!! v) = v /\
  get_edge_weight G (mn !!! v) = mw !!! v /\
  roots !!! get_source_vertex G (mn !!! v)
    ≠ roots !!! get_destination_vertex G (mn !!! v) /\
  (get_edge_weight G (mn !!! v) < weight_max)%Z.
Proof.
  intros Hv Hmw.
  destruct (elected s G roots n (all_edges G) Hfair all_edges_nonneg
              v Hv Hmw) as (Hel & Hr & Hwe).
  destruct (out1_crossing s G roots n (all_edges G) Hfair all_edges_src
              _ Hel) as [Hc Hlt].
  split; [by apply (out1_frontier s G roots n (all_edges G) Hfair)|].
  by repeat split.
Qed.

End elected_back.

(** C10 (amended): on an undirected graph, in a round started from the reset
    scratch arrays with all edges in the frontier, whenever [remove_dups]
    (on an edge that passed [remove_ties]) or [add_to_mst] (on a vertex
    whose [min_weights] is not the sentinel) reads
    [min_neighbors[roots[dest]]], the value is an edge id of the graph and
    not [-1]: the component of the destination has an elected edge.  The
    same holds for the [min_neighbors[v]] that [add_to_mst] reads first. *)
Theorem reciprocity_reads_elected (s : schedule) (G : graph_t)
    (roots : list vertex_t) :
  let n := get_number_of_vertices G in
  let mw0 := replicate n weight_max in
  let mn0 := replicate n (-1)%Z in
  let mw := (relaxed s G roots mw0 (all_edges G)).2 in
  let out2 := (selected s G roots mw0 mn0 (all_edges G)).1 in
  let mn := (selected s G roots mw0 mn0 (all_edges G)).2 in
  let out3 := List.filter (remove_ties G roots mn) (ties_order s out2) in
  fair s -> wf_graph G -> undirected G -> roots_in_range n roots ->
  (forall e, e ∈ dups_order s out3 ->
     let dest := get_destination_vertex G e in
     mn !!! (roots !!! dest) ≠ (-1)%Z /\
     (0 <= mn !!! (roots !!! dest) < Z.of_nat (get_number_of_edges G))%Z) /\
  (forall v, v < n -> mw !!! v ≠ weight_max ->
     let dest := get_destination_vertex G (mn !!! v) in
     (0 <= mn !!! v < Z.of_nat (get_number_of_edges G))%Z /\
     mn !!! (roots !!! dest) ≠ (-1)%Z /\
     (0 <= mn !!! (roots !!! dest) < Z.of_nat (get_number_of_edges G))%Z).
Proof.
  intros n mw0 mn0 mw out2 mn out3 Hfair Hwf Hund Hroots.
  assert (forall e, e ∈ all_edges G ->
            roots !!! get_source_vertex G e
              ≠ roots !!! get_destination_vertex G e ->
            (get_edge_weight G e < weight_max)%Z ->
            mn !!! (roots !!! get_destination_vertex G e) ≠ (-1)%Z /\
            (0 <= mn !!! (roots !!! get_destination_vertex G e)
             < Z.of_nat (get_number_of_edges G))%Z) as Hback.
  { intros e Hin Hcross Hw.
    destruct (back_elected s G roots Hfair Hwf Hund Hroots e Hin Hcross Hw)
      as (_ & Hel & _).
    apply elem_of_all_edges in Hel. split; [|exact Hel].
    intros Heq. change (0 <= mn !!! (roots !!! get_destination_vertex G e)
                        < Z.of_nat (get_number_of_edges G))%Z in Hel.
    lia. }
  split.
  - intros e Hin dest.
    pose proof Hfair as (Hrel & Hsel & Hties & Hdups & Hrest).
    apply (elem_of_perm _ _ _ (Hdups _)) in Hin.
    apply elem_of_filter_bool in Hin as [Hin _].
    apply (elem_of_perm _ _ _ (Hties _)) in Hin.
    assert (forall x, x ∈ all_edges G ->
              roots !!! get_source_vertex G x < n) as Hsrc.
    { intros x Hx. by apply all_edges_src. }
    apply (out2_out1 s G roots n (all_edges G) Hfair) in Hin.
    pose proof (out1_frontier s G roots n (all_edges G) Hfair e Hin) as Hfr.
    destruct (out1_crossing s G roots n (all_edges G) Hfair Hsrc e Hin)
      as [Hcross Hw].
    by apply Hback.
  - intros v Hv Hmw dest.
    destruct (own_elected s G roots Hfair Hwf Hroots v Hv Hmw)
      as (Hin & Hr & Hwe & Hcross & Hlt).
    split; [by apply elem_of_all_edges|].
    by apply Hback.
Qed.

(** ** The scalars across a round *)

Lemma add_to_mst_unfold P v :
  add_to_mst P v =
  if acts P v then
    {| g := g P; n_vertices := n_vertices P;
       mst_weight :=
         <[0:=weight_add (mst_weight P !!! 0) (min_weights P !!! v)]>
           (mst_weight P);
       roots := roots P;
       new_roots :=
         <[v:=new_roots P !!!
                get_destination_vertex (g P) (min_neighbors P !!! v)]>
           (new_roots P);
       min_weights := min_weights P;
       mst_edges := <[0:=(mst_edges P !!! 0%nat + 1)%Z]> (mst_edges P);
       super_vertices :=
         <[0:=(super_vertices P !!! 0%nat + -1)%Z]> (super_vertices P);
       min_neighbors := min_neighbors P |}
  else P.
Proof.
  unfold add_to_mst, acts. case_bool_decide; simpl; [|done].
  by destruct (reciprocity _ _ _ _ _).
Qed.

Lemma add_to_mst_frame P v :
  let P' := add_to_mst P v in
  g P' = g P /\ n_vertices P' = n_vertices P /\ roots P' = roots P /\
  min_weights P' = min_weights P /\ min_neighbors P' = min_neighbors P /\
  length (super_vertices P') = length (super_vertices P) /\
  length (mst_weight P') = length (mst_weight P) /\
  length (mst_edges P') = length (mst_edges P) /\
  length (new_roots P') = length (new_roots P).
Proof.
  simpl. rewrite add_to_mst_unfold.
  destruct (acts P v); simpl; rewrite ?length_insert; done.
Qed.

Lemma add_to_mst_acts P v u : acts (add_to_mst P v) u = acts P u.
Proof.
  destruct (add_to_mst_frame P v) as (Hg & _ & Hr & Hw & Hn & _).
  unfold acts. by rewrite Hg, Hr, Hw, Hn.
Qed.

Lemma add_to_mst_super_vertices P v :
  0 < length (super_vertices P) ->
  super_vertices (add_to_mst P v) !!! 0 =
  (super_vertices P !!! 0%nat - (if acts P v then 1 else 0))%Z.
Proof.
  intros Hl. rewrite add_to_mst_unfold.
  destruct (acts P v); simpl; [|lia].
  rewrite list_lookup_total_insert_eq by done. lia.
Qed.

Lemma add_to_mst_mst_weight P v :
  0 < length (mst_weight P) ->
  mst_weight (add_to_mst P v) !!! 0 =
  if acts P v then weight_add (mst_weight P !!! 0) (min_weights P !!! v)
  else mst_weight P !!! 0.
Proof.
  intros Hl. rewrite add_to_mst_unfold.
  destruct (acts P v); simpl; [|done].
  by rewrite list_lookup_total_insert_eq by done.
Qed.

Lemma commit_frame P vs :
  let P' := parallel_for add_to_mst P vs in
  g P' = g P /\ n_vertices P' = n_vertices P /\ roots P' = roots P /\
  min_weights P' = min_weights P /\ min_neighbors P' = min_neighbors P /\
  length (super_vertices P') = length (super_vertices P) /\
  length (mst_weight P') = length (mst_weight P) /\
  length (mst_edges P') = length (mst_edges P) /\
  length (new_roots P') = length (new_roots P).
Proof.
  revert P. induction vs as [|v vs IH]; intros P; [done|].
  change (parallel_for add_to_mst P (v :: vs))
    with (parallel_for add_to_mst (add_to_mst P v) vs).
  pose proof (IH (add_to_mst P v)) as H1.
  pose proof (add_to_mst_frame P v) as H2. cbv zeta in *.
  destruct H1 as (? & ? & ? & ? & ? & ? & ? & ? & ?).
  destruct H2 as (? & ? & ? & ? & ? & ? & ? & ? & ?).
  repeat split; congruence.
Qed.

Lemma parallel_for_cons {S} (f : S -> vertex_t -> S) st v vs :
  parallel_for f st (v :: vs) = parallel_for f (f st v) vs.
Proof. done. Qed.

Lemma commit_super_vertices_le P vs :
  0 < length (super_vertices P) ->
  (super_vertices (parallel_for add_to_mst P vs) !!! 0%nat
   <= super_vertices P !!! 0%nat)%Z.
Proof.
  revert P. induction vs as [|v vs IH]; intros P Hl; [simpl; lia|].
  rewrite parallel_for_cons.
  destruct (add_to_mst_frame P v) as (_ & _ & _ & _ & _ & Hsv & _).
  specialize (IH (add_to_mst P v) ltac:(lia)).
  rewrite add_to_mst_super_vertices in IH by done.
  destruct (acts P v); lia.
Qed.

Lemma commit_super_vertices_lt P vs v :
  0 < length (super_vertices P) -> v ∈ vs -> acts P v = true ->
  (super_vertices (parallel_for add_to_mst P vs) !!! 0%nat
   < super_vertices P !!! 0%nat)%Z.
Proof.
  revert P. induction vs as [|x vs IH]; intros P Hl Hin Hacts.
  - by apply elem_of_nil in Hin.
  - rewrite parallel_for_cons.
    destruct (add_to_mst_frame P x) as (_ & _ & _ & _ & _ & Hsv & _).
    pose proof (add_to_mst_super_vertices P x Hl) as Hx.
    apply elem_of_cons in Hin as [->|Hin].
    + pose proof (commit_super_vertices_le (add_to_mst P x) vs
                    ltac:(lia)) as Hle.
      rewrite Hacts in Hx. lia.
    + specialize (IH (add_to_mst P x) ltac:(lia) Hin).
      rewrite add_to_mst_acts in IH. specialize (IH Hacts).
      destruct (acts P x); lia.
Qed.

Lemma commit_mst_weight_le P vs :
  0 < length (mst_weight P) ->
  (forall v, v ∈ vs -> acts P v = true -> (0 <= min_weights P !!! v)%Z) ->
  (mst_weight P !!! 0%nat
   <= mst_weight (parallel_for add_to_mst P vs) !!! 0%nat)%Z.
Proof.
  revert P. induction vs as [|x vs IH]; intros P Hl Hpos; [simpl; lia|].
  rewrite parallel_for_cons.
  destruct (add_to_mst_frame P x) as (_ & _ & _ & Hmw & _ & _ & Hlw & _).
  specialize (IH (add_to_mst P x) ltac:(lia)).
  rewrite add_to_mst_mst_weight in IH by done.
  assert (mst_weight P !!! 0%nat
          <= (if acts P x
              then weight_add (mst_weight P !!! 0%nat) (min_weights P !!! x)
              else mst_weight P !!! 0%nat))%Z as H0.
  { destruct (acts P x) eqn:Hx; [|lia].
    apply weight_add_le, Hpos; [apply elem_of_cons; by left|done]. }
  etrans; [exact H0|apply IH].
  intros v Hv. rewrite add_to_mst_acts, Hmw. intros Ha.
  apply Hpos; [apply elem_of_cons; by right|done].
Qed.

Lemma loop_commit_unfold s E :
  wf_enactor E ->
  let P := problem E in
  let G := g P in
  let n := get_number_of_vertices G in
  let mw0 := replicate n weight_max in
  let mn0 := replicate n (-1)%Z in
  let mw := (relaxed s G (roots P) mw0 (all_edges G)).2 in
  let mn := (selected s G (roots P) mw0 mn0 (all_edges G)).2 in
  (loop_commit s E).2 =
  parallel_for add_to_mst (set_scratch P mw mn) (commit_order s (seq 0 n)).
Proof.
  intros (Hn & Hmw & Hmn & _ & _ & _ & _ & _ & Hfr & _) P G n mw0 mn0 mw mn.
  subst P G n mw0 mn0 mw mn.
  unfold loop_commit. rewrite Hn, Hfr.
  rewrite !fill_n_all by done.
  pose proof (edge_phases_unfold s (g (problem E)) (roots (problem E))
                (replicate (get_number_of_vertices (g (problem E))) weight_max)
                (replicate (get_number_of_vertices (g (problem E))) (-1)%Z)
                (all_edges (g (problem E)))) as Hu.
  cbv zeta in Hu. by rewrite Hu.
Qed.

Lemma loop_scalars fuel s E E' :
  loop fuel s E = Some E' ->
  super_vertices (problem E') = super_vertices (loop_commit s E).2 /\
  mst_weight (problem E') = mst_weight (loop_commit s E).2 /\
  mst_edges (problem E') = mst_edges (loop_commit s E).2.
Proof.
  unfold loop. destruct (loop_commit s E) as [out P1]; simpl.
  unfold loop_contract.
  destruct (contract fuel s _ _ _ _) as [r|]; simpl; [|done].
  by intros [= <-].
Qed.

(** Some vertex commits in a round in which an edge of weight below the
    sentinel joins two components of an undirected graph. *)
Lemma some_vertex_acts s G roots e0 :
  let n := get_number_of_vertices G in
  let mw0 := replicate n weight_max in
  let mn0 := replicate n (-1)%Z in
  let mw := (relaxed s G roots mw0 (all_edges G)).2 in
  let mn := (selected s G roots mw0 mn0 (all_edges G)).2 in
  fair s -> wf_graph G -> undirected G -> roots_in_range n roots ->
  e0 ∈ all_edges G ->
  roots !!! get_source_vertex G e0 ≠ roots !!! get_destination_vertex G e0 ->
  (get_edge_weight G e0 < weight_max)%Z ->
  exists v, v < n /\ mw !!! v ≠ weight_max /\
    reciprocity G roots mn (get_source_vertex G (mn !!! v))
      (get_destination_vertex G (mn !!! v)) = true.
Proof.
  intros n mw0 mn0 mw mn Hfair Hwf Hund Hroots Hin Hcross Hw.
  set (c := roots !!! get_source_vertex G e0).
  assert (c < n) as Hc by (by apply all_edges_src).
  assert (mw !!! c ≠ weight_max) as Hmw.
  { apply (relaxed_below s G roots n (all_edges G) Hfair c e0); auto. }
  destruct (own_elected s G roots Hfair Hwf Hroots c Hc Hmw)
    as (Hel & Hr & Hwe & Hcr & Hlt).
  fold n mw0 mn0 mw mn in Hel, Hr, Hwe, Hcr, Hlt.
  set (e := mn !!! c) in *.
  destruct (reciprocity G roots mn (get_source_vertex G e)
              (get_destination_vertex G e)) eqn:Hrec.
  { exists c. by repeat split. }
  destruct (back_elected s G roots Hfair Hwf Hund Hroots e Hel Hcr Hlt)
    as (Hmw' & Hel' & Hr' & Hwe').
  fold n mw0 mn0 mw mn in Hmw', Hel', Hr', Hwe'.
  set (c' := roots !!! get_destination_vertex G e) in *.
  exists c'. split; [by apply all_edges_dst|]. split; [done|].
  unfold reciprocity in Hrec.
  apply orb_false_iff in Hrec as [Hrec H3].
  apply orb_false_iff in Hrec as [H1 H2].
  apply bool_decide_eq_false in H1, H2, H3.
  fold c' in H2, H3.
  apply dec_stable in H2, H3.
  apply reciprocity_true. left. rewrite H2, H3.
  assert (get_source_vertex G e ≠ get_destination_vertex G e)
    by (intros Heq; apply Hcr; by rewrite Heq).
  lia.
Qed.

(** C8 (amended): in every round [super_vertices] does not increase; it
    strictly decreases in every round in which some edge of weight below
    the sentinel joins two different components of an undirected graph;
    [mst_weight] does not decrease when no edge weight is negative; the
    contraction that ends the round leaves the scalars as the commit
    left them. *)
Theorem scalars_monotone (s : schedule) (E : enactor_t) :
  let P := problem E in
  let G := g P in
  let P' := (loop_commit s E).2 in
  fair s -> wf_enactor E ->
  (super_vertices P' !!! 0%nat <= super_vertices P !!! 0%nat)%Z /\
  ((forall e, e ∈ all_edges G -> (0 <= get_edge_weight G e)%Z) ->
   (mst_weight P !!! 0%nat <= mst_weight P' !!! 0%nat)%Z) /\
  (undirected G ->
   (exists e, e ∈ all_edges G /\
      roots P !!! get_source_vertex G e
        ≠ roots P !!! get_destination_vertex G e /\
      (get_edge_weight G e < weight_max)%Z) ->
   (super_vertices P' !!! 0%nat < super_vertices P !!! 0%nat)%Z) /\
  (forall fuel E', loop fuel s E = Some E' ->
     super_vertices (problem E') = super_vertices P' /\
     mst_weight (problem E') = mst_weight P' /\
     mst_edges (problem E') = mst_edges P').
Proof.
  intros P G P' Hfair Hwf.
  pose proof (loop_commit_unfold s E Hwf) as Hu. simpl in Hu.
  fold P G P' in Hu.
  destruct Hwf as (Hn & Hlmw & Hlmn & _ & Hlw & _ & Hlsv & Hroots & Hfr & Hwfg).
  fold P G in Hn, Hlmw, Hlmn, Hlw, Hlsv, Hroots, Hfr, Hwfg.
  set (n := get_number_of_vertices G) in *.
  set (mw := (relaxed s G (roots P) (replicate n weight_max) (all_edges G)).2)
    in *.
  set (mn := (selected s G (roots P) (replicate n weight_max)
                (replicate n (-1)%Z) (all_edges G)).2) in *.
  set (P1 := set_scratch P mw mn) in *.
  split; [|split; [|split]].
  - rewrite Hu. by apply (commit_super_vertices_le P1).
  - intros Hpos. rewrite Hu.
    apply (commit_mst_weight_le P1); [done|].
    intros v Hv Hacts.
    destruct Hfair as (Hrel & _ & _ & _ & Hcom & _).
    apply (elem_of_perm _ _ _ (Hcom _)), elem_of_seq_0 in Hv.
    unfold acts in Hacts. apply andb_true_iff in Hacts as [Hmw _].
    apply bool_decide_eq_true in Hmw. simpl in Hmw |- *.
    destruct (relax_survivor G (roots P) (relax_order s (all_edges G))
                (replicate n weight_max) v) as [Heq|(e & Hin & _ & Hwe)].
    + rewrite lookup_total_replicate_2 in Heq by done. by destruct Hmw.
    + fold (relaxed s G (roots P) (replicate n weight_max) (all_edges G))
        in Hin, Hwe.
      fold mw in Hwe. rewrite <- Hwe. apply Hpos.
      apply filter_execute_sub in Hin.
      by apply (elem_of_perm _ _ _ (Hrel _)) in Hin.
  - intros Hund (e0 & Hin & Hcross & Hw). rewrite Hu.
    destruct (some_vertex_acts s G (roots P) e0 Hfair Hwfg Hund Hroots
                Hin Hcross Hw) as (v & Hv & Hmw & Hrec).
    apply (commit_super_vertices_lt P1 _ v); [done| |].
    + destruct Hfair as (_ & _ & _ & _ & Hcom & _).
      apply (elem_of_perm _ (seq 0 n)); [symmetry; apply Hcom|].
      by apply elem_of_seq_0.
    + unfold acts. simpl. fold G n mw mn.
      rewrite bool_decide_true by done. exact Hrec.
  - intros fuel E' Hloop. by apply loop_scalars in Hloop.
Qed.

(** ** Rounds without progress *)

Lemma relax_none G roots mw0 L :
  Forall (fun e => roots !!! get_source_vertex G e
                   = roots !!! get_destination_vertex G e) L ->
  filter_execute (get_min_weights G roots) mw0 L = ([], mw0).
Proof.
  induction 1 as [|e L He _ IH]; simpl; [done|].
  rewrite get_min_weights_same by done. by rewrite IH.
Qed.

Lemma commit_none P vs :
  (forall v, v ∈ vs -> acts P v = false) ->
  parallel_for add_to_mst P vs = P.
Proof.
  induction vs as [|v vs IH]; intros Hall; [done|].
  rewrite parallel_for_cons, add_to_mst_unfold.
  rewrite Hall by (apply elem_of_cons; by left).
  apply IH. intros u Hu. apply Hall, elem_of_cons. by right.
Qed.

Lemma stuck_contract fuel s n roots :
  (forall l, jump_order s l ≡ₚ l) ->
  length roots = n ->
  Forall (fun r => roots !!! r = r) roots ->
  contract fuel s n n roots roots = None \/
  contract fuel s n n roots roots = Some (roots, roots).
Proof.
  intros Hperm Hlen Hflat.
  destruct (contract fuel s n n roots roots) as [r|] eqn:Hrun; [|by left].
  right. destruct fuel as [|k].
  - unfold contract in Hrun.
    destruct (jump_order s (seq 0 n)) as [|v vs] eqn:Hvs; simpl in Hrun.
    + pose proof (Hperm (seq 0 n)) as Hp. rewrite Hvs in Hp.
      apply Permutation_length in Hp. rewrite length_seq in Hp. simpl in Hp.
      subst n. destruct roots; [|done]. by injection Hrun as <-.
    + done.
  - destruct (contract_spec (S k) s n roots roots Hperm Hlen Hlen)
      as (r1 & Hr1 & Hl1 & Hc1).
    { intros v Hv. rewrite chase_at_fixed; [eauto|].
      apply (Forall_lookup_1 _ _ v (roots !!! v)) in Hflat; [done|].
      apply list_lookup_lookup_total_lt. lia. }
    rewrite Hr1 in Hrun. injection Hrun as <-.
    assert (r1 = roots) as ->; [|done].
    apply (list_eq_total _ _ n); [done..|].
    intros v Hv. specialize (Hc1 v Hv).
    rewrite chase_at_fixed in Hc1; [congruence|].
    apply (Forall_lookup_1 _ _ v (roots !!! v)) in Hflat; [done|].
    apply list_lookup_lookup_total_lt. lia.
Qed.

Lemma stuck_loop fuel s E E' :
  fair s -> stuck E -> loop fuel s E = Some E' ->
  stuck (next_iteration E').
Proof.
  intros Hfair (Hwf & Hsame & Hnr & Hflat & Hsv) Hloop.
  pose proof (loop_commit_unfold s E Hwf) as Hu. cbv zeta in Hu.
  pose proof Hwf as (Hn & Hlmw & Hlmn & Hlnr & Hlw & Hle & Hlsv & Hroots & Hfr & Hwfg).
  set (P := problem E) in *. set (G := g P) in *.
  set (n := get_number_of_vertices G) in *.
  rewrite Hfr in Hsame.
  destruct Hfair as (Hrel & Hsel & _ & _ & Hcom & Hjump).
  assert (relaxed s G (roots P) (replicate n weight_max) (all_edges G)
          = ([], replicate n weight_max)) as Hrelax.
  { unfold relaxed. apply relax_none.
    apply Forall_forall. intros e He.
    apply (elem_of_perm _ _ _ (Hrel _)) in He.
    rewrite Forall_forall in Hsame. by apply Hsame. }
  assert (selected s G (roots P) (replicate n weight_max)
            (replicate n (-1)%Z) (all_edges G)
          = ([], replicate n (-1)%Z)) as Hselect.
  { unfold selected. rewrite Hrelax. simpl.
    pose proof (Hsel []) as Hp. apply Permutation_nil_r in Hp.
    by rewrite Hp. }
  rewrite Hrelax, Hselect in Hu. simpl in Hu.
  rewrite commit_none in Hu.
  2:{ intros v Hv. apply (elem_of_perm _ _ _ (Hcom _)), elem_of_seq_0 in Hv.
      unfold acts. simpl. rewrite lookup_total_replicate_2 by done.
      by rewrite bool_decide_false by naive_solver. }
  unfold loop in Hloop.
  destruct (loop_commit s E) as [out P1]. simpl in Hu. subst P1.
  unfold loop_contract in Hloop. simpl in Hloop. fold P G n in Hloop.
  rewrite Hn, Hnr in Hloop.
  destruct Hroots as [Hlr Hrange].
  rewrite copy_n_all in Hloop by done.
  destruct (stuck_contract fuel s n (roots P) Hjump Hlr Hflat) as [Hc|Hc];
    rewrite Hc in Hloop; simpl in Hloop; [done|].
  injection Hloop as <-.
  unfold stuck, wf_enactor; simpl. fold P G n.
  rewrite !length_replicate.
  repeat split; try done.
  by rewrite Hfr.
Qed.

Lemma stuck_enact (s : nat -> schedule) rounds fuel E :
  (forall i, fair (s i)) -> stuck E -> enact rounds fuel s E = None.
Proof.
  intros Hfair. revert E. induction rounds as [|r IH]; intros E Hst; simpl.
  - destruct Hst as (_ & _ & _ & _ & Hsv).
    unfold is_converged. by rewrite bool_decide_false.
  - pose proof Hst as (_ & _ & _ & _ & Hsv).
    unfold is_converged. rewrite bool_decide_false by done.
    destruct (loop fuel (s (iteration E)) E) as [E'|] eqn:Hloop; simpl;
      [|done].
    apply IH. eapply stuck_loop; [apply Hfair|done..].
Qed.

Lemma enact_converged (s : nat -> schedule) rounds fuel E E' :
  enact rounds fuel s E = Some E' -> is_converged E' = true.
Proof.
  revert E. induction rounds as [|r IH]; intros E; simpl.
  - destruct (is_converged E) eqn:Hc; [|done]. by intros [= <-].
  - destruct (is_converged E) eqn:Hc; [by intros [= <-]|].
    destruct (loop fuel (s (iteration E)) E) as [E1|]; simpl; [|done].
    apply IH.
Qed.

(** C9 (amended): the source has no bound on the rounds and no error
    report.  Once no edge joins two different components while
    [super_vertices] differs from one, as on a disconnected graph after
    the merges inside its parts, a round that returns leaves such a state
    again, with [is_converged] false; so no number of rounds makes [enact]
    return, under any schedule; and what [enact] returns is always a state
    with [super_vertices == 1]. *)
Theorem disconnected_never_returns (s : nat -> schedule) (E : enactor_t) :
  (forall i, fair (s i)) -> stuck E ->
  (forall fuel E',
     loop fuel (s (iteration E)) E = Some E' ->
     stuck (next_iteration E') /\ is_converged (next_iteration E') = false) /\
  (forall rounds fuel, enact rounds fuel s E = None) /\
  (forall rounds fuel E0 E',
     enact rounds fuel s E0 = Some E' ->
     super_vertices (problem E') !!! 0 = 1%Z).
Proof.
  intros Hfair Hst. split; [|split].
  - intros fuel E' Hloop.
    pose proof (stuck_loop _ _ _ _ (Hfair _) Hst Hloop) as Hst'.
    split; [done|]. destruct Hst' as (_ & _ & _ & _ & Hsv).
    unfold is_converged. by rewrite bool_decide_false.
  - intros rounds fuel. by apply stuck_enact.
  - intros rounds fuel E0 E' Hrun. apply enact_converged in Hrun.
    unfold is_converged in Hrun. by apply bool_decide_eq_true in Hrun.
Qed.

(** ** Fuel *)

Lemma jump_pointers_parallel_mono roots k k' nr v r :
  jump_pointers_parallel roots k nr v = Some r -> k <= k' ->
  jump_pointers_parallel roots k' nr v = Some r.
Proof.
  unfold jump_pointers_parallel. intros Hrun Hk.
  destruct (chase roots k (roots !!! v)) as [u|] eqn:Hu; [|done].
  by rewrite (chase_mono _ _ _ _ _ Hu Hk).
Qed.

Lemma jump_all_mono roots k k' nr vs r :
  parallel_for_opt (jump_pointers_parallel roots k) nr vs = Some r ->
  k <= k' ->
  parallel_for_opt (jump_pointers_parallel roots k') nr vs = Some r.
Proof.
  intros Hrun Hk. revert nr Hrun.
  induction vs as [|v vs IH]; intros nr; simpl; [done|].
  destruct (jump_pointers_parallel roots k nr v) as [nr1|] eqn:Hj; simpl;
    [|done].
  rewrite (jump_pointers_parallel_mono _ _ _ _ _ _ Hj Hk). simpl. apply IH.
Qed.

Lemma loop_mono k k' s E E' :
  loop k s E = Some E' -> k <= k' -> loop k' s E = Some E'.
Proof.
  unfold loop. destruct (loop_commit s E) as [out P]; simpl.
  unfold loop_contract, contract. intros Hrun Hk.
  destruct (parallel_for_opt (jump_pointers_parallel _ k) _ _) as [nr|] eqn:Hj;
    simpl in Hrun; [|done].
  by rewrite (jump_all_mono _ _ _ _ _ _ Hj Hk).
Qed.

(** ** The shape of the state is kept by every round *)

Lemma jump_all_inv roots k nr vs nr' :
  parallel_for_opt (jump_pointers_parallel roots k) nr vs = Some nr' ->
  forall v, v ∈ vs -> is_Some (chase roots k (roots !!! v)).
Proof.
  revert nr. induction vs as [|x vs IH]; intros nr Hrun v Hin.
  - by apply elem_of_nil in Hin.
  - simpl in Hrun.
    destruct (jump_pointers_parallel roots k nr x) as [nr1|] eqn:Hj;
      simpl in Hrun; [|done].
    apply elem_of_cons in Hin as [->|Hin]; [|by eapply IH].
    unfold jump_pointers_parallel in Hj.
    destruct (chase roots k (roots !!! x)) as [u|]; [eauto|done].
Qed.

Lemma contract_range k s n roots nr r :
  (forall l, jump_order s l ≡ₚ l) ->
  roots_in_range n roots -> length nr = n ->
  contract k s n n roots nr = Some r ->
  r.1 = r.2 /\ roots_in_range n r.1.
Proof.
  intros Hperm Hroots Hnr Hrun. pose proof Hroots as [Hlen Hall].
  assert (forall v, v < n -> is_Some (chase roots k (roots !!! v))) as Hsome.
  { intros v Hv. unfold contract in Hrun.
    destruct (parallel_for_opt _ nr _) as [nr'|] eqn:Hj; [|done].
    apply (jump_all_inv _ _ _ _ _ Hj).
    apply (elem_of_perm _ (seq 0 n)); [symmetry; apply Hperm|].
    by apply elem_of_seq_0. }
  destruct (contract_spec k s n roots nr Hperm Hlen Hnr Hsome)
    as (r1 & Hr1 & Hl1 & Hc1).
  rewrite Hr1 in Hrun. injection Hrun as <-. simpl.
  split; [done|]. split; [done|].
  apply Forall_lookup. intros i x Hx.
  assert (i < n) as Hi by (rewrite <- Hl1; by eapply lookup_lt_Some).
  apply list_lookup_total_correct in Hx. subst x.
  eapply chase_range; [|apply (roots_lt n roots i Hroots Hi)|by apply Hc1].
  intros v Hv. by apply roots_lt.
Qed.

Lemma commit_new_roots_range n P vs :
  roots_in_range n (new_roots P) ->
  (forall v, v ∈ vs -> acts P v = true ->
     get_destination_vertex (g P) (min_neighbors P !!! v) < n) ->
  roots_in_range n (new_roots (parallel_for add_to_mst P vs)).
Proof.
  revert P. induction vs as [|x vs IH]; intros P Hnr Hdst; [done|].
  rewrite parallel_for_cons. apply IH.
  - rewrite add_to_mst_unfold.
    destruct (acts P x) eqn:Hx; [|done]. simpl.
    destruct Hnr as [Hlen Hall]. split; [by rewrite length_insert|].
    apply Forall_insert; [done|].
    apply roots_lt; [by split|].
    apply Hdst; [apply elem_of_cons; by left|done].
  - intros v Hv. rewrite add_to_mst_acts.
    destruct (add_to_mst_frame P x) as (Hg & _ & _ & _ & Hmn & _).
    rewrite Hg, Hmn. apply Hdst, elem_of_cons. by right.
Qed.

(** A round that returns keeps [wf_enactor]; with [start_wf] every state
    of a run has that shape. *)
Lemma loop_wf fuel s E E' :
  fair s -> wf_enactor E -> loop fuel s E = Some E' ->
  wf_enactor (next_iteration E').
Proof.
  intros Hfair Hwf Hloop.
  pose proof (loop_commit_unfold s E Hwf) as Hu. cbv zeta in Hu.
  pose proof Hwf
    as (Hn & Hlmw & Hlmn & Hnr & Hlw & Hle & Hlsv & Hroots & Hfr & Hwfg).
  set (P := problem E) in *. set (G := g P) in *.
  set (n := get_number_of_vertices G) in *.
  set (mw := (relaxed s G (roots P) (replicate n weight_max) (all_edges G)).2)
    in *.
  set (mn := (selected s G (roots P) (replicate n weight_max)
                (replicate n (-1)%Z) (all_edges G)).2) in *.
  set (P0 := set_scratch P mw mn) in *.
  set (vs := commit_order s (seq 0 n)) in *.
  pose proof (commit_frame P0 vs) as Hframe. cbv zeta in Hframe.
  assert (roots_in_range n (new_roots (parallel_for add_to_mst P0 vs)))
    as Hnr1.
  { apply commit_new_roots_range; [done|].
    intros v Hv Hacts. subst vs.
    pose proof Hfair as (_ & _ & _ & _ & Hcom & _).
    apply (elem_of_perm _ _ _ (Hcom _)), elem_of_seq_0 in Hv.
    unfold acts in Hacts. apply andb_true_iff in Hacts as [Hmw _].
    apply bool_decide_eq_true in Hmw. simpl in Hmw |- *.
    destruct (own_elected s G (roots P) Hfair Hwfg Hroots v Hv Hmw)
      as (Hel & _).
    by apply wf_graph_ends. }
  unfold loop in Hloop.
  destruct (loop_commit s E) as [out P1]. simpl in Hu. subst P1.
  set (P1 := parallel_for add_to_mst P0 vs) in *.
  destruct Hframe as (Hg1 & Hn1 & Hr1 & Hmw1 & Hmn1 & Hsv1 & Hw1 & He1 & _).
  unfold loop_contract in Hloop. rewrite Hg1, Hn1 in Hloop.
  simpl in Hloop. fold P G n in Hloop. rewrite Hn in Hloop.
  rewrite copy_n_all in Hloop;
    [|by destruct Hnr1|rewrite Hr1; by destruct Hroots].
  destruct (contract fuel s n n (new_roots P1) (new_roots P1)) as [r|] eqn:Hc;
    simpl in Hloop; [|done].
  injection Hloop as <-.
  destruct Hfair as (_ & _ & _ & _ & _ & Hjump).
  destruct (contract_range fuel s n _ _ r Hjump Hnr1
              ltac:(by destruct Hnr1) Hc) as [Heq Hrange].
  unfold wf_enactor; simpl. rewrite Hg1, Hn1, Hmw1, Hmn1, Hsv1, Hw1, He1.
  simpl. fold P G n. rewrite <- Heq.
  assert (length mw = n) as Hlmw'.
  { subst mw. unfold relaxed. rewrite relax_length. apply length_replicate. }
  assert (length mn = n) as Hlmn'.
  { subst mn. unfold selected. rewrite select_length. apply length_replicate. }
  repeat match goal with |- _ /\ _ => split end; done.
Qed.

(** ** The sample inputs *)

Lemma sequential_fair : fair sequential.
Proof. by repeat split. Qed.

Lemma relax_reversed_fair : fair relax_reversed.
Proof. repeat split; try done. intros l. apply reverse_Permutation. Qed.

Lemma tie_graph_wf : wf_graph tie_graph.
Proof. unfold wf_graph. refine (bool_decide_unpack _ _). vm_compute. exact I. Qed.

Lemma tie_graph_undirected : undirected tie_graph.
Proof. unfold undirected. refine (bool_decide_unpack _ _). vm_compute. exact I. Qed.

Lemma negative_graph_wf : wf_graph negative_graph.
Proof. unfold wf_graph. refine (bool_decide_unpack _ _). vm_compute. exact I. Qed.

Lemma two_triangles_wf : wf_graph two_triangles.
Proof. unfold wf_graph. refine (bool_decide_unpack _ _). vm_compute. exact I. Qed.

Lemma two_triangles_undirected : undirected two_triangles.
Proof. unfold undirected. refine (bool_decide_unpack _ _). vm_compute. exact I. Qed.

Lemma rounding_path_wf : wf_graph rounding_path.
Proof. unfold wf_graph. refine (bool_decide_unpack _ _). vm_compute. exact I. Qed.

Lemma one_way_graph_wf : wf_graph one_way_graph.
Proof. unfold wf_graph. refine (bool_decide_unpack _ _). vm_compute. exact I. Qed.

(** [init] and [prepare_frontier] establish [wf_enactor]. *)
Lemma start_wf G : wf_graph G -> wf_enactor (start G).
Proof.
  intros Hwf. unfold wf_enactor, start, prepare_frontier, init, problem_new.
  simpl. unfold sequence, sequenceZ, fill, roots_in_range.
  rewrite !resize_length, !length_seq, !length_replicate.
  repeat split; try done; try (simpl; lia).
  all: apply Forall_forall; intros r Hr; apply elem_of_seq in Hr; lia.
Qed.

Lemma two_triangles_first_round :
  loop 10 sequential (start two_triangles) = Some two_triangles_merged.
Proof. reflexivity. Qed.

Lemma start_two_triangles_running :
  is_converged (start two_triangles) = false.
Proof. reflexivity. Qed.

Lemma enact_O fuel s E :
  enact 0 fuel s E = if is_converged E then Some E else None.
Proof. reflexivity. Qed.

Lemma enact_S rounds fuel s E :
  enact (S rounds) fuel s E =
  if is_converged E then Some E
  else E' ← loop fuel (s (iteration E)) E;
       enact rounds fuel s (next_iteration E').
Proof. reflexivity. Qed.

Lemma two_triangles_merged_stuck : stuck (next_iteration two_triangles_merged).
Proof.
  unfold stuck, wf_enactor, roots_in_range, wf_graph. simpl.
  repeat split; try (simpl; lia);
    try (refine (bool_decide_unpack _ _); vm_compute; exact I).
Qed.

(** ** Inputs on which a claim fails *)

(** C6, as stated, fails.  On [tie_graph] edges 0 and 1 both leave
    component 0 with the minimum weight 5.  Under [sequential] edge 0
    relaxes first and survives, edge 1 is not strictly below 5 and is
    dropped before the selection, so the elected edge of component 0 is
    edge 0, the lower id; with the relaxation reversed it is edge 1. *)
Lemma tie_break_follows_relaxation_order :
  ~ (forall (s : schedule) (G : graph_t) (e1 e2 : edge_t),
       fair s -> wf_graph G -> undirected G ->
       e1 ∈ all_edges G -> e2 ∈ all_edges G -> (e1 < e2)%Z ->
       let P' := (loop_commit s (start G)).2 in
       let c := roots P' !!! get_source_vertex G e1 in
       roots P' !!! get_source_vertex G e2 = c ->
       c ≠ roots P' !!! get_destination_vertex G e1 ->
       c ≠ roots P' !!! get_destination_vertex G e2 ->
       get_edge_weight G e1 = min_weights P' !!! c ->
       get_edge_weight G e2 = min_weights P' !!! c ->
       min_neighbors P' !!! c ≠ e1) /\
  ~ (forall (s s' : schedule) (G : graph_t),
       fair s -> fair s' -> wf_graph G -> undirected G ->
       min_neighbors (loop_commit s (start G)).2
       = min_neighbors (loop_commit s' (start G)).2).
Proof.
  split.
  - intros H.
    apply (H sequential tie_graph 0%Z 1%Z sequential_fair tie_graph_wf
             tie_graph_undirected); try done.
    + by apply elem_of_all_edges.
    + by apply elem_of_all_edges.
  - intros H.
    specialize (H sequential relax_reversed tie_graph sequential_fair
                  relax_reversed_fair tie_graph_wf tie_graph_undirected).
    vm_compute in H. discriminate H.
Qed.

(** C8, as stated, fails.  On [negative_graph] the first round commits
    the edge of weight -1 and [mst_weight] goes from 0 to -1.  On the two
    triangles, once each is merged, a round commits nothing and
    [super_vertices] stays at 2 although the run has not converged. *)
Lemma scalars_not_monotone :
  ~ (forall (s : schedule) (E : enactor_t),
       fair s -> wf_enactor E ->
       (mst_weight (problem E) !!! 0%nat
        <= mst_weight (loop_commit s E).2 !!! 0%nat)%Z) /\
  ~ (forall (s : schedule) (E : enactor_t),
       fair s -> wf_enactor E -> is_converged E = false ->
       (super_vertices (loop_commit s E).2 !!! 0%nat
        < super_vertices (problem E) !!! 0%nat)%Z).
Proof.
  split.
  - intros H.
    specialize (H sequential (start negative_graph) sequential_fair
                  (start_wf _ negative_graph_wf)).
    vm_compute in H. by apply H.
  - intros H.
    destruct two_triangles_merged_stuck as (Hwf & _).
    specialize (H sequential (next_iteration two_triangles_merged)
                  sequential_fair Hwf eq_refl).
    vm_compute in H. discriminate H.
Qed.

(** C9, as stated, fails.  On the two disjoint triangles the run never
    returns, whatever the bounds on rounds and fuel: after the first round
    each triangle is one component, [super_vertices] is 2, and every later
    round leaves the state as it is.  Nothing is reported. *)
Lemma two_triangles_never_return :
  ~ (exists rounds fuel E,
       run rounds fuel (fun _ => sequential) two_triangles 0%Z = Some E).
Proof.
  intros (rounds & fuel & E & Hrun). unfold run in Hrun.
  fold (start two_triangles) in Hrun.
  destruct rounds as [|r].
  - rewrite enact_O, start_two_triangles_running in Hrun. discriminate Hrun.
  - rewrite enact_S, start_two_triangles_running in Hrun.
    destruct (loop fuel sequential (start two_triangles)) as [E'|] eqn:Hloop;
      [|discriminate Hrun].
    pose proof (loop_mono _ (fuel `max` 10) _ _ _ Hloop ltac:(lia)) as H1.
    pose proof (loop_mono _ (fuel `max` 10) _ _ _ two_triangles_first_round
                  ltac:(lia)) as H2.
    rewrite H1 in H2. injection H2 as ->.
    change (enact r fuel (fun _ => sequential)
              (next_iteration two_triangles_merged) = Some E) in Hrun.
    rewrite stuck_enact in Hrun; [discriminate Hrun| |].
    + intros _. apply sequential_fair.
    + apply two_triangles_merged_stuck.
Qed.


(** C10, as stated, fails.  [one_way_graph] stores its only edge, from
    vertex 1 to vertex 0, in one direction.  In the first round the edge
    is elected by component 1 and passes [remove_ties]; component 0 has no
    edge, so the [min_neighbors[roots[0]]] that [remove_dups] reads for
    the edge, and [add_to_mst] for vertex 1, is [-1], and the accessors are
    called with edge id [-1]. *)
Lemma reciprocity_reads_sentinel :
  ~ (forall (s : schedule) (G : graph_t) (roots : list vertex_t),
       let n := get_number_of_vertices G in
       let mw0 := replicate n weight_max in
       let mn0 := replicate n (-1)%Z in
       let out2 := (selected s G roots mw0 mn0 (all_edges G)).1 in
       let mn := (selected s G roots mw0 mn0 (all_edges G)).2 in
       let out3 := List.filter (remove_ties G roots mn) (ties_order s out2) in
       fair s -> wf_graph G -> roots_in_range n roots ->
       forall e, e ∈ dups_order s out3 ->
         mn !!! (roots !!! get_destination_vertex G e) ≠ (-1)%Z) /\
  ~ (forall (s : schedule) (G : graph_t) (roots : list vertex_t),
       let n := get_number_of_vertices G in
       let mw0 := replicate n weight_max in
       let mn0 := replicate n (-1)%Z in
       let mw := (relaxed s G roots mw0 (all_edges G)).2 in
       let mn := (selected s G roots mw0 mn0 (all_edges G)).2 in
       fair s -> wf_graph G -> roots_in_range n roots ->
       forall v, v < n -> mw !!! v ≠ weight_max ->
         mn !!! (roots !!! get_destination_vertex G (mn !!! v)) ≠ (-1)%Z).
Proof.
  assert (roots_in_range 2 (seq 0 2)) as Hroots.
  { split; [reflexivity|]. apply Forall_forall. intros r Hr.
    apply elem_of_seq in Hr. lia. }
  split.
  - intros H.
    apply (H sequential one_way_graph (seq 0 2) sequential_fair
             one_way_graph_wf Hroots 0%Z); [|by vm_compute].
    refine (bool_decide_unpack _ _). vm_compute. exact I.
  - intros H.
    apply (H sequential one_way_graph (seq 0 2) sequential_fair
             one_way_graph_wf Hroots 1); [simpl; lia|by vm_compute|by vm_compute].
Qed.

(** The run on [rounding_path] returns 16777216 for a spanning tree of
    weight 16777217. *)
Lemma rounding_path_run :
  (fun E => (mst_weight (problem E), mst_edges (problem E)))
    <$> run 3 10 (fun _ => sequential) rounding_path 0%Z
  = Some ([16777216%Z], [2%Z]).
Proof. vm_compute. reflexivity. Qed.

(** ** The theorems at sample inputs *)

Lemma relaxation_phase_witness :
  0 < length (replicate 3 weight_max) /\
  exists keep mw2,
    get_min_weights tie_graph [0; 1; 2] (replicate 3 weight_max) 0%Z
    = (keep, mw2) /\
    mw2 !!! 0 = Z.min weight_max 5 /\ keep = true.
Proof.
  split; [simpl; lia|].
  destruct (relaxation_phase tie_graph [0; 1; 2] (replicate 3 weight_max)
              [] [1%Z; 2%Z; 3%Z] 0%Z) as (keep & mw2 & Hop & _ & _ & Hd).
  { simpl; lia. }
  exists keep, mw2. split; [exact Hop|].
  destruct Hd as (Hmin & _ & Hkeep); [by vm_compute|].
  split; [exact Hmin|]. apply Hkeep. reflexivity.
Defined.

Lemma selection_phase_witness :
  select_order sequential
    (relaxed sequential tie_graph [0; 1; 2] (replicate 3 weight_max)
       (all_edges tie_graph)).1
  = [] ++ 0%Z :: [2%Z; 3%Z] /\
  0 < length (replicate 3 (-1)%Z) /\
  exists keep mn2,
    get_min_neighbors tie_graph [0; 1; 2] [5%Z; 5%Z; 5%Z]
      (replicate 3 (-1)%Z) 0%Z = (keep, mn2) /\
    mn2 !!! 0 = Z.max (-1) 0 /\ keep = true.
Proof.
  split; [reflexivity|]. split; [simpl; lia|].
  destruct (selection_phase sequential tie_graph [0; 1; 2]
              (replicate 3 weight_max) (replicate 3 (-1)%Z)
              (all_edges tie_graph) [] [2%Z; 3%Z] 0%Z)
    as (keep & mn2 & Hop & _ & He & _).
  { reflexivity. }
  { simpl; lia. }
  exists keep, mn2. split; [exact Hop|].
  destruct He as (Hmax & _ & Hkeep); [reflexivity|].
  split; [exact Hmax|]. apply Hkeep. rewrite Hmax. reflexivity.
Defined.

Lemma symmetry_breaking_witness :
  fair sequential /\
  (edge_phases sequential tie_graph [0; 1; 2] (replicate 3 weight_max)
     (replicate 3 (-1)%Z) (all_edges tie_graph)).1.1
  = List.filter (remove_dups tie_graph [0; 1; 2] [0%Z; 2%Z; 3%Z])
      (List.filter (remove_ties tie_graph [0; 1; 2] [0%Z; 2%Z; 3%Z])
         [0%Z; 2%Z; 3%Z]).
Proof.
  split; [exact sequential_fair|].
  destruct (symmetry_breaking sequential tie_graph [0; 1; 2]
              (replicate 3 weight_max) (replicate 3 (-1)%Z)
              (all_edges tie_graph) sequential_fair) as (Hout & _).
  exact Hout.
Defined.


Lemma contraction_idempotent_witness :
  fair sequential /\
  length [1; 2; 2] = 3 /\ length [0; 0; 0] = 3 /\
  (forall v, v < 3 -> [1; 2; 2] !!! v < 3) /\
  (forall v, v < 3 -> exists k, is_Some (chase [1; 2; 2] k ([1; 2; 2] !!! v))) /\
  exists k0 r1, forall k, k0 <= k ->
    contract k sequential 3 3 [1; 2; 2] [0; 0; 0] = Some (r1, r1) /\
    contract k sequential 3 3 r1 r1 = Some (r1, r1).
Proof.
  assert (forall v, v < 3 -> [1; 2; 2] !!! v < 3) as Hrange.
  { intros [|[|[|v]]] Hv; simpl; lia. }
  assert (forall v, v < 3 ->
            exists k, is_Some (chase [1; 2; 2] k ([1; 2; 2] !!! v))) as Hterm.
  { intros v Hv. exists 3.
    destruct v as [|[|[|v]]]; [by eexists..|lia]. }
  split; [exact sequential_fair|]. split; [reflexivity|].
  split; [reflexivity|]. split; [exact Hrange|]. split; [exact Hterm|].
  destruct (contraction_idempotent sequential sequential 3 [1; 2; 2]
              [0; 0; 0] sequential_fair sequential_fair eq_refl eq_refl
              Hrange Hterm) as (k0 & r1 & H).
  exists k0, r1. intros k Hk. destruct (H k Hk) as (Hc1 & Hc2 & _).
  split; [exact Hc1|exact Hc2].
Defined.

Lemma selection_deterministic_witness :
  [0%Z; 2%Z; 3%Z] ≡ₚ [3%Z; 2%Z; 0%Z] /\
  (filter_execute (get_min_neighbors tie_graph [0; 1; 2] [5%Z; 5%Z; 5%Z])
     (replicate 3 (-1)%Z) [0%Z; 2%Z; 3%Z]).2
  = (filter_execute (get_min_neighbors tie_graph [0; 1; 2] [5%Z; 5%Z; 5%Z])
       (replicate 3 (-1)%Z) [3%Z; 2%Z; 0%Z]).2.
Proof.
  assert ([0%Z; 2%Z; 3%Z] ≡ₚ [3%Z; 2%Z; 0%Z]) as Hperm.
  { change [3%Z; 2%Z; 0%Z] with (reverse [0%Z; 2%Z; 3%Z]).
    symmetry. apply reverse_Permutation. }
  split; [exact Hperm|].
  destruct (selection_deterministic tie_graph [0; 1; 2] [5%Z; 5%Z; 5%Z]
              (replicate 3 (-1)%Z) _ _ Hperm) as (Heq & _).
  exact Heq.
Defined.

Lemma scalars_monotone_witness :
  fair sequential /\ wf_enactor (start two_triangles) /\
  (super_vertices (loop_commit sequential (start two_triangles)).2 !!! 0%nat
   < super_vertices (problem (start two_triangles)) !!! 0%nat)%Z /\
  (mst_weight (problem (start two_triangles)) !!! 0%nat
   <= mst_weight (loop_commit sequential (start two_triangles)).2 !!! 0%nat)%Z.
Proof.
  pose proof (start_wf _ two_triangles_wf) as Hwf.
  split; [exact sequential_fair|]. split; [exact Hwf|].
  destruct (scalars_monotone sequential (start two_triangles)
              sequential_fair Hwf) as (_ & Hweight & Hstrict & _).
  change (g (problem (start two_triangles))) with two_triangles
    in Hweight, Hstrict.
  split.
  - apply Hstrict; [exact two_triangles_undirected|].
    exists 0%Z. split; [apply elem_of_all_edges; simpl; lia|].
    split; [vm_compute; lia|reflexivity].
  - apply Hweight. intros e He. apply elem_of_all_edges in He.
    change (get_number_of_edges two_triangles) with 12 in He.
    assert (e = 0 \/ e = 1 \/ e = 2 \/ e = 3 \/ e = 4 \/ e = 5 \/ e = 6 \/
            e = 7 \/ e = 8 \/ e = 9 \/ e = 10 \/ e = 11)%Z as Hcases by lia.
    repeat (destruct Hcases as [->|Hcases]; [vm_compute; discriminate|]).
    subst e. vm_compute; discriminate.
Defined.

Lemma disconnected_never_returns_witness :
  (forall i : nat, fair ((fun _ => sequential) i)) /\
  stuck (next_iteration two_triangles_merged) /\
  forall rounds fuel,
    enact rounds fuel (fun _ => sequential)
      (next_iteration two_triangles_merged) = None.
Proof.
  assert (forall i : nat, fair ((fun _ => sequential) i)) as Hfair.
  { intros _. exact sequential_fair. }
  split; [exact Hfair|]. split; [exact two_triangles_merged_stuck|].
  destruct (disconnected_never_returns (fun _ => sequential)
              (next_iteration two_triangles_merged) Hfair
              two_triangles_merged_stuck) as (_ & Hnone & _).
  exact Hnone.
Defined.

Lemma reciprocity_reads_elected_witness :
  fair sequential /\ wf_graph two_triangles /\ undirected two_triangles /\
  roots_in_range 6 (seq 0 6) /\
  forall e,
    e ∈ dups_order sequential
          (List.filter
             (remove_ties two_triangles (seq 0 6)
                (selected sequential two_triangles (seq 0 6)
                   (replicate 6 weight_max) (replicate 6 (-1)%Z)
                   (all_edges two_triangles)).2)
             (ties_order sequential
                (selected sequential two_triangles (seq 0 6)
                   (replicate 6 weight_max) (replicate 6 (-1)%Z)
                   (all_edges two_triangles)).1)) ->
    (selected sequential two_triangles (seq 0 6) (replicate 6 weight_max)
       (replicate 6 (-1)%Z) (all_edges two_triangles)).2
      !!! (seq 0 6 !!! get_destination_vertex two_triangles e) ≠ (-1)%Z.
Proof.
  assert (roots_in_range 6 (seq 0 6)) as Hroots.
  { split; [reflexivity|]. apply Forall_forall. intros r Hr.
    apply elem_of_seq in Hr. lia. }
  split; [exact sequential_fair|]. split; [exact two_triangles_wf|].
  split; [exact two_triangles_undirected|]. split; [exact Hroots|].
  destruct (reciprocity_reads_elected sequential two_triangles (seq 0 6)
              sequential_fair two_triangles_wf two_triangles_undirected
              Hroots) as (Hdups & _).
  intros e He. destruct (Hdups e He) as (Hne & _). exact Hne.
Defined.

(** * Further properties of [mst.hxx] *)

(** ** The two counters *)

Lemma add_to_mst_mst_edges P v :
  0 < length (mst_edges P) ->
  mst_edges (add_to_mst P v) !!! 0 =
  (mst_edges P !!! 0%nat + (if acts P v then 1 else 0))%Z.
Proof.
  intros Hl. rewrite add_to_mst_unfold.
  destruct (acts P v); simpl; [|lia].
  by rewrite list_lookup_total_insert_eq by done.
Qed.

(** The number of vertices of [vs] on which [add_to_mst] acts. *)
Lemma commit_counters P vs :
  0 < length (mst_edges P) -> 0 < length (super_vertices P) ->
  let k := Z.of_nat (length (List.filter (acts P) vs)) in
  mst_edges (parallel_for add_to_mst P vs) !!! 0
  = (mst_edges P !!! 0%nat + k)%Z /\
  super_vertices (parallel_for add_to_mst P vs) !!! 0
  = (super_vertices P !!! 0%nat - k)%Z.
Proof.
  revert P. induction vs as [|v vs IH]; intros P He Hs; [simpl; lia|].
  rewrite parallel_for_cons.
  destruct (add_to_mst_frame P v) as (_ & _ & _ & _ & _ & Hls & _ & Hle & _).
  destruct (IH (add_to_mst P v) ltac:(lia) ltac:(lia)) as [IHe IHs].
  rewrite IHe, IHs, add_to_mst_mst_edges, add_to_mst_super_vertices by done.
  assert (List.filter (acts (add_to_mst P v)) vs = List.filter (acts P) vs)
    as ->.
  { apply filter_ext. intros u. apply add_to_mst_acts. }
  simpl. destruct (acts P v); simpl length; lia.
Qed.

Lemma filter_length_perm {A} (p : A -> bool) l l' :
  l ≡ₚ l' -> length (List.filter p l) = length (List.filter p l').
Proof.
  induction 1 as [|x l l' _ IH|x y l|l l' l'' _ IH1 _ IH2]; simpl.
  - done.
  - destruct (p x); simpl; lia.
  - destruct (p x), (p y); simpl; lia.
  - lia.
Qed.

Lemma loop_commit_shape s E :
  exists mw mn vs,
    (loop_commit s E).2
    = parallel_for add_to_mst (set_scratch (problem E) mw mn) vs.
Proof.
  unfold loop_commit.
  destruct (edge_phases s (g (problem E)) (roots (problem E)) _ _ _)
    as [[out mw] mn].
  by eexists _, _, _.
Qed.

(** X1: in every round, whatever the order of the threads, [mst_edges]
    grows by exactly the number of vertices on which the guard of
    [add_to_mst] holds and [super_vertices] shrinks by the same number:
    the commit order does not matter for the two counters. *)
Theorem commit_count (s : schedule) (E : enactor_t) :
  let P := problem E in
  let n := get_number_of_vertices (g P) in
  let mw := (relaxed s (g P) (roots P) (replicate n weight_max)
               (all_edges (g P))).2 in
  let mn := (selected s (g P) (roots P) (replicate n weight_max)
               (replicate n (-1)%Z) (all_edges (g P))).2 in
  let k := Z.of_nat (length (List.filter (acts (set_scratch P mw mn))
                               (seq 0 n))) in
  let P' := (loop_commit s E).2 in
  fair s -> wf_enactor E ->
  mst_edges P' !!! 0 = (mst_edges P !!! 0%nat + k)%Z /\
  super_vertices P' !!! 0 = (super_vertices P !!! 0%nat - k)%Z.
Proof.
  intros P n mw mn k P' Hfair Hwf.
  pose proof (loop_commit_unfold s E Hwf) as Hu. cbv zeta in Hu.
  fold P n mw mn P' in Hu.
  destruct Hwf as (_ & _ & _ & _ & _ & Hle & Hls & _).
  destruct Hfair as (_ & _ & _ & _ & Hcom & _).
  destruct (commit_counters (set_scratch P mw mn) (commit_order s (seq 0 n))
              Hle Hls) as [He Hs].
  rewrite (filter_length_perm _ _ _ (Hcom (seq 0 n))) in He, Hs.
  by rewrite Hu.
Qed.

(** The sum of the two counters, with both cells allocated. *)
Lemma loop_counter_sum fuel s E E' :
  0 < length (mst_edges (problem E)) ->
  0 < length (super_vertices (problem E)) ->
  loop fuel s E = Some E' ->
  0 < length (mst_edges (problem E')) /\
  0 < length (super_vertices (problem E')) /\
  (mst_edges (problem E') !!! 0%nat + super_vertices (problem E') !!! 0%nat
   = mst_edges (problem E) !!! 0%nat + super_vertices (problem E) !!! 0%nat)%Z.
Proof.
  intros He Hs Hloop.
  destruct (loop_scalars _ _ _ _ Hloop) as (-> & _ & ->).
  destruct (loop_commit_shape s E) as (mw & mn & vs & ->).
  destruct (commit_frame (set_scratch (problem E) mw mn) vs)
    as (_ & _ & _ & _ & _ & Hls & _ & Hle & _).
  destruct (commit_counters (set_scratch (problem E) mw mn) vs He Hs)
    as [H1 H2].
  simpl in *. rewrite Hls, Hle, H1, H2. repeat split; [done..|lia].
Qed.

Lemma enact_counter_sum rounds fuel s E E' :
  0 < length (mst_edges (problem E)) ->
  0 < length (super_vertices (problem E)) ->
  enact rounds fuel s E = Some E' ->
  (mst_edges (problem E') !!! 0%nat + super_vertices (problem E') !!! 0%nat
   = mst_edges (problem E) !!! 0%nat + super_vertices (problem E) !!! 0%nat)%Z.
Proof.
  revert E. induction rounds as [|r IH]; intros E He Hs.
  - rewrite enact_O. destruct (is_converged E); [|done]. by intros [= <-].
  - rewrite enact_S. destruct (is_converged E); [by intros [= <-]|].
    destruct (loop fuel (s (iteration E)) E) as [E1|] eqn:Hloop; [|done].
    simpl. intros Hrun.
    destruct (loop_counter_sum _ _ _ _ He Hs Hloop) as (He1 & Hs1 & Hsum).
    rewrite <- Hsum. by apply (IH (next_iteration E1)).
Qed.

(** X2: a run that returns has committed exactly [n_vertices - 1] edges:
    every commit moves one unit from [super_vertices] to [mst_edges], the
    two start at [n_vertices] and [0], and [enact] returns only when
    [super_vertices] is 1.  No assumption on the graph or the schedule. *)
Theorem run_edge_count (rounds fuel : nat) (s : nat -> schedule)
    (G : graph_t) (w : weight_t) (E : enactor_t) :
  run rounds fuel s G w = Some E ->
  super_vertices (problem E) !!! 0 = 1%Z /\
  mst_edges (problem E) !!! 0 = (Z.of_nat (get_number_of_vertices G) - 1)%Z.
Proof.
  intros Hrun. unfold run in Hrun.
  pose proof (enact_converged _ _ _ _ _ Hrun) as Hc.
  unfold is_converged in Hc. apply bool_decide_eq_true in Hc.
  split; [done|].
  apply enact_counter_sum in Hrun; [|simpl; lia..].
  rewrite Hc in Hrun. simpl in Hrun. lia.
Qed.

(** ** What a component commits *)

(** X3: in a round, a component [v] whose relaxed minimum is below the
    sentinel has for elected edge an edge of the graph that leaves [v]
    (its source has root [v], its destination another root) and is a
    lightest such edge: its weight is [min_weights[v]] and no edge
    leaving [v] is lighter.  The relaxed minimum stays at the sentinel
    exactly when no edge lighter than the sentinel leaves [v]. *)
Theorem elected_is_lightest (s : schedule) (G : graph_t)
    (roots : list vertex_t) (v : vertex_t) :
  let n := get_number_of_vertices G in
  let mw := (relaxed s G roots (replicate n weight_max) (all_edges G)).2 in
  let mn := (selected s G roots (replicate n weight_max)
               (replicate n (-1)%Z) (all_edges G)).2 in
  let leaves e := roots !!! get_source_vertex G e = v /\
                  roots !!! get_destination_vertex G e ≠ v in
  fair s -> wf_graph G -> roots_in_range n roots -> v < n ->
  (mw !!! v ≠ weight_max <->
   exists e, e ∈ all_edges G /\ leaves e /\
             (get_edge_weight G e < weight_max)%Z) /\
  (mw !!! v ≠ weight_max ->
   mn !!! v ∈ all_edges G /\ leaves (mn !!! v) /\
   get_edge_weight G (mn !!! v) = mw !!! v /\
   forall e, e ∈ all_edges G -> leaves e ->
             (get_edge_weight G (mn !!! v) <= get_edge_weight G e)%Z).
Proof.
  intros n mw mn leaves Hfair Hwf Hroots Hv.
  assert (mw !!! v ≠ weight_max ->
          mn !!! v ∈ all_edges G /\ leaves (mn !!! v) /\
          get_edge_weight G (mn !!! v) = mw !!! v /\
          (get_edge_weight G (mn !!! v) < weight_max)%Z) as Hown.
  { intros Hmw.
    destruct (own_elected s G roots Hfair Hwf Hroots v Hv Hmw)
      as (Hin & Hr & Hw & Hc & Hlt).
    repeat split; try done. intros Heq. apply Hc. by rewrite Hr. }
  split.
  - split.
    + intros Hmw. destruct (Hown Hmw) as (Hin & Hl & _ & Hlt). eauto.
    + intros (e & Hin & [Hr Hd] & Hlt).
      apply (relaxed_below s G roots n (all_edges G) Hfair v e); try done.
      by rewrite Hr.
  - intros Hmw. destruct (Hown Hmw) as (Hin & Hl & Hw & _).
    repeat split; try done; try apply Hl.
    intros e He [Hr Hd]. rewrite Hw.
    pose proof Hfair as (Hrel & _).
    apply (relax_lb G roots (relax_order s (all_edges G))
             (replicate n weight_max) v e).
    + by rewrite length_replicate.
    + apply (elem_of_perm _ (all_edges G)); [symmetry; apply Hrel|done].
    + done.
    + by rewrite Hr.
Qed.

(** Of the survivors of a relaxation, the later ones of a component are
    strictly lighter than the earlier ones. *)
Lemma relax_distinct G roots L mw0 e1 e2 :
  let out := (filter_execute (get_min_weights G roots) mw0 L).1 in
  (forall e, e ∈ L -> roots !!! get_source_vertex G e < length mw0) ->
  e1 ∈ out -> e2 ∈ out ->
  roots !!! get_source_vertex G e1 = roots !!! get_source_vertex G e2 ->
  get_edge_weight G e1 = get_edge_weight G e2 ->
  e1 = e2.
Proof.
  revert mw0. induction L as [|x L IH]; intros mw0; simpl.
  - intros _ Hin. by apply elem_of_nil in Hin.
  - intros Hrange.
    assert (forall e, e ∈ L ->
              roots !!! get_source_vertex G e < length mw0) as Hrange'.
    { intros e He. apply Hrange, elem_of_cons. by right. }
    destruct (decide (roots !!! get_source_vertex G x
                      = roots !!! get_destination_vertex G x)) as [Hs|Hd].
    + rewrite get_min_weights_same by done. specialize (IH mw0 Hrange').
      by destruct (filter_execute (get_min_weights G roots) mw0 L).
    + rewrite get_min_weights_diff by done.
      set (cx := roots !!! get_source_vertex G x) in *.
      set (w := get_edge_weight G x) in *.
      set (mw1 := <[cx:=Z.min (mw0 !!! cx) w]> mw0).
      specialize (IH mw1).
      pose proof (fun e => relax_out G roots L mw1 e) as Hout.
      destruct (filter_execute (get_min_weights G roots) mw1 L) as [out mw];
        simpl in *.
      assert (cx < length mw0) as Hcx
        by (apply Hrange, elem_of_cons; by left).
      assert (length mw1 = length mw0) as Hlen
        by (subst mw1; apply length_insert).
      rewrite Hlen in IH. specialize (IH Hrange').
      case_bool_decide as Hlt; [|exact IH].
      assert (forall e, e ∈ out -> roots !!! get_source_vertex G e = cx ->
                get_edge_weight G e ≠ w) as Hlighter.
      { intros e He Hr. destruct (Hout e He) as [_ Hw].
        rewrite Hr in Hw. subst mw1.
        rewrite list_lookup_total_insert_eq in Hw by done. lia. }
      intros [->|H1]%elem_of_cons [->|H2]%elem_of_cons Hr Hw.
      * done.
      * exfalso. by apply (Hlighter e2 H2).
      * exfalso. by apply (Hlighter e1 H1).
      * by apply IH.
Qed.

(** X4: two different edges of one component that both survive the
    relaxation have different weights; so a component has at most one
    candidate in the selection phase (one survivor of weight
    [min_weights]), and the atomic maximum of [get_min_neighbors] never
    meets two candidates of one component. *)
Theorem one_candidate_per_component (s : schedule) (G : graph_t)
    (roots : list vertex_t) (n : nat) (frontier : list edge_t)
    (e1 e2 : edge_t) :
  let out1 := (relaxed s G roots (replicate n weight_max) frontier).1 in
  let mw := (relaxed s G roots (replicate n weight_max) frontier).2 in
  fair s ->
  (forall e, e ∈ frontier -> roots !!! get_source_vertex G e < n) ->
  e1 ∈ out1 -> e2 ∈ out1 ->
  roots !!! get_source_vertex G e1 = roots !!! get_source_vertex G e2 ->
  (get_edge_weight G e1 = get_edge_weight G e2 -> e1 = e2) /\
  (get_edge_weight G e1 = mw !!! (roots !!! get_source_vertex G e1) ->
   get_edge_weight G e2 = mw !!! (roots !!! get_source_vertex G e1) ->
   e1 = e2).
Proof.
  intros out1 mw (Hrel & _) Hrange H1 H2 Hr.
  assert (get_edge_weight G e1 = get_edge_weight G e2 -> e1 = e2) as Hd.
  { intros Hw.
    apply (relax_distinct G roots (relax_order s frontier)
             (replicate n weight_max) e1 e2); try done.
    intros e He. rewrite length_replicate. apply Hrange.
    by apply (elem_of_perm _ _ _ (Hrel frontier)). }
  split; [done|]. intros Hw1 Hw2. apply Hd. congruence.
Qed.

(** A round in which [min_neighbors[c]] left its initial value has kept
    that edge in the selected frontier. *)
Lemma select_elected_survives G roots mw L mn0 c :
  let r := filter_execute (get_min_neighbors G roots mw) mn0 L in
  c < length mn0 -> r.2 !!! c ≠ mn0 !!! c -> r.2 !!! c ∈ r.1.
Proof.
  revert mn0. induction L as [|e L IH]; intros mn0 r Hc Hne.
  - by destruct Hne.
  - subst r. simpl in *.
    destruct (decide (get_edge_weight G e
                      = mw !!! (roots !!! get_source_vertex G e))) as [Hw|Hw].
    + rewrite get_min_neighbors_eq in Hne |- * by done.
      set (ce := roots !!! get_source_vertex G e) in *.
      set (mn1 := <[ce:=Z.max (mn0 !!! ce) e]> mn0) in *.
      assert (length mn1 = length mn0) as Hlen
        by (subst mn1; apply length_insert).
      specialize (IH mn1 ltac:(lia)).
      pose proof (select_spec G roots mw L mn1 c ltac:(lia)) as (Hge & _).
      destruct (filter_execute (get_min_neighbors G roots mw) mn1 L)
        as [out mn]; simpl in *.
      destruct (decide (mn !!! c = mn1 !!! c)) as [Heq|Hneq].
      * assert (c = ce) as ->.
        { destruct (decide (c = ce)) as [|Hcc]; [done|].
          subst mn1. rewrite list_lookup_total_insert_ne in Heq by done.
          by destruct Hne. }
        assert (mn1 !!! ce = Z.max (mn0 !!! ce) e) as H1
          by (subst mn1; by apply list_lookup_total_insert_eq).
        assert (mn !!! ce = e /\ (mn0 !!! ce < e)%Z) as [-> Hlt] by lia.
        rewrite bool_decide_true by done. apply elem_of_cons. by left.
      * specialize (IH Hneq).
        case_bool_decide; [apply elem_of_cons; by right|done].
    + rewrite get_min_neighbors_ne in Hne |- * by done.
      specialize (IH mn0 Hc).
      destruct (filter_execute (get_min_neighbors G roots mw) mn0 L)
        as [out mn]; simpl in *. by apply IH.
Qed.

(** X5: the frontier a round leaves in [frontiers[1]] holds exactly the
    elected edges of the vertices on which [add_to_mst] acts: the filters
    on the edges and the guard on the vertices select the same commits. *)
Theorem frontier_is_commits (s : schedule) (E : enactor_t) (e : edge_t) :
  let P := problem E in
  let n := get_number_of_vertices (g P) in
  let mw := (relaxed s (g P) (roots P) (replicate n weight_max)
               (all_edges (g P))).2 in
  let mn := (selected s (g P) (roots P) (replicate n weight_max)
               (replicate n (-1)%Z) (all_edges (g P))).2 in
  fair s -> wf_enactor E ->
  (e ∈ (loop_commit s E).1 <->
   exists v, v < n /\ acts (set_scratch P mw mn) v = true /\ e = mn !!! v).
Proof.
  intros P n mw mn Hfair Hwf.
  pose proof Hwf
    as (Hn & Hlmw & Hlmn & _ & _ & _ & _ & Hroots & Hfr & Hwfg).
  fold P n in Hn, Hlmw, Hlmn, Hroots, Hfr, Hwfg.
  set (G := g P) in *.
  assert ((loop_commit s E).1
          = (edge_phases s G (roots P) (replicate n weight_max)
               (replicate n (-1)%Z) (all_edges G)).1.1) as ->.
  { unfold loop_commit. fold P G. rewrite Hn, Hfr.
    rewrite !fill_n_all by done.
    by destruct (edge_phases s G (roots P) _ _ _) as [[out4 mw'] mn']. }
  pose proof (edge_phases_unfold s G (roots P) (replicate n weight_max)
                (replicate n (-1)%Z) (all_edges G)) as Hu.
  cbv zeta in Hu. rewrite Hu. simpl. fold mn.
  pose proof Hfair as (Hrel & Hsel & Hties & Hdups & _).
  rewrite elem_of_filter_bool, Hdups, elem_of_filter_bool, Hties.
  rewrite remove_ties_true.
  assert (forall x, x ∈ all_edges G ->
            roots P !!! get_source_vertex G x < n) as Hsrc.
  { intros x Hx. by apply all_edges_src. }
  split.
  - intros [[Hin Hties'] Hdups'].
    apply (out2_out1 s G (roots P) n (all_edges G) Hfair) in Hin.
    pose proof (out1_frontier s G (roots P) n (all_edges G) Hfair e Hin)
      as Hfr'.
    destruct (out1_crossing s G (roots P) n (all_edges G) Hfair Hsrc e Hin)
      as [Hcross Hw].
    exists (roots P !!! get_source_vertex G e).
    split; [by apply Hsrc|]. split; [|done].
    unfold acts. simpl. fold G. rewrite <- Hties'.
    apply andb_true_iff. split.
    + apply bool_decide_eq_true.
      apply (relaxed_below s G (roots P) n (all_edges G) Hfair _ e);
        [by apply Hsrc|done..].
    + unfold remove_dups in Hdups'.
      by destruct (reciprocity G (roots P) mn _ _).
  - intros (v & Hv & Hacts & ->).
    unfold acts in Hacts. simpl in Hacts. fold G in Hacts.
    apply andb_true_iff in Hacts as [Hmw Hrec].
    apply bool_decide_eq_true in Hmw.
    destruct (elected s G (roots P) n (all_edges G) Hfair
                (all_edges_nonneg G) v Hv Hmw) as (Hel & Hr & Hw).
    fold mn in Hel, Hr, Hw.
    split; [split|].
    + apply (select_elected_survives G (roots P) _ _ (replicate n (-1)%Z) v).
      * by rewrite length_replicate.
      * rewrite lookup_total_replicate_2 by done.
        pose proof (all_edges_nonneg G _
          (out1_frontier s G (roots P) n (all_edges G) Hfair _ Hel)).
        fold (selected s G (roots P) (replicate n weight_max)
                (replicate n (-1)%Z) (all_edges G)). fold mn. lia.
    + by rewrite Hr.
    + unfold remove_dups. by rewrite Hrec.
Qed.

(** X6: when two components elect the two directions of one undirected
    edge, [add_to_mst] acts on exactly one of them, the one whose elected
    edge goes from the smaller vertex to the larger: the merge is
    committed once. *)
Theorem reciprocal_pair_commits_once (P : problem_t) (a b : vertex_t) :
  let G := g P in
  let ea := min_neighbors P !!! a in
  let eb := min_neighbors P !!! b in
  min_weights P !!! a ≠ weight_max -> min_weights P !!! b ≠ weight_max ->
  roots P !!! get_destination_vertex G ea = b ->
  roots P !!! get_destination_vertex G eb = a ->
  get_source_vertex G eb = get_destination_vertex G ea ->
  get_destination_vertex G eb = get_source_vertex G ea ->
  get_source_vertex G ea ≠ get_destination_vertex G ea ->
  acts P a = bool_decide (get_source_vertex G ea < get_destination_vertex G ea)
  /\ acts P b = negb (acts P a).
Proof.
  intros G ea eb Ha Hb Hda Hdb Hs Hd Hne.
  assert (acts P a
          = bool_decide (get_source_vertex G ea < get_destination_vertex G ea))
    as Hacts_a.
  { unfold acts, reciprocity. fold G ea. rewrite Hda. fold eb.
    rewrite bool_decide_true by done. simpl.
    rewrite (bool_decide_false (get_destination_vertex G eb ≠ _))
      by (intros H; by apply H).
    rewrite (bool_decide_false (get_source_vertex G eb ≠ _))
      by (intros H; by apply H).
    by rewrite !orb_false_r. }
  split; [done|]. rewrite Hacts_a.
  unfold acts, reciprocity. fold G eb. rewrite Hdb. fold ea.
  rewrite bool_decide_true by done. simpl.
  rewrite (bool_decide_false (get_destination_vertex G ea ≠ _))
    by (intros H; by apply H).
  rewrite (bool_decide_false (get_source_vertex G ea ≠ _))
    by (intros H; by apply H).
  rewrite !orb_false_r, Hs, Hd.
  repeat case_bool_decide; simpl; try done; lia.
Qed.

(** X7: edges that weigh the sentinel or more are never relaxed: a round
    in which every edge between two components weighs at least
    [weight_max] commits nothing, leaves [new_roots] and the three
    scalars as they were and an empty output frontier. *)
Theorem sentinel_edges_ignored (s : schedule) (E : enactor_t) :
  let P := problem E in
  let G := g P in
  fair s -> wf_enactor E ->
  (forall e, e ∈ all_edges G ->
     roots P !!! get_source_vertex G e ≠ roots P !!! get_destination_vertex G e ->
     (weight_max <= get_edge_weight G e)%Z) ->
  (loop_commit s E).1 = [] /\
  mst_weight (loop_commit s E).2 = mst_weight P /\
  mst_edges (loop_commit s E).2 = mst_edges P /\
  super_vertices (loop_commit s E).2 = super_vertices P /\
  new_roots (loop_commit s E).2 = new_roots P.
Proof.
  intros P G Hfair Hwf Hheavy.
  pose proof (loop_commit_unfold s E Hwf) as Hu. cbv zeta in Hu.
  pose proof Hwf
    as (Hn & Hlmw & Hlmn & _ & _ & _ & _ & Hroots & Hfr & Hwfg).
  fold P G in Hu, Hn, Hlmw, Hlmn, Hroots, Hfr, Hwfg.
  set (n := get_number_of_vertices G) in *.
  assert (forall x, x ∈ all_edges G ->
            roots P !!! get_source_vertex G x < n) as Hsrc.
  { intros x Hx. by apply all_edges_src. }
  assert (forall e,
            e ∉ (relaxed s G (roots P) (replicate n weight_max)
                   (all_edges G)).1) as Hnone.
  { intros e Hin.
    pose proof (out1_frontier s G (roots P) n (all_edges G) Hfair e Hin).
    destruct (out1_crossing s G (roots P) n (all_edges G) Hfair Hsrc e Hin)
      as [Hc Hw].
    specialize (Hheavy e ltac:(done) Hc). lia. }
  split.
  - destruct (loop_commit s E).1 as [|e out] eqn:Hout; [done|]. exfalso.
    assert (e ∈ (loop_commit s E).1) as Hin
      by (rewrite Hout; apply elem_of_cons; by left).
    apply (Hnone e).
    assert ((loop_commit s E).1
            = (edge_phases s G (roots P) (replicate n weight_max)
                 (replicate n (-1)%Z) (all_edges G)).1.1) as Heq.
    { unfold loop_commit. fold P G. rewrite Hn, Hfr.
      rewrite !fill_n_all by done.
      by destruct (edge_phases s G (roots P) _ _ _) as [[out4 mw'] mn']. }
    rewrite Heq in Hin.
    pose proof (edge_phases_unfold s G (roots P) (replicate n weight_max)
                  (replicate n (-1)%Z) (all_edges G)) as Hph.
    cbv zeta in Hph. rewrite Hph in Hin. simpl in Hin.
    pose proof Hfair as (_ & _ & Hties & Hdups & _).
    apply elem_of_filter_bool in Hin as [Hin _].
    apply (elem_of_perm _ _ _ (Hdups _)) in Hin.
    apply elem_of_filter_bool in Hin as [Hin _].
    apply (elem_of_perm _ _ _ (Hties _)) in Hin.
    by apply (out2_out1 s G (roots P) n (all_edges G) Hfair) in Hin.
  - rewrite Hu, commit_none; [done|].
    intros v Hv.
    pose proof Hfair as (_ & _ & _ & _ & Hcom & _).
    apply (elem_of_perm _ _ _ (Hcom _)), elem_of_seq_0 in Hv.
    unfold acts. simpl.
    destruct (relax_survivor G (roots P) (relax_order s (all_edges G))
                (replicate n weight_max) v) as [Heq|(e & Hin & _)].
    + fold (relaxed s G (roots P) (replicate n weight_max) (all_edges G))
        in Heq.
      rewrite Heq, lookup_total_replicate_2 by done.
      by rewrite bool_decide_false by naive_solver.
    + by destruct (Hnone e).
Qed.

(** ** Pointer jumping on a cycle *)

Lemma chase_diverges roots (on_cycle : vertex_t -> Prop) :
  (forall u, on_cycle u -> on_cycle (roots !!! u) /\ roots !!! u ≠ u) ->
  forall k u, on_cycle u -> chase roots k u = None.
Proof.
  intros Hcl k. induction k as [|k IH]; intros u Hu; simpl; [done|].
  destruct (Hcl u Hu) as [Hnext Hne].
  rewrite bool_decide_true by done. by apply IH.
Qed.

Lemma loop_contracts fuel s E E' :
  wf_enactor E -> loop fuel s E = Some E' ->
  let n := get_number_of_vertices (g (problem E)) in
  let P1 := (loop_commit s E).2 in
  length (new_roots P1) = n /\
  exists r,
    contract fuel s n n (new_roots P1) (new_roots P1) = Some r /\
    problem E' = set_roots P1 r.1 r.2 /\
    frontier0 E' = frontier0 E.
Proof.
  intros Hwf Hloop n P1.
  pose proof Hwf
    as (Hn & _ & _ & [Hlnr _] & _ & _ & _ & [Hlr _] & _).
  fold n in Hn, Hlnr, Hlr.
  destruct (loop_commit_shape s E) as (mw & mn & vs & Hshape).
  pose proof (commit_frame (set_scratch (problem E) mw mn) vs) as Hframe.
  cbv zeta in Hframe. rewrite <- Hshape in Hframe. fold P1 in Hframe.
  simpl in Hframe.
  destruct Hframe as (Hg1 & Hn1 & Hr1 & _ & _ & _ & _ & _ & Hlnr1).
  split; [congruence|].
  unfold loop in Hloop.
  destruct (loop_commit s E) as [out P1'] eqn:Hlc. simpl in P1. subst P1.
  unfold loop_contract in Hloop. rewrite Hg1, Hn1, Hn in Hloop. fold n in Hloop.
  rewrite copy_n_all in Hloop by congruence.
  destruct (contract fuel s n n (new_roots P1') (new_roots P1')) as [r|];
    simpl in Hloop; [|done].
  injection Hloop as <-. by exists r.
Qed.

(** X8: pointer jumping never ends on a cycle.  When the [new_roots] left
    by the commit holds a vertex set closed under [new_roots] without a
    fixed point, reached from the root of some vertex, the while loop of
    [jump_pointers_parallel] spins and the round does not return, for any
    fuel. *)
Theorem loop_hangs_on_cycle (s : schedule) (E : enactor_t)
    (on_cycle : vertex_t -> Prop) (v : vertex_t) :
  let n := get_number_of_vertices (g (problem E)) in
  let nr := new_roots (loop_commit s E).2 in
  fair s -> wf_enactor E ->
  v < n -> on_cycle (nr !!! v) ->
  (forall u, on_cycle u -> on_cycle (nr !!! u) /\ nr !!! u ≠ u) ->
  forall fuel, loop fuel s E = None.
Proof.
  intros n nr Hfair Hwf Hv HS Hcl fuel.
  destruct (loop fuel s E) as [E'|] eqn:Hloop; [|done]. exfalso.
  destruct (loop_contracts _ _ _ _ Hwf Hloop) as (Hlen & r & Hc & _).
  fold n nr in Hlen, Hc. unfold contract in Hc.
  destruct (parallel_for_opt (jump_pointers_parallel nr fuel) nr
              (jump_order s (seq 0 n))) as [nr'|] eqn:Hj; [|done].
  pose proof Hfair as (_ & _ & _ & _ & _ & Hjump).
  destruct (jump_all_inv _ _ _ _ _ Hj v) as [u Hu].
  { apply (elem_of_perm _ (seq 0 n)); [symmetry; apply Hjump|].
    by apply elem_of_seq_0. }
  by rewrite (chase_diverges nr on_cycle Hcl fuel _ HS) in Hu.
Qed.

(** ** The state between rounds *)

Lemma contract_flat k s n roots nr r :
  (forall l, jump_order s l ≡ₚ l) ->
  roots_in_range n roots -> length nr = n ->
  contract k s n n roots nr = Some r ->
  forall v, v < n -> r.1 !!! (r.1 !!! v) = r.1 !!! v.
Proof.
  intros Hperm Hroots Hnr Hrun. pose proof Hroots as [Hlen Hall].
  assert (forall v, v < n -> is_Some (chase roots k (roots !!! v))) as Hsome.
  { intros v Hv. unfold contract in Hrun.
    destruct (parallel_for_opt _ nr _) as [nr'|] eqn:Hj; [|done].
    apply (jump_all_inv _ _ _ _ _ Hj).
    apply (elem_of_perm _ (seq 0 n)); [symmetry; apply Hperm|].
    by apply elem_of_seq_0. }
  destruct (contract_spec k s n roots nr Hperm Hlen Hnr Hsome)
    as (r1 & Hr1 & Hl1 & Hc1).
  rewrite Hr1 in Hrun. injection Hrun as <-. simpl.
  intros v Hv.
  destruct (contract_fixed k s s n roots nr r1 Hperm Hperm Hlen Hnr Hl1)
    with (k := k) as (_ & _ & H3); [by intros; apply roots_lt|done|lia|].
  by apply H3.
Qed.

Lemma commit_keeps_new_roots s E :
  fair s -> wf_enactor E ->
  roots_in_range (get_number_of_vertices (g (problem E)))
    (new_roots (loop_commit s E).2).
Proof.
  intros Hfair Hwf.
  pose proof (loop_commit_unfold s E Hwf) as Hu. cbv zeta in Hu.
  pose proof Hwf
    as (Hn & Hlmw & Hlmn & Hnr & Hlw & Hle & Hlsv & Hroots & Hfr & Hwfg).
  set (P := problem E) in *. set (G := g P) in *.
  set (n := get_number_of_vertices G) in *.
  rewrite Hu. apply commit_new_roots_range; [done|].
  intros v Hv Hacts.
  pose proof Hfair as (_ & _ & _ & _ & Hcom & _).
  apply (elem_of_perm _ _ _ (Hcom _)), elem_of_seq_0 in Hv.
  unfold acts in Hacts. apply andb_true_iff in Hacts as [Hmw _].
  apply bool_decide_eq_true in Hmw. simpl in Hmw |- *.
  destruct (own_elected s G (roots P) Hfair Hwfg Hroots v Hv Hmw)
    as (Hel & _).
  by apply wf_graph_ends.
Qed.

(** X9: every round that returns keeps the shape of the state and hands
    the next round a flattened forest: the arrays keep one cell per
    vertex, [roots] and [new_roots] are equal, every entry is a vertex
    that is its own root, and [frontiers[0]] still holds every edge of
    the graph (the round reads it and writes [frontiers[1]] only). *)
Theorem round_invariant (fuel : nat) (s : schedule) (E E' : enactor_t) :
  let n := get_number_of_vertices (g (problem E)) in
  fair s -> wf_enactor E -> loop fuel s E = Some E' ->
  wf_enactor (next_iteration E') /\
  g (problem E') = g (problem E) /\
  frontier0 E' = all_edges (g (problem E)) /\
  roots (problem E') = new_roots (problem E') /\
  (forall v, v < n ->
     roots (problem E') !!! v < n /\
     roots (problem E') !!! (roots (problem E') !!! v)
     = roots (problem E') !!! v).
Proof.
  intros n Hfair Hwf Hloop.
  pose proof (loop_wf _ _ _ _ Hfair Hwf Hloop) as Hwf'.
  destruct (loop_contracts _ _ _ _ Hwf Hloop)
    as (Hlen & r & Hc & Hprob & Hfr).
  fold n in Hlen, Hc.
  pose proof Hwf' as (_ & _ & _ & Hnr' & _ & _ & _ & Hroots' & Hfr' & _).
  simpl in Hnr', Hroots', Hfr'.
  destruct (loop_commit_shape s E) as (mw & mn & vs & Hshape).
  pose proof (commit_frame (set_scratch (problem E) mw mn) vs) as Hframe.
  cbv zeta in Hframe. rewrite <- Hshape in Hframe. simpl in Hframe.
  destruct Hframe as (Hg1 & _).
  assert (g (problem E') = g (problem E)) as Hg
    by (rewrite Hprob; simpl; exact Hg1).
  rewrite Hg in Hnr', Hroots', Hfr'. fold n in Hnr', Hroots'.
  pose proof Hfair as (_ & _ & _ & _ & _ & Hjump).
  pose proof (commit_keeps_new_roots s E Hfair Hwf) as Hnr1. fold n in Hnr1.
  split; [done|]. split; [done|]. split; [done|].
  destruct (contract_range fuel s n _ _ r Hjump Hnr1 Hlen Hc) as [Heq _].
  split; [by rewrite Hprob; simpl|].
  intros v Hv. split; [by apply roots_lt|].
  rewrite Hprob. simpl.
  by apply (contract_flat fuel s n _ _ r Hjump Hnr1 Hlen Hc).
Qed.

(** ** Small graphs *)

Lemma init_wf G w : wf_graph G -> wf_enactor (prepare_frontier (init (problem_new G w))).
Proof.
  intros Hwf. unfold wf_enactor, prepare_frontier, init, problem_new.
  simpl. unfold sequence, sequenceZ, fill, roots_in_range.
  rewrite !resize_length, !length_seq, !length_replicate.
  repeat split; try done; try (simpl; lia).
  all: apply Forall_forall; intros r Hr; apply elem_of_seq in Hr; lia.
Qed.


(** X11: on a graph whose edges are all self-loops (none at all
    included) and whose number of vertices is not one, zero included,
    [run] never returns: no vertex ever commits, [super_vertices] keeps
    the number of vertices and [is_converged] stays false. *)
Theorem run_without_edges (rounds fuel : nat) (s : nat -> schedule)
    (G : graph_t) (w : weight_t) :
  (forall i, fair (s i)) -> wf_graph G ->
  Forall (fun e => get_source_vertex G e = get_destination_vertex G e)
    (all_edges G) ->
  get_number_of_vertices G ≠ 1 ->
  run rounds fuel s G w = None.
Proof.
  intros Hfair Hwf Hloops Hn. unfold run. apply stuck_enact; [done|].
  split; [by apply init_wf|].
  unfold prepare_frontier, init, problem_new. simpl.
  unfold sequence. rewrite !resize_length.
  set (n := get_number_of_vertices G) in *.
  repeat split.
  - eapply Forall_impl; [exact Hloops|]. simpl. intros e ->. done.
  - apply Forall_forall. intros r Hr. apply elem_of_seq in Hr.
    apply lookup_total_seq_lt. lia.
  - intros Heq. apply Hn. lia.
Qed.

(** ** Initialisation again *)

Lemma resize_resize {A} (d : A) n v : resize d n (resize d n v) = resize d n v.
Proof.
  unfold resize at 1. rewrite resize_length, Nat.sub_diag. simpl.
  rewrite app_nil_r. apply take_ge. by rewrite resize_length.
Qed.

(** X12: [init] can be run again on a problem that was used: it is
    idempotent, and from any earlier state it resets [roots],
    [new_roots], [min_weights], [min_neighbors] and [super_vertices];
    but [mst_edges] is only resized, never filled, so an [mst_edges]
    cell that exists keeps its old count. *)
Theorem init_again (P : problem_t) :
  let n := n_vertices P in
  init (init P) = init P /\
  roots (init P) = seq 0 n /\ new_roots (init P) = seq 0 n /\
  min_weights (init P) = replicate n weight_max /\
  min_neighbors (init P) = replicate n (-1)%Z /\
  super_vertices (init P) = [Z.of_nat n] /\
  (forall k rest, mst_edges P = k :: rest -> mst_edges (init P) = [k]) /\
  (mst_edges P = [] -> mst_edges (init P) = [0%Z]).
Proof.
  intros n. split; [|repeat split].
  - unfold init. simpl. fold n.
    unfold sequence, sequenceZ, fill.
    rewrite !resize_length, resize_resize. f_equal.
    unfold fill_n. destruct (mst_weight P) as [|x l]; [done|]. simpl.
    by rewrite drop_0.
  - unfold init, sequence. simpl. by rewrite resize_length.
  - unfold init, sequence. simpl. by rewrite resize_length.
  - unfold init, fill. simpl. by rewrite resize_length.
  - unfold init, fill. simpl. by rewrite resize_length.
  - unfold init, sequenceZ. simpl. by rewrite resize_length.
  - intros k rest Heq. unfold init. simpl. rewrite Heq. done.
  - intros Heq. unfold init. simpl. rewrite Heq. done.
Qed.

(** * Properties of [launch_box.hxx] *)

(** ** Integer conversions inside their range *)

Lemma to_int_small z : (- 2 ^ 31 <= z < 2 ^ 31)%Z -> to_int z = z.
Proof. intros H. unfold to_int. rewrite Z.mod_small; lia. Qed.

Lemma to_uint_small z : (0 <= z < 2 ^ 32)%Z -> to_uint z = z.
Proof. intros H. unfold to_uint. by rewrite Z.mod_small. Qed.

Lemma to_size_t_small z : (0 <= z < 2 ^ 64)%Z -> to_size_t z = z.
Proof. intros H. unfold to_size_t. by rewrite Z.mod_small. Qed.

(** ** One thread of [strided_kernel] *)

Lemma strided_loop_spec t stride bound fuel i :
  (0 < stride)%Z -> (0 <= i < 2 ^ 31)%Z -> (bound + stride < 2 ^ 31)%Z ->
  Z.to_nat (bound - i) < fuel ->
  exists tr,
    strided_loop fuel t stride bound i = Some tr /\
    Forall (fun c => c.2 = block_id t) tr /\
    NoDup (fst <$> tr) /\
    forall x, x ∈ fst <$> tr <->
      exists k, (0 <= k)%Z /\ x = (i + k * stride)%Z /\ (x < bound)%Z.
Proof.
  intros Hs. revert i. induction fuel as [|fuel IH]; intros i Hi Hb Hf; [lia|].
  simpl. rewrite to_size_t_small by lia.
  case_bool_decide as Hlt.
  - rewrite to_int_small by lia.
    destruct (IH (i + stride)%Z) as (tr & -> & Hblk & Hnd & Hmem);
      [lia..|].
    simpl. eexists. split; [done|]. split; [by constructor|].
    rewrite fmap_cons. simpl. split.
    + apply NoDup_cons. split; [|done].
      intros (k & Hk & Hx & _)%Hmem. nia.
    + intros x. rewrite elem_of_cons, Hmem. split.
      * intros [->|(k & Hk & -> & Hx)].
        -- exists 0%Z. lia.
        -- exists (k + 1)%Z. lia.
      * intros (k & Hk & -> & Hx).
        destruct (decide (k = 0%Z)) as [->|Hne]; [left; lia|].
        right. exists (k - 1)%Z. lia.
  - exists []. split; [done|]. split; [done|]. split; [constructor|].
    intros x. split; [by intros ?%elem_of_nil|].
    intros (k & Hk & -> & Hx). nia.
Qed.

Lemma strided_kernel_spec fuel bound t :
  let stride := (block_size t * grid_size t)%Z in
  (0 < stride)%Z -> (0 <= global_id t < stride)%Z -> (0 <= bound)%Z ->
  (bound + stride < 2 ^ 31)%Z -> Z.to_nat bound < fuel ->
  exists tr,
    strided_kernel fuel bound t = Some tr /\
    Forall (fun c => c.2 = block_id t) tr /\
    NoDup (fst <$> tr) /\
    forall x, x ∈ fst <$> tr <->
      exists k, (0 <= k)%Z /\ x = (global_id t + k * stride)%Z /\
                (x < bound)%Z.
Proof.
  intros stride Hs Hg Hb Hov Hf. unfold strided_kernel. fold stride.
  rewrite !to_int_small by lia.
  apply strided_loop_spec; lia.
Qed.

(** X13: a thread of [strided_kernel] with global id [gid], in a launch
    of stride [s = block size * grid size], calls [f] on
    [gid, gid + s, gid + 2 s, ...] as long as the index is below [bound],
    each once, always with its own block id, and then stops; a thread whose
    global id is not below [bound] calls nothing. *)
Theorem strided_kernel_thread (fuel : nat) (bound : Z) (t : thread_t) :
  let stride := (block_size t * grid_size t)%Z in
  (0 < stride)%Z -> (0 <= global_id t < stride)%Z -> (0 <= bound)%Z ->
  (bound + stride < 2 ^ 31)%Z -> Z.to_nat bound < fuel ->
  exists tr,
    strided_kernel fuel bound t = Some tr /\
    Forall (fun c => c.2 = block_id t) tr /\
    NoDup (fst <$> tr) /\
    (forall x, x ∈ fst <$> tr <->
       exists k, (0 <= k)%Z /\ x = (global_id t + k * stride)%Z /\
                 (x < bound)%Z) /\
    ((bound <= global_id t)%Z -> tr = []).
Proof.
  intros stride Hs Hg Hb Hov Hf.
  destruct (strided_kernel_spec fuel bound t Hs Hg Hb Hov Hf)
    as (tr & Hrun & Hblk & Hnd & Hmem).
  exists tr. repeat split; try done; try apply Hmem.
  intros Hge. destruct tr as [|c tr]; [done|]. exfalso.
  assert (c.1 ∈ fst <$> c :: tr) as Hin
    by (rewrite fmap_cons; apply elem_of_cons; by left).
  apply Hmem in Hin as (k & Hk & Hx & Hlt). nia.
Qed.

(** ** All the threads of a launch *)

Lemma launch_calls kernel (P : thread_t -> Z -> Prop) ts :
  (forall t, t ∈ ts ->
     exists tr, kernel t = Some tr /\ NoDup (fst <$> tr) /\
                forall x, x ∈ fst <$> tr <-> P t x) ->
  NoDup (global_id <$> ts) ->
  (forall t1 t2 x, t1 ∈ ts -> t2 ∈ ts -> P t1 x -> P t2 x ->
     global_id t1 = global_id t2) ->
  exists calls,
    launch kernel ts = Some calls /\ NoDup (fst <$> calls) /\
    forall x, x ∈ fst <$> calls <-> exists t, t ∈ ts /\ P t x.
Proof.
  induction ts as [|t ts IH]; intros Hk Hnd Hdisj.
  - exists []. split; [done|]. split; [constructor|].
    intros x. split; [by intros ?%elem_of_nil|].
    by intros (t & ?%elem_of_nil & _).
  - rewrite fmap_cons in Hnd. apply NoDup_cons in Hnd as [Hnotin Hnd].
    destruct (Hk t) as (tr & Ht & Hndt & Hmemt); [apply elem_of_cons; by left|].
    destruct IH as (calls & Hrun & Hndc & Hmemc); [|done| |].
    { intros t' Ht'. apply Hk, elem_of_cons. by right. }
    { intros t1 t2 x H1 H2. apply Hdisj; apply elem_of_cons; by right. }
    exists (tr ++ calls). simpl. rewrite Ht, Hrun. simpl.
    split; [done|]. rewrite fmap_app. split.
    + apply NoDup_app. split; [done|]. split; [|done].
      intros x Hx%Hmemt (t' & Ht' & HP)%Hmemc.
      apply Hnotin. apply list_elem_of_fmap. exists t'. split; [|done].
      apply (Hdisj t t' x); [apply elem_of_cons; by left
                            |apply elem_of_cons; by right|done..].
    + intros x. rewrite elem_of_app, Hmemt, Hmemc. split.
      * intros [HP|(t' & Ht' & HP)].
        -- exists t. split; [apply elem_of_cons; by left|done].
        -- exists t'. split; [apply elem_of_cons; by right|done].
      * intros (t' & [->|Ht']%elem_of_cons & HP); [by left|].
        right. by exists t'.
Qed.

Lemma one_dim_launch_ids B G ts t :
  one_dim_launch B G ts -> t ∈ ts ->
  block_size t = B /\ grid_size t = G /\ (0 <= global_id t < B * G)%Z.
Proof.
  intros [Hall Hperm] Ht.
  rewrite Forall_forall in Hall. destruct (Hall t Ht) as [-> ->].
  split; [done|]. split; [done|].
  assert (global_id t ∈ global_id <$> ts) as Hin
    by (by apply list_elem_of_fmap_2).
  rewrite Hperm in Hin. apply elem_of_seqZ in Hin. lia.
Qed.

Lemma one_dim_launch_thread B G ts gid :
  one_dim_launch B G ts -> (0 <= gid < B * G)%Z ->
  exists t, t ∈ ts /\ global_id t = gid.
Proof.
  intros [_ Hperm] Hg.
  assert (gid ∈ global_id <$> ts) as Hin
    by (rewrite Hperm; apply elem_of_seqZ; lia).
  apply list_elem_of_fmap in Hin as (t & -> & Ht). by exists t.
Qed.

Lemma same_residue s g1 g2 m1 m2 :
  (0 < s)%Z -> (0 <= g1 < s)%Z -> (0 <= g2 < s)%Z ->
  (g1 + s * m1 = g2 + s * m2)%Z -> g1 = g2 /\ m1 = m2.
Proof. intros Hs H1 H2 Heq. assert (m1 = m2) by nia. subst. lia. Qed.

(** X14: the threads of a launch of [strided_kernel] together call [f]
    on every index of [0 .. bound - 1] exactly once and on no other
    index, provided [bound + stride] fits an [int]. *)
Theorem strided_kernel_covers (fuel : nat) (B G bound : Z)
    (ts : list thread_t) :
  one_dim_launch B G ts -> (0 < B)%Z -> (0 < G)%Z -> (0 <= bound)%Z ->
  (bound + B * G < 2 ^ 31)%Z -> Z.to_nat bound < fuel ->
  exists calls,
    launch (strided_kernel fuel bound) ts = Some calls /\
    fst <$> calls ≡ₚ seqZ 0 bound.
Proof.
  intros Hlaunch HB HG Hb Hov Hf.
  assert (0 < B * G)%Z as Hs by nia.
  destruct (launch_calls (strided_kernel fuel bound)
              (fun t x => exists k, (0 <= k)%Z /\
                 x = (global_id t + k * (B * G))%Z /\ (x < bound)%Z) ts)
    as (calls & Hrun & Hnd & Hmem).
  - intros t Ht.
    destruct (one_dim_launch_ids B G ts t Hlaunch Ht) as (HBt & HGt & Hid).
    pose proof (strided_kernel_spec fuel bound t) as Hspec.
    cbv zeta in Hspec. rewrite HBt, HGt in Hspec.
    destruct Hspec as (tr & Hk & _ & Hn & Hm); [lia..|].
    by exists tr.
  - destruct Hlaunch as [_ Hperm]. rewrite Hperm. apply NoDup_seqZ.
  - intros t1 t2 x H1 H2 (k1 & _ & Hx1 & _) (k2 & _ & Hx2 & _).
    destruct (one_dim_launch_ids B G ts t1 Hlaunch H1) as (_ & _ & Hid1).
    destruct (one_dim_launch_ids B G ts t2 Hlaunch H2) as (_ & _ & Hid2).
    apply (same_residue (B * G) _ _ k1 k2); lia.
  - exists calls. split; [done|].
    apply NoDup_Permutation; [done|apply NoDup_seqZ|].
    intros x. rewrite Hmem, elem_of_seqZ. split.
    + intros (t & Ht & k & Hk & Hx & Hlt).
      destruct (one_dim_launch_ids B G ts t Hlaunch Ht) as (_ & _ & Hid).
      nia.
    + intros Hx.
      destruct (one_dim_launch_thread B G ts (x mod (B * G)) Hlaunch)
        as (t & Ht & Hid); [apply Z.mod_pos_bound; lia|].
      exists t. split; [done|]. exists (x / (B * G))%Z.
      pose proof (Z.div_mod x (B * G) ltac:(lia)).
      pose proof (Z.div_pos x (B * G) ltac:(lia) ltac:(lia)).
      lia.
Qed.

(** ** [blocked_strided_kernel] *)

Lemma blocked_items_fst t stride ipt i :
  (0 < stride)%Z -> (0 <= i)%Z -> (i + stride * Z.of_nat ipt < 2 ^ 31)%Z ->
  fst <$> blocked_items t stride ipt i
  = (fun j => (i + stride * Z.of_nat j)%Z) <$> seq 0 ipt.
Proof.
  intros Hs Hi Hov. unfold blocked_items. rewrite <- list_fmap_compose.
  apply list_fmap_ext. intros k j Hj. apply lookup_seq in Hj as [-> Hk].
  simpl. rewrite (to_int_small (stride * _)) by nia.
  apply to_int_small. nia.
Qed.

Lemma blocked_items_mem t stride ipt i x :
  (0 < stride)%Z -> (0 <= i)%Z -> (i + stride * Z.of_nat ipt < 2 ^ 31)%Z ->
  x ∈ fst <$> blocked_items t stride ipt i <->
  exists j, (0 <= j < Z.of_nat ipt)%Z /\ x = (i + stride * j)%Z.
Proof.
  intros Hs Hi Hov. rewrite blocked_items_fst by done.
  rewrite list_elem_of_fmap. split.
  - intros (j & -> & Hj). apply elem_of_seq in Hj.
    exists (Z.of_nat j). lia.
  - intros (j & Hj & ->). exists (Z.to_nat j).
    split; [f_equal; lia|]. apply elem_of_seq. lia.
Qed.

Lemma blocked_items_NoDup t stride ipt i :
  (0 < stride)%Z -> (0 <= i)%Z -> (i + stride * Z.of_nat ipt < 2 ^ 31)%Z ->
  NoDup (fst <$> blocked_items t stride ipt i).
Proof.
  intros Hs Hi Hov. rewrite blocked_items_fst by done.
  apply NoDup_fmap_2_strong; [|apply NoDup_seq].
  intros j1 j2 _ _ Heq. nia.
Qed.

Lemma blocked_loop_spec t stride ipt bound fuel i :
  (0 < stride)%Z -> 0 < ipt -> (0 <= i < 2 ^ 31)%Z ->
  (bound + stride * Z.of_nat ipt < 2 ^ 31)%Z ->
  Z.to_nat (bound - i) < fuel ->
  exists tr,
    blocked_loop fuel t stride ipt bound i = Some tr /\
    Forall (fun c => c.2 = block_id t) tr /\
    NoDup (fst <$> tr) /\
    forall x, x ∈ fst <$> tr <->
      exists k j, (0 <= k)%Z /\ (0 <= j < Z.of_nat ipt)%Z /\
        (i + k * (stride * Z.of_nat ipt) < bound)%Z /\
        x = (i + k * (stride * Z.of_nat ipt) + stride * j)%Z.
Proof.
  intros Hs Hipt. revert i.
  induction fuel as [|fuel IH]; intros i Hi Hov Hf; [lia|].
  simpl. rewrite to_size_t_small by lia.
  set (T := (stride * Z.of_nat ipt)%Z) in *.
  assert (0 < T)%Z as HT by (subst T; nia).
  case_bool_decide as Hlt.
  - rewrite (to_uint_small T) by lia.
    rewrite (to_uint_small (i + T)) by lia.
    rewrite to_int_small by lia.
    destruct (IH (i + T)%Z) as (tr & -> & Hblk & Hnd & Hmem); [lia..|].
    simpl. eexists. split; [done|].
    assert (i + T < 2 ^ 31)%Z as Hov' by lia.
    split; [|split].
    + apply Forall_app. split; [|done].
      unfold blocked_items. apply Forall_fmap, Forall_forall. by intros.
    + rewrite fmap_app. apply NoDup_app.
      split; [apply blocked_items_NoDup; [done|lia|exact Hov']|].
      split; [|done].
      intros x Hx.
      apply blocked_items_mem in Hx as (j & Hj & ->);
        [|done|lia|exact Hov'].
      intros (k & j' & Hk & Hj' & _ & Hx)%Hmem. subst T. nia.
    + intros x. rewrite fmap_app, elem_of_app, Hmem.
      rewrite (blocked_items_mem t stride ipt i x Hs ltac:(lia) Hov').
      split.
      * intros [(j & Hj & ->)|(k & j & Hk & Hj & Hb & ->)].
        -- exists 0%Z, j. lia.
        -- exists (k + 1)%Z, j. lia.
      * intros (k & j & Hk & Hj & Hb & ->).
        destruct (decide (k = 0%Z)) as [->|Hne].
        -- left. exists j. lia.
        -- right. exists (k - 1)%Z, j. lia.
  - exists []. split; [done|]. split; [done|]. split; [constructor|].
    intros x. split; [by intros ?%elem_of_nil|].
    intros (k & j & Hk & Hj & Hb & _). nia.
Qed.

(** What the whole launch of [blocked_strided_kernel] calls: thread [g],
    in its [k]-th turn, item [j]. *)
Lemma blocked_kernel_spec fuel ipt B G bound ts :
  one_dim_launch B G ts -> (0 < B)%Z -> (0 < G)%Z -> 0 < ipt ->
  (0 <= bound)%Z -> (bound + B * G * Z.of_nat ipt < 2 ^ 31)%Z ->
  Z.to_nat bound < fuel ->
  exists calls,
    launch (blocked_strided_kernel fuel ipt bound) ts = Some calls /\
    NoDup (fst <$> calls) /\
    forall x, x ∈ fst <$> calls <->
      exists g k j, (0 <= g < B * G)%Z /\ (0 <= k)%Z /\
        (0 <= j < Z.of_nat ipt)%Z /\
        (g + k * (B * G * Z.of_nat ipt) < bound)%Z /\
        x = (g + k * (B * G * Z.of_nat ipt) + B * G * j)%Z.
Proof.
  intros Hlaunch HB HG Hipt Hb Hov Hf.
  assert (0 < B * G)%Z as Hs by nia.
  assert (B * G <= B * G * Z.of_nat ipt)%Z as Hle by nia.
  destruct (launch_calls (blocked_strided_kernel fuel ipt bound)
              (fun t x => exists k j, (0 <= k)%Z /\
                 (0 <= j < Z.of_nat ipt)%Z /\
                 (global_id t + k * (B * G * Z.of_nat ipt) < bound)%Z /\
                 x = (global_id t + k * (B * G * Z.of_nat ipt)
                      + B * G * j)%Z) ts)
    as (calls & Hrun & Hnd & Hmem).
  - intros t Ht.
    destruct (one_dim_launch_ids B G ts t Hlaunch Ht) as (HBt & HGt & Hid).
    unfold blocked_strided_kernel. rewrite HBt, HGt.
    rewrite !to_int_small by lia.
    destruct (blocked_loop_spec t (B * G) ipt bound fuel (global_id t))
      as (tr & Hk & _ & Hn & Hm); [lia..|].
    by exists tr.
  - destruct Hlaunch as [_ Hperm]. rewrite Hperm. apply NoDup_seqZ.
  - intros t1 t2 x H1 H2 (k1 & j1 & _ & _ & _ & Hx1) (k2 & j2 & _ & _ & _ & Hx2).
    destruct (one_dim_launch_ids B G ts t1 Hlaunch H1) as (_ & _ & Hid1).
    destruct (one_dim_launch_ids B G ts t2 Hlaunch H2) as (_ & _ & Hid2).
    apply (same_residue (B * G) _ _ (k1 * Z.of_nat ipt + j1)
             (k2 * Z.of_nat ipt + j2)); lia.
  - exists calls. split; [done|]. split; [done|].
    intros x. rewrite Hmem. split.
    + intros (t & Ht & k & j & Hk & Hj & Hlt & Hx).
      destruct (one_dim_launch_ids B G ts t Hlaunch Ht) as (_ & _ & Hid).
      by exists (global_id t), k, j.
    + intros (gid & k & j & Hg & Hk & Hj & Hlt & Hx).
      destruct (one_dim_launch_thread B G ts gid Hlaunch Hg)
        as (t & Ht & <-).
      exists t. split; [done|]. by exists k, j.
Qed.

(** X15: when [items_per_thread] is at least 1 and
    [bound + stride * items_per_thread] fits an [int], the threads of a
    launch of [blocked_strided_kernel] together call [f] on every index of
    [0 .. bound - 1], and on no index twice; the inner loop does not test
    the bound, so other indices can be called, all of them below
    [bound + stride * (items_per_thread - 1)]. *)
Theorem blocked_kernel_covers (fuel ipt : nat) (B G bound : Z)
    (ts : list thread_t) :
  one_dim_launch B G ts -> (0 < B)%Z -> (0 < G)%Z -> 0 < ipt ->
  (0 <= bound)%Z -> (bound + B * G * Z.of_nat ipt < 2 ^ 31)%Z ->
  Z.to_nat bound < fuel ->
  exists calls,
    launch (blocked_strided_kernel fuel ipt bound) ts = Some calls /\
    NoDup (fst <$> calls) /\
    (forall x, (0 <= x < bound)%Z -> x ∈ fst <$> calls) /\
    (forall x, x ∈ fst <$> calls ->
       (0 <= x < bound + B * G * (Z.of_nat ipt - 1))%Z).
Proof.
  intros Hlaunch HB HG Hipt Hb Hov Hf.
  destruct (blocked_kernel_spec fuel ipt B G bound ts Hlaunch HB HG Hipt
              Hb Hov Hf) as (calls & Hrun & Hnd & Hmem).
  assert (0 < B * G)%Z as Hs by nia.
  exists calls. split; [done|]. split; [done|]. split.
  - intros x Hx. apply Hmem.
    set (m := (x / (B * G))%Z).
    exists (x mod (B * G))%Z, (m / Z.of_nat ipt)%Z, (m mod Z.of_nat ipt)%Z.
    pose proof (Z.mod_pos_bound x (B * G) Hs).
    pose proof (Z.div_mod x (B * G) ltac:(lia)) as Hdm. fold m in Hdm.
    assert (0 <= m)%Z by (subst m; apply Z.div_pos; lia).
    pose proof (Z.mod_pos_bound m (Z.of_nat ipt) ltac:(lia)).
    pose proof (Z.div_mod m (Z.of_nat ipt) ltac:(lia)) as Hdm'.
    assert (0 <= m / Z.of_nat ipt)%Z by (apply Z.div_pos; lia).
    repeat split; try lia; nia.
  - intros x (gid & k & j & Hg & Hk & Hj & Hlt & ->)%Hmem. nia.
Qed.

(** X16: when [items_per_thread] is at least 1 and
    [bound + stride * items_per_thread] fits an [int]: if [bound] is a
    multiple of [stride * items_per_thread], or [items_per_thread] is 1,
    the calls of [blocked_strided_kernel] are the indices below [bound],
    each once; otherwise, with two items or more per thread, [f] is called
    on an index that is not below [bound]. *)
Theorem blocked_kernel_overrun (fuel ipt : nat) (B G bound : Z)
    (ts : list thread_t) :
  one_dim_launch B G ts -> (0 < B)%Z -> (0 < G)%Z -> 0 < ipt ->
  (0 <= bound)%Z -> (bound + B * G * Z.of_nat ipt < 2 ^ 31)%Z ->
  Z.to_nat bound < fuel ->
  exists calls,
    launch (blocked_strided_kernel fuel ipt bound) ts = Some calls /\
    ((bound mod (B * G * Z.of_nat ipt))%Z = 0%Z \/ ipt = 1 ->
     fst <$> calls ≡ₚ seqZ 0 bound) /\
    ((bound mod (B * G * Z.of_nat ipt))%Z ≠ 0%Z -> 2 <= ipt ->
     exists x, x ∈ fst <$> calls /\ (bound <= x)%Z).
Proof.
  intros Hlaunch HB HG Hipt Hb Hov Hf.
  destruct (blocked_kernel_spec fuel ipt B G bound ts Hlaunch HB HG Hipt
              Hb Hov Hf) as (calls & Hrun & Hnd & Hmem).
  assert (0 < B * G)%Z as Hs by nia.
  set (S := (B * G)%Z) in *. set (T := (S * Z.of_nat ipt)%Z) in *.
  assert (0 < T)%Z as HT by (subst T; nia).
  pose proof (Z.div_mod bound T ltac:(lia)) as Hq.
  pose proof (Z.mod_pos_bound bound T HT) as Hr.
  assert (0 <= bound / T)%Z as Hq0 by (apply Z.div_pos; lia).
  exists calls. split; [done|]. split.
  - intros Hexact.
    apply NoDup_Permutation; [done|apply NoDup_seqZ|].
    intros x. rewrite elem_of_seqZ. split.
    + intros (gid & k & j & Hg & Hk & Hj & Hlt & ->)%Hmem.
      split; [nia|]. destruct Hexact as [Hmul| ->].
      * rewrite Hmul in Hq.
        assert (k < bound / T)%Z by nia.
        assert (S * j <= S * (Z.of_nat ipt - 1))%Z by nia.
        subst T. nia.
      * assert (j = 0%Z) as -> by lia. lia.
    + intros Hx. apply Hmem.
      set (m := (x / S)%Z).
      exists (x mod S)%Z, (m / Z.of_nat ipt)%Z, (m mod Z.of_nat ipt)%Z.
      pose proof (Z.mod_pos_bound x S Hs).
      pose proof (Z.div_mod x S ltac:(lia)) as Hdm. fold m in Hdm.
      assert (0 <= m)%Z by (subst m; apply Z.div_pos; lia).
      pose proof (Z.mod_pos_bound m (Z.of_nat ipt) ltac:(lia)).
      pose proof (Z.div_mod m (Z.of_nat ipt) ltac:(lia)) as Hdm'.
      assert (0 <= m / Z.of_nat ipt)%Z by (apply Z.div_pos; lia).
      subst T. repeat split; try lia; nia.
  - intros Hrem Hipt2.
    set (gid := (Z.min (bound mod T) S - 1)%Z).
    exists (gid + bound / T * T + S * (Z.of_nat ipt - 1))%Z. split.
    + apply Hmem. exists gid, (bound / T)%Z, (Z.of_nat ipt - 1)%Z.
      subst gid T. repeat split; lia.
    + subst gid.
      destruct (Z.min_spec (bound mod T) S) as [[Hlt ->]|[Hge ->]].
      * assert (1 <= S * (Z.of_nat ipt - 1))%Z by nia. lia.
      * subst T. nia.
Qed.

(** ** [match_launch_params_t] *)

Lemma match_launch_params_filter target lp_v :
  match_launch_params_t target lp_v
  = List.filter
      (fun lp => bool_decide (Z.land (sm_flags lp) target ≠ 0%Z)) lp_v.
Proof.
  unfold match_launch_params_t.
  induction lp_v as [|lp l IH]; simpl; [done|].
  rewrite IH. by case_bool_decide.
Qed.

(** X17: [match_launch_params_t] keeps, in the order of the pack, the
    launch parameters whose [sm_flags] share a bit with the target flag:
    the result is a sublist of the pack, a parameter set is in it exactly
    when it is in the pack and its flags meet the target, and a parameter
    set whose flags are the union of the flags of two others meets the
    target exactly when one of the two does. *)
Theorem match_launch_params_spec (target : Z)
    (lp_v : list launch_params_t) :
  match_launch_params_t target lp_v `sublist_of` lp_v /\
  (forall lp, lp ∈ match_launch_params_t target lp_v <->
     lp ∈ lp_v /\ Z.land (sm_flags lp) target ≠ 0%Z) /\
  (forall lp lp1 lp2,
     sm_flags lp = Z.lor (sm_flags lp1) (sm_flags lp2) ->
     (Z.land (sm_flags lp) target ≠ 0%Z <->
      Z.land (sm_flags lp1) target ≠ 0%Z \/
      Z.land (sm_flags lp2) target ≠ 0%Z)) /\
  (forall l1 l2,
     match_launch_params_t target (l1 ++ l2)
     = match_launch_params_t target l1 ++ match_launch_params_t target l2).
Proof.
  split; [|split; [|split]].
  - rewrite match_launch_params_filter.
    induction lp_v as [|lp l IH]; simpl; [done|].
    case_bool_decide; [by apply sublist_skip|by apply sublist_cons].
  - intros lp. rewrite match_launch_params_filter.
    rewrite !list_elem_of_In, filter_In, bool_decide_eq_true. done.
  - intros lp lp1 lp2 ->. rewrite Z.land_lor_distr_l, Z.lor_eq_0_iff.
    destruct (decide (Z.land (sm_flags lp1) target = 0%Z));
      destruct (decide (Z.land (sm_flags lp2) target = 0%Z)); tauto.
  - intros l1 l2. unfold match_launch_params_t.
    by rewrite map_app, concat_app.
Qed.

(** ** The sample inputs of the further properties *)

Lemma swap34_Permutation (l : list edge_t) : swap34 l ≡ₚ l.
Proof.
  destruct l as [|a [|b [|c [|d rest]]]]; simpl; try done.
  do 2 apply perm_skip. apply perm_swap.
Qed.

Lemma relax_swapped_fair : fair relax_swapped.
Proof. repeat split; try done. intros l. apply swap34_Permutation. Qed.

Lemma cycle4_wf : wf_graph cycle4.
Proof. unfold wf_graph. refine (bool_decide_unpack _ _). vm_compute. exact I. Qed.

Lemma equal_triangle_wf : wf_graph equal_triangle.
Proof. unfold wf_graph. refine (bool_decide_unpack _ _). vm_compute. exact I. Qed.

Lemma heavy_graph_wf : wf_graph heavy_graph.
Proof. unfold wf_graph. refine (bool_decide_unpack _ _). vm_compute. exact I. Qed.

Lemma self_loop_graph_wf : wf_graph self_loop_graph.
Proof. unfold wf_graph. refine (bool_decide_unpack _ _). vm_compute. exact I. Qed.

Lemma seq_roots_in_range n : roots_in_range n (seq 0 n).
Proof.
  split; [apply length_seq|]. apply Forall_forall. intros r Hr.
  apply elem_of_seq in Hr. lia.
Qed.

Lemma threads_one_dim_launch B G : one_dim_launch B G (threads B G).
Proof.
  unfold one_dim_launch, threads. split.
  - apply Forall_fmap, Forall_forall. by intros i _.
  - rewrite <- list_fmap_compose.
    rewrite (list_fmap_ext _ id (seqZ 0 (B * G))) by (by intros).
    by rewrite list_fmap_id.
Qed.

(** ** The further properties at sample inputs *)

Lemma commit_count_witness :
  fair sequential /\ wf_enactor (start two_triangles) /\
  mst_edges (loop_commit sequential (start two_triangles)).2 !!! 0 = 4%Z /\
  super_vertices (loop_commit sequential (start two_triangles)).2 !!! 0
  = 2%Z.
Proof.
  pose proof (start_wf _ two_triangles_wf) as Hwf.
  split; [exact sequential_fair|]. split; [exact Hwf|].
  destruct (commit_count sequential (start two_triangles) sequential_fair
              Hwf) as (He & Hs).
  split.
  - etrans; [exact He|]. vm_compute. reflexivity.
  - etrans; [exact Hs|]. vm_compute. reflexivity.
Defined.

Lemma run_edge_count_witness :
  exists E,
    run 5 10 (fun _ => sequential) cycle4 0%Z = Some E /\
    super_vertices (problem E) !!! 0 = 1%Z /\
    mst_edges (problem E) !!! 0 = 3%Z.
Proof.
  assert (is_Some (run 5 10 (fun _ => sequential) cycle4 0%Z)) as [E HE].
  { refine (bool_decide_unpack _ _). vm_compute. exact I. }
  exists E. split; [exact HE|].
  destruct (run_edge_count 5 10 (fun _ => sequential) cycle4 0%Z E HE)
    as (Hs & He).
  split; [exact Hs|exact He].
Defined.

Lemma two_triangles_src_root e :
  e ∈ all_edges two_triangles ->
  seq 0 6 !!! get_source_vertex two_triangles e < 6.
Proof.
  intros He. destruct (wf_graph_ends _ _ two_triangles_wf He) as [Hs _].
  change (get_number_of_vertices two_triangles) with 6 in Hs.
  rewrite lookup_total_seq_lt by done. lia.
Qed.

Lemma elected_is_lightest_witness :
  fair sequential /\ wf_graph two_triangles /\
  roots_in_range 6 (seq 0 6) /\ 0 < 6 /\
  get_edge_weight two_triangles
    ((selected sequential two_triangles (seq 0 6) (replicate 6 weight_max)
        (replicate 6 (-1)%Z) (all_edges two_triangles)).2 !!! 0)
  = (relaxed sequential two_triangles (seq 0 6) (replicate 6 weight_max)
       (all_edges two_triangles)).2 !!! 0 /\
  forall e, e ∈ all_edges two_triangles ->
    seq 0 6 !!! get_source_vertex two_triangles e = 0 /\
    seq 0 6 !!! get_destination_vertex two_triangles e ≠ 0 ->
    (get_edge_weight two_triangles
       ((selected sequential two_triangles (seq 0 6)
           (replicate 6 weight_max) (replicate 6 (-1)%Z)
           (all_edges two_triangles)).2 !!! 0%nat)
     <= get_edge_weight two_triangles e)%Z.
Proof.
  assert (0 < 6) as H6 by lia.
  split; [exact sequential_fair|]. split; [exact two_triangles_wf|].
  split; [exact (seq_roots_in_range 6)|]. split; [exact H6|].
  destruct (elected_is_lightest sequential two_triangles (seq 0 6) 0
              sequential_fair two_triangles_wf (seq_roots_in_range 6) H6)
    as (_ & Hlight).
  destruct Hlight as (_ & _ & Hw & Hmin); [by vm_compute|].
  split; [exact Hw|exact Hmin].
Defined.

Lemma one_candidate_per_component_witness :
  fair relax_reversed /\
  (forall e, e ∈ all_edges two_triangles ->
     seq 0 6 !!! get_source_vertex two_triangles e < 6) /\
  1%Z ∈ (relaxed relax_reversed two_triangles (seq 0 6)
           (replicate 6 weight_max) (all_edges two_triangles)).1 /\
  0%Z ∈ (relaxed relax_reversed two_triangles (seq 0 6)
           (replicate 6 weight_max) (all_edges two_triangles)).1 /\
  seq 0 6 !!! get_source_vertex two_triangles 1%Z
  = seq 0 6 !!! get_source_vertex two_triangles 0%Z /\
  (get_edge_weight two_triangles 1%Z
   = (relaxed relax_reversed two_triangles (seq 0 6)
        (replicate 6 weight_max) (all_edges two_triangles)).2
       !!! (seq 0 6 !!! get_source_vertex two_triangles 1%Z) ->
   get_edge_weight two_triangles 0%Z
   = (relaxed relax_reversed two_triangles (seq 0 6)
        (replicate 6 weight_max) (all_edges two_triangles)).2
       !!! (seq 0 6 !!! get_source_vertex two_triangles 1%Z) ->
   1%Z = 0%Z).
Proof.
  assert (1%Z ∈ (relaxed relax_reversed two_triangles (seq 0 6)
                   (replicate 6 weight_max) (all_edges two_triangles)).1)
    as H1.
  { refine (bool_decide_unpack _ _). vm_compute. exact I. }
  assert (0%Z ∈ (relaxed relax_reversed two_triangles (seq 0 6)
                   (replicate 6 weight_max) (all_edges two_triangles)).1)
    as H0.
  { refine (bool_decide_unpack _ _). vm_compute. exact I. }
  split; [exact relax_reversed_fair|].
  split; [exact two_triangles_src_root|].
  split; [exact H1|]. split; [exact H0|]. split; [reflexivity|].
  destruct (one_candidate_per_component relax_reversed two_triangles
              (seq 0 6) 6 (all_edges two_triangles) 1%Z 0%Z
              relax_reversed_fair two_triangles_src_root H1 H0 eq_refl)
    as (_ & Hone).
  exact Hone.
Defined.

Lemma frontier_is_commits_witness :
  fair sequential /\ wf_enactor (start two_triangles) /\
  exists v, v < 6 /\
    acts (set_scratch (problem (start two_triangles))
            (relaxed sequential two_triangles (seq 0 6)
               (replicate 6 weight_max) (all_edges two_triangles)).2
            (selected sequential two_triangles (seq 0 6)
               (replicate 6 weight_max) (replicate 6 (-1)%Z)
               (all_edges two_triangles)).2) v = true /\
    4%Z = (selected sequential two_triangles (seq 0 6)
             (replicate 6 weight_max) (replicate 6 (-1)%Z)
             (all_edges two_triangles)).2 !!! v.
Proof.
  pose proof (start_wf _ two_triangles_wf) as Hwf.
  split; [exact sequential_fair|]. split; [exact Hwf|].
  destruct (frontier_is_commits sequential (start two_triangles) 4%Z
              sequential_fair Hwf) as (Hcommit & _).
  apply Hcommit.
  refine (bool_decide_unpack _ _). vm_compute. exact I.
Defined.

Lemma reciprocal_pair_commits_once_witness :
  let P := set_scratch (problem (start two_triangles))
             [1%Z; 1%Z; 2%Z; 1%Z; 1%Z; 2%Z]
             [0%Z; 2%Z; 4%Z; 6%Z; 8%Z; 10%Z] in
  min_weights P !!! 0 ≠ weight_max /\ min_weights P !!! 1 ≠ weight_max /\
  roots P !!! get_destination_vertex (g P) (min_neighbors P !!! 0) = 1 /\
  roots P !!! get_destination_vertex (g P) (min_neighbors P !!! 1) = 0 /\
  acts P 0 = true /\ acts P 1 = false.
Proof.
  intros P.
  assert (min_weights P !!! 0 ≠ weight_max) as Ha by (by vm_compute).
  assert (min_weights P !!! 1 ≠ weight_max) as Hb by (by vm_compute).
  assert (get_source_vertex (g P) (min_neighbors P !!! 0)
          ≠ get_destination_vertex (g P) (min_neighbors P !!! 0)) as Hne
    by (by vm_compute).
  split; [exact Ha|]. split; [exact Hb|]. split; [reflexivity|].
  split; [reflexivity|].
  destruct (reciprocal_pair_commits_once P 0 1 Ha Hb eq_refl eq_refl
              eq_refl eq_refl Hne) as (H0 & H1).
  split; [exact H0|]. rewrite H1, H0. reflexivity.
Defined.

Lemma heavy_graph_edges e :
  e ∈ all_edges heavy_graph ->
  roots (problem (start heavy_graph)) !!! get_source_vertex heavy_graph e
  ≠ roots (problem (start heavy_graph))
      !!! get_destination_vertex heavy_graph e ->
  (weight_max <= get_edge_weight heavy_graph e)%Z.
Proof.
  intros He _. apply elem_of_all_edges in He.
  change (get_number_of_edges heavy_graph) with 2 in He.
  assert (e = 0 \/ e = 1)%Z as [-> | ->] by lia; by vm_compute.
Qed.

Lemma sentinel_edges_ignored_witness :
  fair sequential /\ wf_enactor (start heavy_graph) /\
  (forall e, e ∈ all_edges heavy_graph ->
     roots (problem (start heavy_graph)) !!! get_source_vertex heavy_graph e
     ≠ roots (problem (start heavy_graph))
         !!! get_destination_vertex heavy_graph e ->
     (weight_max <= get_edge_weight heavy_graph e)%Z) /\
  (loop_commit sequential (start heavy_graph)).1 = [] /\
  super_vertices (loop_commit sequential (start heavy_graph)).2 = [2%Z].
Proof.
  pose proof (start_wf _ heavy_graph_wf) as Hwf.
  split; [exact sequential_fair|]. split; [exact Hwf|].
  split; [exact heavy_graph_edges|].
  destruct (sentinel_edges_ignored sequential (start heavy_graph)
              sequential_fair Hwf heavy_graph_edges)
    as (Hout & _ & _ & Hs & _).
  split; [exact Hout|exact Hs].
Defined.

Lemma equal_triangle_new_roots :
  new_roots (loop_commit relax_swapped (start equal_triangle)).2
  = [1; 2; 1].
Proof. vm_compute. reflexivity. Qed.

Lemma loop_hangs_on_cycle_witness :
  fair relax_swapped /\ wf_enactor (start equal_triangle) /\ 0 < 3 /\
  (forall u, u = 1 \/ u = 2 ->
     (new_roots (loop_commit relax_swapped (start equal_triangle)).2 !!! u
      = 1 \/
      new_roots (loop_commit relax_swapped (start equal_triangle)).2 !!! u
      = 2) /\
     new_roots (loop_commit relax_swapped (start equal_triangle)).2 !!! u
     ≠ u) /\
  forall fuel, loop fuel relax_swapped (start equal_triangle) = None.
Proof.
  pose proof (start_wf _ equal_triangle_wf) as Hwf.
  assert (0 < 3) as H3 by lia.
  assert (forall u, u = 1 \/ u = 2 ->
     (new_roots (loop_commit relax_swapped (start equal_triangle)).2 !!! u
      = 1 \/
      new_roots (loop_commit relax_swapped (start equal_triangle)).2 !!! u
      = 2) /\
     new_roots (loop_commit relax_swapped (start equal_triangle)).2 !!! u
     ≠ u) as Hcycle.
  { rewrite equal_triangle_new_roots. intros u [-> | ->]; simpl; lia. }
  split; [exact relax_swapped_fair|]. split; [exact Hwf|].
  split; [exact H3|]. split; [exact Hcycle|].
  apply (loop_hangs_on_cycle relax_swapped (start equal_triangle)
           (fun u => u = 1 \/ u = 2) 0 relax_swapped_fair Hwf H3);
    [|exact Hcycle].
  rewrite equal_triangle_new_roots. left. reflexivity.
Defined.

Lemma round_invariant_witness :
  fair sequential /\ wf_enactor (start two_triangles) /\
  loop 10 sequential (start two_triangles) = Some two_triangles_merged /\
  wf_enactor (next_iteration two_triangles_merged) /\
  roots (problem two_triangles_merged)
  = new_roots (problem two_triangles_merged).
Proof.
  pose proof (start_wf _ two_triangles_wf) as Hwf.
  split; [exact sequential_fair|]. split; [exact Hwf|].
  split; [exact two_triangles_first_round|].
  destruct (round_invariant 10 sequential (start two_triangles)
              two_triangles_merged sequential_fair Hwf
              two_triangles_first_round) as (Hwf' & _ & _ & Hroots & _).
  split; [exact Hwf'|exact Hroots].
Defined.


Lemma self_loop_graph_loops :
  Forall (fun e => get_source_vertex self_loop_graph e
                   = get_destination_vertex self_loop_graph e)
    (all_edges self_loop_graph).
Proof. refine (bool_decide_unpack _ _). vm_compute. exact I. Qed.

Lemma run_without_edges_witness :
  (forall i : nat, fair ((fun _ => sequential) i)) /\
  wf_graph self_loop_graph /\
  Forall (fun e => get_source_vertex self_loop_graph e
                   = get_destination_vertex self_loop_graph e)
    (all_edges self_loop_graph) /\
  get_number_of_vertices self_loop_graph ≠ 1 /\
  run 4 10 (fun _ => sequential) self_loop_graph 0%Z = None.
Proof.
  assert (forall i : nat, fair ((fun _ => sequential) i)) as Hfair.
  { intros _. exact sequential_fair. }
  assert (get_number_of_vertices self_loop_graph ≠ 1) as Hn
    by (simpl; lia).
  split; [exact Hfair|]. split; [exact self_loop_graph_wf|].
  split; [exact self_loop_graph_loops|]. split; [exact Hn|].
  exact (run_without_edges 4 10 (fun _ => sequential) self_loop_graph 0%Z
           Hfair self_loop_graph_wf self_loop_graph_loops Hn).
Defined.

Lemma strided_kernel_thread_witness :
  (0 < block_size sample_thread * grid_size sample_thread)%Z /\
  (0 <= global_id sample_thread
   < block_size sample_thread * grid_size sample_thread)%Z /\
  (0 <= 10)%Z /\
  (10 + block_size sample_thread * grid_size sample_thread < 2 ^ 31)%Z /\
  Z.to_nat 10 < 11 /\
  exists tr,
    strided_kernel 11 10 sample_thread = Some tr /\
    Forall (fun c => c.2 = block_id sample_thread) tr /\
    NoDup (fst <$> tr) /\
    forall x, x ∈ fst <$> tr <->
      exists k, (0 <= k)%Z /\
        x = (global_id sample_thread
             + k * (block_size sample_thread * grid_size sample_thread))%Z /\
        (x < 10)%Z.
Proof.
  assert (0 < block_size sample_thread * grid_size sample_thread)%Z
    as Hs by (simpl; lia).
  assert (0 <= global_id sample_thread
          < block_size sample_thread * grid_size sample_thread)%Z
    as Hg by (simpl; lia).
  assert (0 <= 10)%Z as Hb by lia.
  assert (10 + block_size sample_thread * grid_size sample_thread
          < 2 ^ 31)%Z as Hov by (simpl; lia).
  assert (Z.to_nat 10 < 11) as Hf by lia.
  split; [exact Hs|]. split; [exact Hg|]. split; [exact Hb|].
  split; [exact Hov|]. split; [exact Hf|].
  destruct (strided_kernel_thread 11 10 sample_thread Hs Hg Hb Hov Hf)
    as (tr & Hrun & Hblock & Hnd & Hmem & _).
  exists tr. split; [exact Hrun|]. split; [exact Hblock|].
  split; [exact Hnd|exact Hmem].
Defined.

Lemma strided_kernel_covers_witness :
  one_dim_launch 2 2 (threads 2 2) /\ (0 < 2)%Z /\ (0 <= 10)%Z /\
  (10 + 2 * 2 < 2 ^ 31)%Z /\ Z.to_nat 10 < 11 /\
  exists calls,
    launch (strided_kernel 11 10) (threads 2 2) = Some calls /\
    fst <$> calls ≡ₚ seqZ 0 10.
Proof.
  assert (0 < 2)%Z as H2 by lia. assert (0 <= 10)%Z as Hb by lia.
  assert (10 + 2 * 2 < 2 ^ 31)%Z as Hov by lia.
  assert (Z.to_nat 10 < 11) as Hf by lia.
  split; [exact (threads_one_dim_launch 2 2)|]. split; [exact H2|].
  split; [exact Hb|]. split; [exact Hov|]. split; [exact Hf|].
  exact (strided_kernel_covers 11 2 2 10 (threads 2 2)
           (threads_one_dim_launch 2 2) H2 H2 Hb Hov Hf).
Defined.

Lemma blocked_kernel_covers_witness :
  one_dim_launch 2 2 (threads 2 2) /\ (0 < 2)%Z /\ 0 < 2 /\ (0 <= 10)%Z /\
  (10 + 2 * 2 * Z.of_nat 2 < 2 ^ 31)%Z /\ Z.to_nat 10 < 11 /\
  exists calls,
    launch (blocked_strided_kernel 11 2 10) (threads 2 2) = Some calls /\
    NoDup (fst <$> calls) /\
    (forall x, (0 <= x < 10)%Z -> x ∈ fst <$> calls) /\
    (forall x, x ∈ fst <$> calls ->
       (0 <= x < 10 + 2 * 2 * (Z.of_nat 2 - 1))%Z).
Proof.
  assert (0 < 2)%Z as H2 by lia. assert (0 < 2) as Hipt by lia.
  assert (0 <= 10)%Z as Hb by lia.
  assert (10 + 2 * 2 * Z.of_nat 2 < 2 ^ 31)%Z as Hov by lia.
  assert (Z.to_nat 10 < 11) as Hf by lia.
  split; [exact (threads_one_dim_launch 2 2)|]. split; [exact H2|].
  split; [exact Hipt|]. split; [exact Hb|]. split; [exact Hov|].
  split; [exact Hf|].
  exact (blocked_kernel_covers 11 2 2 2 10 (threads 2 2)
           (threads_one_dim_launch 2 2) H2 H2 Hipt Hb Hov Hf).
Defined.

Lemma blocked_kernel_overrun_witness :
  one_dim_launch 2 2 (threads 2 2) /\ (0 < 2)%Z /\ 0 < 2 /\ (0 <= 10)%Z /\
  (10 + 2 * 2 * Z.of_nat 2 < 2 ^ 31)%Z /\ Z.to_nat 10 < 11 /\
  (10 mod (2 * 2 * Z.of_nat 2))%Z ≠ 0%Z /\ 2 <= 2 /\
  exists calls,
    launch (blocked_strided_kernel 11 2 10) (threads 2 2) = Some calls /\
    exists x, x ∈ fst <$> calls /\ (10 <= x)%Z.
Proof.
  assert (0 < 2)%Z as H2 by lia. assert (0 < 2) as Hipt by lia.
  assert (0 <= 10)%Z as Hb by lia.
  assert (10 + 2 * 2 * Z.of_nat 2 < 2 ^ 31)%Z as Hov by lia.
  assert (Z.to_nat 10 < 11) as Hf by lia.
  assert ((10 mod (2 * 2 * Z.of_nat 2))%Z ≠ 0%Z) as Hrem by (by vm_compute).
  assert (2 <= 2) as Hipt2 by lia.
  split; [exact (threads_one_dim_launch 2 2)|]. split; [exact H2|].
  split; [exact Hipt|]. split; [exact Hb|]. split; [exact Hov|].
  split; [exact Hf|]. split; [exact Hrem|]. split; [exact Hipt2|].
  destruct (blocked_kernel_overrun 11 2 2 2 10 (threads 2 2)
              (threads_one_dim_launch 2 2) H2 H2 Hipt Hb Hov Hf)
    as (calls & Hrun & _ & Hover).
  exists calls. split; [exact Hrun|]. exact (Hover Hrem Hipt2).
Defined.
